(** * gittohabu: the GitHub Japanese translation content script

    A shallow embedding of the content script (dictionary substitution,
    eligibility filter, text-node and attribute passes, remote batch
    translation) together with the properties stated about it. *)

From Stdlib Require Import NArith Bool Arith Lia String Ascii List.
Import ListNotations.

Set Implicit Arguments.
Set Warnings "-register-all".

(** ** JavaScript strings

    The dictionary patterns carry the [u] flag, so the matcher reads the text
    code point by code point.  A string is therefore embedded as the list of
    its code points; an unpaired surrogate is a code point of its own.  The
    [length] property counts UTF-16 code units and is [length16]. *)

Definition jsstring := list N.

Fixpoint jsstring_eqb (a b : jsstring) : bool :=
  match a, b with
  | [], [] => true
  | x :: a', y :: b' => (x =? y)%N && jsstring_eqb a' b'
  | _, _ => false
  end.

(** Source literals are written as Rocq strings, whose bytes are the UTF-8
    encoding of the text. *)
Fixpoint utf8_decode (need : nat) (acc : N) (s : string) : jsstring :=
  match s with
  | EmptyString => []
  | String a r =>
      let b := N_of_ascii a in
      match need with
      | O =>
          if b <? 128 then b :: utf8_decode 0 0 r
          else if b <? 224 then utf8_decode 1 (N.land b 31) r
          else if b <? 240 then utf8_decode 2 (N.land b 15) r
          else utf8_decode 3 (N.land b 7) r
      | S k =>
          let acc' := acc * 64 + N.land b 63 in
          match k with
          | O => acc' :: utf8_decode 0 0 r
          | S _ => utf8_decode k acc' r
          end
      end
  end%N.

Definition js (s : string) : jsstring := utf8_decode 0 0 s.
Arguments js s%_string.

Definition length16 (s : jsstring) : nat :=
  list_sum (map (fun c => if (c <? 65536)%N then 1 else 2) s).

(** [String.prototype.trim] strips WhiteSpace and LineTerminator code points. *)
Definition isTrimSpace (c : N) : bool :=
  ((9 <=? c) && (c <=? 13) || (c =? 32) || (c =? 160) || (c =? 5760)
   || (8192 <=? c) && (c <=? 8202) || (c =? 8232) || (c =? 8233)
   || (c =? 8239) || (c =? 8287) || (c =? 12288) || (c =? 65279))%N.

Fixpoint trimStart (s : jsstring) : jsstring :=
  match s with
  | c :: r => if isTrimSpace c then trimStart r else s
  | [] => []
  end.

Definition trim (s : jsstring) : jsstring :=
  rev (trimStart (rev (trimStart s))).

(** ** The Unicode data of the host

    The property tables behind [\p{L}] and [\p{N}], simple case folding
    (Canonicalize under the flags [iu]) and [String.prototype.toLowerCase]
    belong to the JavaScript engine.  The development is parametric in them.

    [letterOrNumber ch] is the verdict of the class [[\p{L}\p{N}]] on [ch]
    under the flags [iu]: some letter or number folds to the same code point
    as [ch]. *)
Class Unicode := {
  letterOrNumber : N -> bool;
  canonicalize : N -> N;
  toLowerCase : jsstring -> jsstring
}.

(** A table that agrees with Unicode on Basic Latin, Latin-1, the kana blocks
    and the CJK unified ideographs, and treats every other code point as a
    caseless symbol.  It is used to evaluate the program on concrete texts. *)
Definition basicLetterOrNumber (c : N) : bool :=
  ((48 <=? c) && (c <=? 57) || (65 <=? c) && (c <=? 90)
   || (97 <=? c) && (c <=? 122)
   || (c =? 170) || (c =? 178) || (c =? 179) || (c =? 181) || (c =? 185)
   || (c =? 186) || (188 <=? c) && (c <=? 190)
   || (192 <=? c) && (c <=? 255) && negb (c =? 215) && negb (c =? 247)
   || (c =? 383) || (c =? 8490)
   || (c =? 12293) || (c =? 12294) || (c =? 12295)
   || (12353 <=? c) && (c <=? 12438) || (12445 <=? c) && (c <=? 12447)
   || (12449 <=? c) && (c <=? 12538) || (12540 <=? c) && (c <=? 12543)
   || (19968 <=? c) && (c <=? 40959))%N.

Definition basicFold (c : N) : N :=
  (if (65 <=? c) && (c <=? 90) then c + 32
   else if (192 <=? c) && (c <=? 222) && negb (c =? 215) then c + 32
   else if c =? 181 then 956
   else if c =? 383 then 115
   else if c =? 8490 then 107
   else c)%N.

Definition basicLower (c : N) : N :=
  (if (65 <=? c) && (c <=? 90) then c + 32
   else if (192 <=? c) && (c <=? 222) && negb (c =? 215) then c + 32
   else if c =? 8490 then 107
   else c)%N.

Definition basicUnicode : Unicode :=
  {| letterOrNumber := basicLetterOrNumber;
     canonicalize := basicFold;
     toLowerCase := map basicLower |}.

(** ** Regular expressions: the fragment the dictionary compiler produces *)

(** SyntaxCharacter of the pattern grammar; it is also the class of
    [/[.*+?^${}()|[\]\\]/g] in [compileDictionary]. *)
Definition isSyntaxCharacter (c : N) : bool :=
  ((c =? 46) || (c =? 42) || (c =? 43) || (c =? 63) || (c =? 94) || (c =? 36)
   || (c =? 123) || (c =? 125) || (c =? 40) || (c =? 41) || (c =? 124)
   || (c =? 91) || (c =? 93) || (c =? 92))%N.

Inductive Term :=
| NotAfterWord               (* (?<![\p{L}\p{N}_]) *)
| NotBeforeWord              (* (?![\p{L}\p{N}_]) *)
| Literal (c : N)            (* a PatternCharacter or an IdentityEscape *)
| Unsupported.               (* any other construct; never produced, see
                                [RegExp_of_escaped] *)

Definition lookbehindSource : jsstring := js "(?<![\p{L}\p{N}_])".
Definition lookaheadSource : jsstring := js "(?![\p{L}\p{N}_])".

Fixpoint startsWith (p s : jsstring) : bool :=
  match p, s with
  | [], _ => true
  | a :: p', b :: s' => (a =? b)%N && startsWith p' s'
  | _ :: _, [] => false
  end.

(** [new RegExp(source, "giu")] on the fragment: [skip] code points of the
    construct just read are still to be passed over. *)
Fixpoint parseTerms (skip : nat) (src : jsstring) : list Term :=
  match src with
  | [] => []
  | c :: r =>
      match skip with
      | S k => parseTerms k r
      | O =>
          if startsWith lookbehindSource src
          then NotAfterWord :: parseTerms (List.length lookbehindSource - 1) r
          else if startsWith lookaheadSource src
          then NotBeforeWord :: parseTerms (List.length lookaheadSource - 1) r
          else if (c =? 92)%N then
            match r with
            | d :: _ =>
                if isSyntaxCharacter d || (d =? 47)%N
                then Literal d :: parseTerms 1 r
                else Unsupported :: parseTerms 1 r
            | [] => [Unsupported]
            end
          else if isSyntaxCharacter c then Unsupported :: parseTerms 0 r
          else Literal c :: parseTerms 0 r
      end
  end.

Definition RegExp_giu (source : jsstring) : list Term := parseTerms 0 source.

Record CompiledMatcher := {
  pattern : list Term;
  replacement : jsstring
}.

(** [english.replace(/[.*+?^${}()|[\]\\]/g, "\\$&")] *)
Definition escapeRegExp (english : jsstring) : jsstring :=
  flat_map (fun c => if isSyntaxCharacter c then [92%N; c] else [c]) english.

Definition compileEntry (entry : jsstring * jsstring) : CompiledMatcher :=
  let '(english, japanese) := entry in
  let escaped := escapeRegExp english in
  {| pattern := RegExp_giu (lookbehindSource ++ escaped ++ lookaheadSource);
     replacement := japanese |}.
Arguments compileEntry : simpl never.

Section Matching.
Context {U : Unicode}.

(** The class [[\p{L}\p{N}_]] under the flags [iu]. *)
Definition wordClass (ch : N) : bool :=
  letterOrNumber ch || (canonicalize ch =? canonicalize 95)%N.

Definition afterWord (before : jsstring) : bool :=
  match before with
  | p :: _ => wordClass p
  | [] => false
  end.

Definition beforeWord (rest : jsstring) : bool :=
  match rest with
  | n :: _ => wordClass n
  | [] => false
  end.

(** One attempt of the matcher at the current position: [before] is the
    text to the left, nearest code point first, [rest] the text to the
    right.  The result is the number of code points matched. *)
Fixpoint matchTerms (ts : list Term) (before rest : jsstring) : option nat :=
  match ts with
  | [] => Some O
  | NotAfterWord :: ts' =>
      if afterWord before then None else matchTerms ts' before rest
  | NotBeforeWord :: ts' =>
      if beforeWord rest then None else matchTerms ts' before rest
  | Literal c :: ts' =>
      match rest with
      | d :: rest' =>
          if (canonicalize c =? canonicalize d)%N
          then option_map S (matchTerms ts' (d :: before) rest')
          else None
      | [] => None
      end
  | Unsupported :: _ => None
  end.

(** GetSubstitution for a pattern without capture groups: [$$], [$&],
    [$`] and [$'] are the only references that are replaced. *)
Fixpoint getSubstitution (repl matched before after : jsstring) : jsstring :=
  match repl with
  | [] => []
  | c :: r =>
      if (c =? 36)%N then
        match r with
        | d :: r' =>
            if (d =? 36)%N
            then 36%N :: getSubstitution r' matched before after
            else if (d =? 38)%N
            then matched ++ getSubstitution r' matched before after
            else if (d =? 96)%N
            then before ++ getSubstitution r' matched before after
            else if (d =? 39)%N
            then after ++ getSubstitution r' matched before after
            else c :: getSubstitution r matched before after
        | [] => [c]
        end
      else c :: getSubstitution r matched before after
  end.

(** [String.prototype.replace] with a global pattern: the scan of the
    original text from left to right.  [skip] code points of the last match
    are still to be consumed; after an empty match the scan advances by one
    code point. *)
Fixpoint replaceFrom (m : CompiledMatcher) (before rest : jsstring)
    (skip : nat) {struct rest} : jsstring :=
  match skip with
  | S k =>
      match rest with
      | [] => []
      | c :: rest' => replaceFrom m (c :: before) rest' k
      end
  | O =>
      match matchTerms (pattern m) before rest with
      | Some n =>
          getSubstitution (replacement m) (firstn n rest) (rev before)
            (skipn n rest)
          ++ match rest with
             | [] => []
             | c :: rest' =>
                 match n with
                 | O => c :: replaceFrom m (c :: before) rest' 0
                 | S k => replaceFrom m (c :: before) rest' k
                 end
             end
      | None =>
          match rest with
          | [] => []
          | c :: rest' => c :: replaceFrom m (c :: before) rest' 0
          end
      end
  end.

Definition replace (text : jsstring) (m : CompiledMatcher) : jsstring :=
  replaceFrom m [] text 0.

End Matching.

(** ** The document tree

    Nodes carry an identity: the processed-node set and the callbacks of
    the attribute pass refer to nodes, not to their contents. *)

Record Element := {
  elementId : N;
  prefix : option jsstring;      (* the namespace prefix, [null] if none *)
  localName : jsstring;
  inHTMLNamespace : bool;
  attributes : list (jsstring * jsstring)
}.

Inductive Node :=
| TextNode (nodeId : N) (nodeValue : jsstring)
| ElementNode (element : Element) (childNodes : list Node).

(** An HTML document whose root element has a body: the content script runs
    once the page has been parsed. *)
Record Document := {
  documentElement : Element;
  headNodes : list Node;        (* children of the root before the body *)
  body : Element;
  bodyNodes : list Node;
  tailNodes : list Node         (* children of the root after the body *)
}.

Fixpoint getAttribute (attrs : list (jsstring * jsstring)) (name : jsstring)
  : option jsstring :=
  match attrs with
  | [] => None
  | (n, v) :: r => if jsstring_eqb n name then Some v else getAttribute r name
  end.

Fixpoint setAttributeIn (attrs : list (jsstring * jsstring))
    (name value : jsstring) : list (jsstring * jsstring) :=
  match attrs with
  | [] => [(name, value)]
  | (n, v) :: r =>
      if jsstring_eqb n name then (n, value) :: r
      else (n, v) :: setAttributeIn r name value
  end.

Definition setAttribute (e : Element) (name value : jsstring) : Element :=
  {| elementId := elementId e;
     prefix := prefix e;
     localName := localName e;
     inHTMLNamespace := inHTMLNamespace e;
     attributes := setAttributeIn (attributes e) name value |}.

Definition hasAttribute (name : jsstring) (e : Element) : bool :=
  match getAttribute (attributes e) name with
  | Some _ => true
  | None => false
  end.

Definition asciiUpper (c : N) : N :=
  (if (97 <=? c) && (c <=? 122) then c - 32 else c)%N.

(** The qualified name of an element: its local name, after the prefix and
    a colon if it has a prefix. *)
Definition qualifiedName (e : Element) : jsstring :=
  match prefix e with
  | Some p => p ++ 58%N :: localName e
  | None => localName e
  end.

(** [Element.tagName]: the qualified name, upper-cased for HTML elements of
    an HTML document. *)
Definition tagName (e : Element) : jsstring :=
  if inHTMLNamespace e then map asciiUpper (qualifiedName e)
  else qualifiedName e.

Definition isAsciiWhitespace (c : N) : bool :=
  ((c =? 9) || (c =? 10) || (c =? 12) || (c =? 13) || (c =? 32))%N.

(** The tokens of a [class] attribute. *)
Fixpoint splitOnWhitespace (cur : jsstring) (s : jsstring) : list jsstring :=
  match s with
  | [] => match cur with [] => [] | _ => [rev cur] end
  | c :: r =>
      if isAsciiWhitespace c
      then match cur with
           | [] => splitOnWhitespace [] r
           | _ => rev cur :: splitOnWhitespace [] r
           end
      else splitOnWhitespace (c :: cur) r
  end.

Definition classList (e : Element) : list jsstring :=
  match getAttribute (attributes e) (js "class") with
  | Some v => splitOnWhitespace [] v
  | None => []
  end.

Definition memberOf (l : list jsstring) (s : jsstring) : bool :=
  existsb (jsstring_eqb s) l.

Definition skippedTagNames : list jsstring :=
  [js "code"; js "pre"; js "kbd"; js "samp"; js "var"; js "script";
   js "style"; js "noscript"].

Definition codeRegionClasses : list jsstring :=
  [js "blob-code"; js "highlight"; js "diff-table"; js "CodeMirror";
   js "cm-editor"; js "react-code-viewer"; js "js-code-block-container"].

(** [e.closest(selector)] is not null: the element or one of its ancestors
    matches.  An element is given with its ancestors, nearest first. *)
Definition closest (matches : Element -> bool) (chain : list Element) : bool :=
  existsb matches chain.

Definition matchesNoTranslate (e : Element) : bool :=
  hasAttribute (js "data-no-translate") e.

Definition matchesCodeRegion (e : Element) : bool :=
  existsb (memberOf codeRegionClasses) (classList e).

Definition matchesSvgOrMath (e : Element) : bool :=
  memberOf [js "svg"; js "math"] (localName e).

(** ** Responses of the translation providers *)

(** A parsed JSON value.  The program observes a number only through its
    truthiness and its string conversion, which stand for it here. *)
Inductive Json :=
| JNull
| JBool (b : bool)
| JNumber (truthy : bool) (text : jsstring)
| JString (s : jsstring)
| JArray (items : list Json)
| JObject (fields : list (jsstring * Json)).

(** A JavaScript value read out of a payload: [None] is [undefined]. *)
Definition JsValue := option Json.

(** How a call of a provider function ends.  [NetworkError] stands for
    every call that throws before a response is there: [fetch] rejects, or
    the request cannot be built ([encodeURIComponent] throws on a key with
    an unpaired surrogate).  The error is then caught where a rejected
    [fetch] is caught. *)
Inductive FetchOutcome :=
| NetworkError
| HttpResponse (ok : bool) (status : N) (json : option Json).
                                 (* [json = None]: the body is not JSON *)

Inductive JsError :=
| FetchFailed                    (* what a call that ends in [NetworkError]
                                    throws *)
| HttpStatusError (provider : jsstring) (status : N)
| JsonSyntaxError
| TypeError.

Inductive LogEntry :=
| WarnMissingApiKey
| WarnApiError (e : JsError)
| WarnBatchFailed (e : JsError)
| ErrorInitFailed.

Definition truthy (v : JsValue) : bool :=
  match v with
  | None => false
  | Some JNull => false
  | Some (JBool b) => b
  | Some (JNumber t _) => t
  | Some (JString s) => match s with [] => false | _ => true end
  | Some (JArray _) => true
  | Some (JObject _) => true
  end.

Fixpoint lookupField (fields : list (jsstring * Json)) (key : jsstring)
  : JsValue :=
  match fields with
  | [] => None
  | (k, v) :: r => if jsstring_eqb k key then Some v else lookupField r key
  end.

(** [v.key] for a key that no prototype defines: a [TypeError] on [null] and
    [undefined], an own property of an object, [undefined] otherwise. *)
Definition getProperty (v : JsValue) (key : jsstring) : JsError + JsValue :=
  match v with
  | None => inl TypeError
  | Some JNull => inl TypeError
  | Some (JObject fields) => inr (lookupField fields key)
  | Some _ => inr None
  end.

(** [v?.key] *)
Definition getPropertyOptional (v : JsValue) (key : jsstring) : JsValue :=
  match getProperty v key with
  | inl _ => None
  | inr r => r
  end.

(** [v?.[0]] *)
Definition firstItemOptional (v : JsValue) : JsValue :=
  match v with
  | Some (JArray (x :: _)) => Some x
  | Some (JString (c :: _)) => Some (JString [c])
  | Some (JObject fields) => lookupField fields (js "0")
  | _ => None
  end.

(** [a || b] *)
Definition orElse (a b : JsValue) : JsValue := if truthy a then a else b.

Fixpoint mapM (A B : Type) (f : A -> JsError + B) (l : list A)
  : JsError + list B :=
  match l with
  | [] => inr []
  | x :: r =>
      match f x with
      | inl e => inl e
      | inr y =>
          match mapM f r with
          | inl e => inl e
          | inr ys => inr (y :: ys)
          end
      end
  end.

(** [v.map(f)]: only an array has a callable [map]. *)
Definition arrayMap (v : JsValue) (f : JsValue -> JsError + JsValue)
  : JsError + list JsValue :=
  match v with
  | Some (JArray items) => mapM (fun x => f (Some x)) items
  | _ => inl TypeError
  end.

Definition emptyArray : JsValue := Some (JArray []).
Definition emptyString : JsValue := Some (JString []).

(** The part of each provider function after [fetch] has settled. *)
Definition readResponse (provider : jsstring) (outcome : FetchOutcome)
  : JsError + JsValue :=
  match outcome with
  | NetworkError => inl FetchFailed
  | HttpResponse ok status json =>
      if negb ok then inl (HttpStatusError provider status)
      else match json with
           | None => inl JsonSyntaxError
           | Some data => inr (Some data)
           end
  end.

Definition bindE (A B : Type) (x : JsError + A) (f : A -> JsError + B)
  : JsError + B :=
  match x with
  | inl e => inl e
  | inr a => f a
  end.

Notation "x <- c ;; k" := (bindE c (fun x => k))
  (at level 61, c at next level, right associativity).

(** [(data.translations || []).map(x => x.text)] *)
Definition translateWithDeepL (outcome : FetchOutcome)
  : JsError + list JsValue :=
  data <- readResponse (js "DeepL") outcome ;;
  translations <- getProperty data (js "translations") ;;
  arrayMap (orElse translations emptyArray)
    (fun x => getProperty x (js "text")).

(** [(data.data?.translations || []).map(x => x.translatedText || "")] *)
Definition translateWithGoogle (outcome : FetchOutcome)
  : JsError + list JsValue :=
  data <- readResponse (js "Google Translate") outcome ;;
  inner <- getProperty data (js "data") ;;
  arrayMap (orElse (getPropertyOptional inner (js "translations")) emptyArray)
    (fun x => t <- getProperty x (js "translatedText") ;;
              inr (orElse t emptyString)).

(** [data.map(item => item.translations?.[0]?.text || "")] *)
Definition translateWithAzure (outcome : FetchOutcome)
  : JsError + list JsValue :=
  data <- readResponse (js "Azure Translator") outcome ;;
  arrayMap data
    (fun item =>
       translations <- getProperty item (js "translations") ;;
       inr (orElse
              (getPropertyOptional (firstItemOptional translations) (js "text"))
              emptyString)).

(** ** Traversals

    A [TreeWalker] restricted to text nodes hands every text node under the
    root to the loop body, in document order; writing [nodeValue] does not
    move the walker.  [visit] combines the filter and the loop body: it
    receives the ancestors of the node (parent first), its identity and its
    value, and returns the value the node is left with. *)
Section TreeWalker.
Variable State : Type.
Variable visit : list Element -> N -> jsstring -> State -> jsstring * State.

Fixpoint walkNode (ancestors : list Element) (n : Node) (s : State)
  : Node * State :=
  match n with
  | TextNode id value =>
      let '(value', s') := visit ancestors id value s in
      (TextNode id value', s')
  | ElementNode e children =>
      let '(children', s') :=
        (fix walkList (l : list Node) (s : State) : list Node * State :=
           match l with
           | [] => ([], s)
           | c :: r =>
               let '(c', s1) := walkNode (e :: ancestors) c s in
               let '(r', s2) := walkList r s1 in
               (c' :: r', s2)
           end) children s in
      (ElementNode e children', s')
  end.

Fixpoint walkNodes (ancestors : list Element) (l : list Node) (s : State)
  : list Node * State :=
  match l with
  | [] => ([], s)
  | c :: r =>
      let '(c', s1) := walkNode ancestors c s in
      let '(r', s2) := walkNodes ancestors r s1 in
      (c' :: r', s2)
  end.

(** [createTreeWalker(document.body, NodeFilter.SHOW_TEXT, ...)] run to the
    end. *)
Definition walkBody (d : Document) (s : State) : Document * State :=
  let '(nodes', s') :=
    walkNodes [body d; documentElement d] (bodyNodes d) s in
  ({| documentElement := documentElement d;
      headNodes := headNodes d;
      body := body d;
      bodyNodes := nodes';
      tailNodes := tailNodes d |}, s').
End TreeWalker.

(** [querySelectorAll(...).forEach(...)]: every element of the document in
    document order, each with its ancestors. *)
Section ElementWalker.
Variable State : Type.
Variable visit : list Element -> Element -> State -> Element * State.

Fixpoint mapElement (ancestors : list Element) (n : Node) (s : State)
  : Node * State :=
  match n with
  | TextNode id value => (TextNode id value, s)
  | ElementNode e children =>
      let '(e', s0) := visit ancestors e s in
      let '(children', s') :=
        (fix mapList (l : list Node) (s : State) : list Node * State :=
           match l with
           | [] => ([], s)
           | c :: r =>
               let '(c', s1) := mapElement (e' :: ancestors) c s in
               let '(r', s2) := mapList r s1 in
               (c' :: r', s2)
           end) children s0 in
      (ElementNode e' children', s')
  end.

Fixpoint mapElements (ancestors : list Element) (l : list Node) (s : State)
  : list Node * State :=
  match l with
  | [] => ([], s)
  | c :: r =>
      let '(c', s1) := mapElement ancestors c s in
      let '(r', s2) := mapElements ancestors r s1 in
      (c' :: r', s2)
  end.

Definition mapDocument (d : Document) (s : State) : Document * State :=
  let '(html', s0) := visit [] (documentElement d) s in
  let '(head', s1) := mapElements [html'] (headNodes d) s0 in
  let '(body', s2) := visit [html'] (body d) s1 in
  let '(nodes', s3) := mapElements [body'; html'] (bodyNodes d) s2 in
  let '(tail', s4) := mapElements [html'] (tailNodes d) s3 in
  ({| documentElement := html';
      headNodes := head';
      body := body';
      bodyNodes := nodes';
      tailNodes := tail' |}, s4).
End ElementWalker.

(** ** Configuration and the state of the content script *)

Record Configuration := {
  isEnabledOnGithub : bool;
  useTranslationApi : bool;
  translationProvider : jsstring;
  translationApiKey : jsstring;
  translationRegion : jsstring;
  translationAggressiveness : jsstring
}.

Definition defaultConfiguration : Configuration :=
  {| isEnabledOnGithub := true;
     useTranslationApi := false;
     translationProvider := js "None";
     translationApiKey := [];
     translationRegion := [];
     translationAggressiveness := js "balanced" |}.

Inductive ProviderKind := DeepL | Google | Azure.

Definition providerOf (name : jsstring) : option ProviderKind :=
  if jsstring_eqb name (js "DeepL") then Some DeepL
  else if jsstring_eqb name (js "Google") then Some Google
  else if jsstring_eqb name (js "Azure") then Some Azure
  else None.

Definition callProvider (k : ProviderKind) (outcome : FetchOutcome)
  : JsError + list JsValue :=
  match k with
  | DeepL => translateWithDeepL outcome
  | Google => translateWithGoogle outcome
  | Azure => translateWithAzure outcome
  end.

Inductive AttributeName := Placeholder | Title | AriaLabel.

Definition attributeNameString (a : AttributeName) : jsstring :=
  match a with
  | Placeholder => js "placeholder"
  | Title => js "title"
  | AriaLabel => js "aria-label"
  end.

Definition attributesToTranslate : list AttributeName :=
  [Placeholder; Title; AriaLabel].

(** A single-string request of the attribute pass whose [fetch] has not
    settled: the callback holds the element, the attribute name and the
    original value. *)
Record AttributeRequest := {
  requestElement : N;
  requestAttribute : AttributeName;
  requestOriginal : jsstring;
  requestProvider : ProviderKind
}.

(** A batch between the firing of the timer and the arrival of the list of
    translations; [batchProvider = None] when no provider is configured and
    [translateListByOptionalApi] resolves with the texts themselves. *)
Record BatchRequest := {
  batchTexts : list jsstring;
  batchProvider : option ProviderKind
}.

Record World := {
  document : Document;
  currentConfiguration : Configuration;
  translatedTextNodeWeakSet : list N;
  pendingAsyncTextsSet : list jsstring;      (* a [Set], in insertion order *)
  pendingAsyncTimer : bool;                  (* the 300 ms timer is armed *)
  attributeRequests : list AttributeRequest;
  batchRequests : list BatchRequest;
  console : list LogEntry;
  nodeValueWrites : list (N * jsstring);     (* assignments to [nodeValue] *)
  observing : bool;        (* the observer and the pjax listener are set *)
  listening : bool;        (* the keydown and message listeners are set *)
  reloadRequested : bool   (* [location.reload()] has been called *)
}.

(** [Set.prototype.add] *)
Definition setAdd (s : list jsstring) (x : jsstring) : list jsstring :=
  if memberOf s x then s else s ++ [x].

Definition weakSetHas (s : list N) (id : N) : bool := existsb (N.eqb id) s.
Definition weakSetAdd (s : list N) (id : N) : list N :=
  if weakSetHas s id then s else id :: s.

Fixpoint indexOf (l : list jsstring) (x : jsstring) : option nat :=
  match l with
  | [] => None
  | y :: r =>
      if jsstring_eqb y x then Some O else option_map S (indexOf r x)
  end.

Definition isEmpty (A : Type) (s : list A) : bool :=
  match s with [] => true | _ => false end.

(** [/[ぁ-んァ-ン一-龯]/.test(s)] *)
Definition isJapaneseChar (c : N) : bool :=
  ((12353 <=? c) && (c <=? 12435) || (12449 <=? c) && (c <=? 12531)
   || (19968 <=? c) && (c <=? 40879))%N.

Definition looksJapanese (s : jsstring) : bool := existsb isJapaneseChar s.

(** String conversion of a value assigned to [nodeValue], passed to
    [setAttribute] or placed in a template literal.  An object is converted
    by its [toString] method: [Object.prototype.toString], unless the object
    has a property [toString] of its own; a value read out of JSON is never
    callable, [valueOf] then returns the object itself, and the conversion
    throws a [TypeError].  An array joins the conversions of its items. *)
Fixpoint toString (j : Json) : JsError + jsstring :=
  match j with
  | JNull => inr (js "null")
  | JBool true => inr (js "true")
  | JBool false => inr (js "false")
  | JNumber _ text => inr text
  | JString s => inr s
  | JArray items =>
      (fix join (l : list Json) : JsError + jsstring :=
         match l with
         | [] => inr []
         | x :: r =>
             match match x with JNull => inr [] | _ => toString x end with
             | inl e => inl e
             | inr first =>
                 match r with
                 | [] => inr first
                 | _ => match join r with
                        | inl e => inl e
                        | inr rest => inr (first ++ 44%N :: rest)
                        end
                 end
             end
         end) items
  | JObject fields =>
      match lookupField fields (js "toString") with
      | Some _ => inl TypeError
      | None => inr (js "[object Object]")
      end
  end.

(** [v !== s] for a string [s] *)
Definition differsFrom (v : JsValue) (s : jsstring) : bool :=
  match v with
  | Some (JString t) => negb (jsstring_eqb t s)
  | _ => true
  end.

Definition valueToString (v : JsValue) : JsError + jsstring :=
  match v with
  | Some j => toString j
  | None => inr (js "undefined")
  end.

(** ** The content script *)
Section Engine.
Context {U : Unicode}.

(** The dictionary table [GITHUB_JA_DICTIONARY_SORTED] is declared in a file
    of its own; the script is stated for an arbitrary table. *)
Variable GITHUB_JA_DICTIONARY_SORTED : list (jsstring * jsstring).

(** [compileDictionary] memoises its result in [compiledDictionaryPatterns];
    the table is a constant, so the cached value is always the list computed
    here (see [compileDictionary_cached_ok]). *)
Definition compileDictionary : list CompiledMatcher :=
  map compileEntry GITHUB_JA_DICTIONARY_SORTED.

Definition compileDictionary_cached
    (compiledDictionaryPatterns : option (list CompiledMatcher))
  : list CompiledMatcher * option (list CompiledMatcher) :=
  match compiledDictionaryPatterns with
  | Some patterns => (patterns, compiledDictionaryPatterns)
  | None => (compileDictionary, Some compileDictionary)
  end.

Definition translateByDictionary (text : jsstring) : jsstring :=
  let patterns := compileDictionary in
  fold_left replace patterns text.

(** *** 5. Skip conditions *)
Definition shouldSkipElement (element : list Element) : bool :=
  match element with
  | [] => true
  | self :: _ =>
      if closest matchesNoTranslate element then true
      else if memberOf skippedTagNames (toLowerCase (tagName self)) then true
      else if closest matchesCodeRegion element then true
      else if closest matchesSvgOrMath element then true
      else false
  end.

(** *** 3. Text nodes *)

(** The state the loops over text nodes read and write. *)
Record Walk := {
  processed : list N;
  pending : list jsstring;
  written : list (N * jsstring)
}.

Definition acceptNode (onlyUntranslated : bool) (ancestors : list Element)
    (id : N) (value : jsstring) (s : Walk) : bool :=
  if isEmpty value then false
  else match ancestors with
       | [] => false
       | _ :: _ =>
           if shouldSkipElement ancestors then false
           else if isEmpty (trim value) then false
           else if onlyUntranslated && weakSetHas (processed s) id then false
           else true
       end.

(** [translateByOptionalApiSyncPlaceholder] *)
Definition translateByOptionalApiSyncPlaceholder (text : jsstring)
    (pendingAsyncTextsSet : list jsstring) : jsstring * list jsstring :=
  (text, setAdd pendingAsyncTextsSet text).

(** The filter and the body of the loop of [translateTextNodesIn]. *)
Definition translateTextNode (cfg : Configuration) (onlyUntranslated : bool)
    (ancestors : list Element) (id : N) (value : jsstring) (s : Walk)
  : jsstring * Walk :=
  if acceptNode onlyUntranslated ancestors id value s then
    let originalText := value in
    let translatedByDictionary := translateByDictionary originalText in
    let '(finalText, pending') :=
      if useTranslationApi cfg
         && jsstring_eqb translatedByDictionary originalText
      then translateByOptionalApiSyncPlaceholder originalText (pending s)
      else (translatedByDictionary, pending s) in
    let write :=
      negb (isEmpty finalText) && negb (jsstring_eqb finalText originalText) in
    (if write then finalText else originalText,
     {| processed := weakSetAdd (processed s) id;
        pending := pending';
        written := if write then written s ++ [(id, finalText)]
                   else written s |})
  else (value, s).

(** The filter and the body of the first loop of
    [requestAsyncTranslationForVisibleTextNodes]. *)
Definition collectVisibleText (ancestors : list Element) (id : N)
    (value : jsstring) (s : Walk) : jsstring * Walk :=
  let trimmed := trim value in
  if match ancestors with [] => true | _ => shouldSkipElement ancestors end
  then (value, s)
  else if isEmpty trimmed then (value, s)
  else if length16 trimmed <? 4 then (value, s)
  else if looksJapanese trimmed then (value, s)
  else (value,
        {| processed := processed s;
           pending := setAdd (pending s) value;
           written := written s |}).

(** The filter and the body of the loop that applies a list of
    translations.  The assignment to [nodeValue] converts the candidate to a
    string; when the conversion throws, the loop is left for the [catch] of
    the timer callback: the state carries the error, and no later node is
    looked at. *)
Definition applyTranslation (texts : list jsstring)
    (translatedList : list JsValue) (ancestors : list Element) (id : N)
    (value : jsstring) (s : Walk * option JsError)
  : jsstring * (Walk * option JsError) :=
  match snd s with
  | Some _ => (value, s)
  | None =>
      if match ancestors with [] => true | _ => shouldSkipElement ancestors end
      then (value, s)
      else if isEmpty (trim value) then (value, s)
      else
        match indexOf texts value with
        | Some i =>
            let candidate := nth i translatedList None in
            if truthy candidate && differsFrom candidate value
            then match valueToString candidate with
                 | inr text =>
                     (text,
                      ({| processed := processed (fst s);
                          pending := pending (fst s);
                          written := written (fst s) ++ [(id, text)] |},
                       None))
                 | inl e => (value, (fst s, Some e))
                 end
            else (value, s)
        | None => (value, s)
        end
  end.

Definition walkOf (w : World) : Walk :=
  {| processed := translatedTextNodeWeakSet w;
     pending := pendingAsyncTextsSet w;
     written := nodeValueWrites w |}.

(** The world after a loop over the text nodes of the body. *)
Definition afterWalk (w : World) (r : Document * Walk) (timer : bool)
  : World :=
  {| document := fst r;
     currentConfiguration := currentConfiguration w;
     translatedTextNodeWeakSet := processed (snd r);
     pendingAsyncTextsSet := pending (snd r);
     pendingAsyncTimer := timer;
     attributeRequests := attributeRequests w;
     batchRequests := batchRequests w;
     console := console w;
     nodeValueWrites := written (snd r);
     observing := observing w;
     listening := listening w;
     reloadRequested := reloadRequested w |}.

(** *** 7. The translation API *)
Definition requestAsyncTranslationForVisibleTextNodes (w : World) : World :=
  if negb (useTranslationApi (currentConfiguration w)) then w
  else afterWalk w (walkBody collectVisibleText (document w) (walkOf w)) true.

Definition translateTextNodesIn (onlyUntranslated : bool) (w : World)
  : World :=
  let cfg := currentConfiguration w in
  let w' :=
    afterWalk w
      (walkBody (translateTextNode cfg onlyUntranslated) (document w)
         (walkOf w))
      (pendingAsyncTimer w) in
  if useTranslationApi cfg
  then requestAsyncTranslationForVisibleTextNodes w'
  else w'.

(** [translateListByOptionalApi] up to its call of a provider. *)
Definition translateListByOptionalApi (cfg : Configuration)
  : option ProviderKind :=
  if negb (useTranslationApi cfg)
     || jsstring_eqb (translationProvider cfg) (js "None")
  then None
  else if isEmpty (translationApiKey cfg) then None
  else providerOf (translationProvider cfg).

(** The timer of [requestAsyncTranslationForVisibleTextNodes] fires: the
    callback up to its [await]. *)
Definition pendingTimerFires (w : World) : World :=
  let texts := firstn 50 (pendingAsyncTextsSet w) in
  {| document := document w;
     currentConfiguration := currentConfiguration w;
     translatedTextNodeWeakSet := translatedTextNodeWeakSet w;
     pendingAsyncTextsSet := [];
     pendingAsyncTimer := false;
     attributeRequests := attributeRequests w;
     batchRequests :=
       if isEmpty texts then batchRequests w
       else batchRequests w
            ++ [{| batchTexts := texts;
                   batchProvider :=
                     translateListByOptionalApi (currentConfiguration w) |}];
     console := console w;
     nodeValueWrites := nodeValueWrites w;
     observing := observing w;
     listening := listening w;
     reloadRequested := reloadRequested w |}.

Fixpoint removeNth (A : Type) (n : nat) (l : list A) : list A :=
  match l, n with
  | [], _ => []
  | _ :: r, O => r
  | x :: r, S k => x :: removeNth k r
  end.

Definition withBatchRequests (w : World) (l : list BatchRequest) : World :=
  {| document := document w;
     currentConfiguration := currentConfiguration w;
     translatedTextNodeWeakSet := translatedTextNodeWeakSet w;
     pendingAsyncTextsSet := pendingAsyncTextsSet w;
     pendingAsyncTimer := pendingAsyncTimer w;
     attributeRequests := attributeRequests w;
     batchRequests := l;
     console := console w;
     nodeValueWrites := nodeValueWrites w;
     observing := observing w;
     listening := listening w;
     reloadRequested := reloadRequested w |}.

Definition withConsole (w : World) (l : list LogEntry) : World :=
  {| document := document w;
     currentConfiguration := currentConfiguration w;
     translatedTextNodeWeakSet := translatedTextNodeWeakSet w;
     pendingAsyncTextsSet := pendingAsyncTextsSet w;
     pendingAsyncTimer := pendingAsyncTimer w;
     attributeRequests := attributeRequests w;
     batchRequests := batchRequests w;
     console := l;
     nodeValueWrites := nodeValueWrites w;
     observing := observing w;
     listening := listening w;
     reloadRequested := reloadRequested w |}.

(** The rest of the timer callback, once the list of translations is there
    or the call has thrown: the loop over the text nodes, and the [catch]
    for an error of the call or of the loop. *)
Definition applyBatchResult (w : World) (texts : list jsstring)
    (result : JsError + list JsValue) : World :=
  match result with
  | inr translatedList =>
      let r :=
        walkBody (applyTranslation texts translatedList) (document w)
          (walkOf w, None) in
      let w' := afterWalk w (fst r, fst (snd r)) (pendingAsyncTimer w) in
      match snd (snd r) with
      | None => w'
      | Some e => withConsole w' (console w' ++ [WarnBatchFailed e])
      end
  | inl e => withConsole w (console w ++ [WarnBatchFailed e])
  end.

(** The request at position [n] of the batches in flight settles. *)
Definition batchResponseArrives (n : nat) (outcome : FetchOutcome)
    (w : World) : World :=
  match nth_error (batchRequests w) n with
  | None => w
  | Some b =>
      let w' := withBatchRequests w (removeNth n (batchRequests w)) in
      applyBatchResult w' (batchTexts b)
        match batchProvider b with
        | None => inr (map (fun t => Some (JString t)) (batchTexts b))
        | Some k => callProvider k outcome
        end
  end.

(** *** 4. Attributes *)

(** The state the attribute pass writes. *)
Record Requests := {
  logged : list LogEntry;
  requested : list AttributeRequest
}.

(** [input[placeholder], textarea[placeholder], [aria-label], [title],
    button[title]] *)
Definition attributeSelector (e : Element) : bool :=
  jsstring_eqb (localName e) (js "input") && hasAttribute (js "placeholder") e
  || jsstring_eqb (localName e) (js "textarea")
     && hasAttribute (js "placeholder") e
  || hasAttribute (js "aria-label") e
  || hasAttribute (js "title") e
  || jsstring_eqb (localName e) (js "button") && hasAttribute (js "title") e.

(** [translateByOptionalApi] up to its call of a provider: either it returns
    the text at once, or a request is in flight. *)
Definition translateByOptionalApi (cfg : Configuration) (id : N)
    (a : AttributeName) (text : jsstring) (s : Requests) : Requests :=
  if negb (useTranslationApi cfg)
     || jsstring_eqb (translationProvider cfg) (js "None")
  then s
  else if isEmpty (translationApiKey cfg)
  then {| logged := logged s ++ [WarnMissingApiKey];
          requested := requested s |}
  else
    match providerOf (translationProvider cfg) with
    | Some k =>
        {| logged := logged s;
           requested :=
             requested s
             ++ [{| requestElement := id;
                    requestAttribute := a;
                    requestOriginal := text;
                    requestProvider := k |}] |}
    | None => s
    end.

Definition translateAttribute (cfg : Configuration)
    (es : Element * Requests) (a : AttributeName) : Element * Requests :=
  let '(element, s) := es in
  match getAttribute (attributes element) (attributeNameString a) with
  | None => es
  | Some original =>
      if isEmpty original then es
      else
        let translated := translateByDictionary original in
        if negb (jsstring_eqb translated original)
        then (setAttribute element (attributeNameString a) translated, s)
        else if useTranslationApi cfg
        then (element,
              translateByOptionalApi cfg (elementId element) a original s)
        else es
  end.

Definition translateElementAttributes (cfg : Configuration)
    (ancestors : list Element) (element : Element) (s : Requests)
  : Element * Requests :=
  if attributeSelector element then
    if shouldSkipElement (element :: ancestors) then (element, s)
    else fold_left (translateAttribute cfg) attributesToTranslate (element, s)
  else (element, s).

Definition withDocument (w : World) (d : Document) : World :=
  {| document := d;
     currentConfiguration := currentConfiguration w;
     translatedTextNodeWeakSet := translatedTextNodeWeakSet w;
     pendingAsyncTextsSet := pendingAsyncTextsSet w;
     pendingAsyncTimer := pendingAsyncTimer w;
     attributeRequests := attributeRequests w;
     batchRequests := batchRequests w;
     console := console w;
     nodeValueWrites := nodeValueWrites w;
     observing := observing w;
     listening := listening w;
     reloadRequested := reloadRequested w |}.

Definition withAttributeRequests (w : World) (l : list AttributeRequest)
  : World :=
  {| document := document w;
     currentConfiguration := currentConfiguration w;
     translatedTextNodeWeakSet := translatedTextNodeWeakSet w;
     pendingAsyncTextsSet := pendingAsyncTextsSet w;
     pendingAsyncTimer := pendingAsyncTimer w;
     attributeRequests := l;
     batchRequests := batchRequests w;
     console := console w;
     nodeValueWrites := nodeValueWrites w;
     observing := observing w;
     listening := listening w;
     reloadRequested := reloadRequested w |}.

Definition translateAttributesForInteractiveElements (w : World) : World :=
  let r :=
    mapDocument (translateElementAttributes (currentConfiguration w))
      (document w)
      {| logged := console w; requested := attributeRequests w |} in
  withAttributeRequests
    (withConsole (withDocument w (fst r)) (logged (snd r)))
    (requested (snd r)).

(** A callback that rewrites elements one by one and keeps no state. *)
Definition mapEach (f : Element -> Element) (_ : list Element) (e : Element)
    (s : unit) : Element * unit := (f e, s).

(** [element.setAttribute(name, value)] on the element a callback holds. *)
Definition setAttributeOf (id : N) (name value : jsstring)
    (d : Document) : Document :=
  fst (mapDocument
         (mapEach (fun e => if (elementId e =? id)%N
                            then setAttribute e name value else e))
         d tt).

(** The rest of [translateByOptionalApi] once the [fetch] of provider [k]
    has settled: the value the promise resolves with, and what is logged. *)
Definition translateByOptionalApi_settled (text : jsstring)
    (k : ProviderKind) (outcome : FetchOutcome) : JsValue * list LogEntry :=
  match callProvider k outcome with
  | inr list => (orElse (nth 0 list None) (Some (JString text)), [])
  | inl e => (Some (JString text), [WarnApiError e])
  end.

(** The request at position [n] of the attribute requests in flight
    settles: the rest of [translateByOptionalApi] and the callback passed to
    [then]. *)
Definition attributeResponseArrives (n : nat) (outcome : FetchOutcome)
    (w : World) : World :=
  match nth_error (attributeRequests w) n with
  | None => w
  | Some r =>
      let original := requestOriginal r in
      let w1 := withAttributeRequests w (removeNth n (attributeRequests w)) in
      let '(text, logs) :=
        translateByOptionalApi_settled original (requestProvider r) outcome in
      let w2 := withConsole w1 (console w1 ++ logs) in
      if truthy text && differsFrom text original
      then match valueToString text with
           | inr value =>
               withDocument w2
                 (setAttributeOf (requestElement r)
                    (attributeNameString (requestAttribute r))
                    value (document w2))
           | inl _ => w2      (* [setAttribute] throws, [catch] ignores it *)
           end
      else w2
  end.

(** *** 2. Observation *)
Definition translateEntireDocumentNow (w : World) : World :=
  translateAttributesForInteractiveElements (translateTextNodesIn false w).

Definition translateNewOrChangedNodes (w : World) : World :=
  translateTextNodesIn true w.

(** The debounced callback of the [MutationObserver]. *)
Definition observerCallback (w : World) : World :=
  if negb (isEnabledOnGithub (currentConfiguration w)) then w
  else translateAttributesForInteractiveElements
         (translateNewOrChangedNodes w).

Definition withObserving (w : World) : World :=
  {| document := document w;
     currentConfiguration := currentConfiguration w;
     translatedTextNodeWeakSet := translatedTextNodeWeakSet w;
     pendingAsyncTextsSet := pendingAsyncTextsSet w;
     pendingAsyncTimer := pendingAsyncTimer w;
     attributeRequests := attributeRequests w;
     batchRequests := batchRequests w;
     console := console w;
     nodeValueWrites := nodeValueWrites w;
     observing := true;
     listening := listening w;
     reloadRequested := reloadRequested w |}.

Definition startObservingAndTranslating (w : World) : World :=
  withObserving (translateEntireDocumentNow w).

(** *** 1. Initialisation *)
Definition withLang (d : Document) : Document :=
  {| documentElement := setAttribute (documentElement d) (js "lang") (js "ja");
     headNodes := headNodes d;
     body := body d;
     bodyNodes := bodyNodes d;
     tailNodes := tailNodes d |}.

(** The script as it is loaded into a page. *)
Definition loaded (d : Document) : World :=
  {| document := d;
     currentConfiguration := defaultConfiguration;
     translatedTextNodeWeakSet := [];
     pendingAsyncTextsSet := [];
     pendingAsyncTimer := false;
     attributeRequests := [];
     batchRequests := [];
     console := [];
     nodeValueWrites := [];
     observing := false;
     listening := false;
     reloadRequested := false |}.

Definition withConfiguration (w : World) (cfg : Configuration)
    (listen reload : bool) : World :=
  {| document := document w;
     currentConfiguration := cfg;
     translatedTextNodeWeakSet := translatedTextNodeWeakSet w;
     pendingAsyncTextsSet := pendingAsyncTextsSet w;
     pendingAsyncTimer := pendingAsyncTimer w;
     attributeRequests := attributeRequests w;
     batchRequests := batchRequests w;
     console := console w;
     nodeValueWrites := nodeValueWrites w;
     observing := observing w;
     listening := listen;
     reloadRequested := reload |}.

(** [stored] is what [chrome.storage.sync.get(defaultConfiguration)] resolves
    with, or [None] when it rejects. *)
Definition initializeJapaneseTranslator (d : Document)
    (stored : option Configuration) : World :=
  let w := loaded (withLang d) in
  match stored with
  | None => withConsole w (console w ++ [ErrorInitFailed])
  | Some cfg =>
      let w1 := withConfiguration w cfg false false in
      if negb (isEnabledOnGithub cfg) then w1
      else
        let w2 := startObservingAndTranslating w1 in
        withConfiguration w2 (currentConfiguration w2) true
          (reloadRequested w2)
  end.

(** The handlers of Alt+J and of the message [github-ja-set-enabled]. *)
Definition setEnabled (value : bool) (w : World) : World :=
  let cfg := currentConfiguration w in
  let cfg' :=
    {| isEnabledOnGithub := value;
       useTranslationApi := useTranslationApi cfg;
       translationProvider := translationProvider cfg;
       translationApiKey := translationApiKey cfg;
       translationRegion := translationRegion cfg;
       translationAggressiveness := translationAggressiveness cfg |} in
  if value
  then translateEntireDocumentNow
         (withConfiguration w cfg' (listening w) (reloadRequested w))
  else withConfiguration w cfg' (listening w) true.

Definition toggleEnabled (w : World) : World :=
  setEnabled (negb (isEnabledOnGithub (currentConfiguration w))) w.

End Engine.

(** ** Vocabulary of the properties *)
Section Vocabulary.
Context {U : Unicode}.

(** [english] is a prefix of [rest] up to case folding. *)
Fixpoint foldedPrefix (english rest : jsstring) : bool :=
  match english, rest with
  | [], _ => true
  | c :: english', d :: rest' =>
      (canonicalize c =? canonicalize d)%N && foldedPrefix english' rest'
  | _ :: _, [] => false
  end.

(** [english] occurs somewhere in [text] up to case folding. *)
Fixpoint containsFolded (english text : jsstring) : bool :=
  foldedPrefix english text
  || match text with
     | [] => false
     | _ :: text' => containsFolded english text'
     end.

Definition foldEqual (a b : jsstring) : Prop :=
  Forall2 (fun x y => canonicalize x = canonicalize y) a b.

(** The first position at which a matcher fires, as [RegExp.prototype.exec]
    finds it. *)
Fixpoint searchFrom (m : CompiledMatcher) (before rest : jsstring)
  : option nat :=
  match matchTerms (pattern m) before rest with
  | Some _ => Some O
  | None =>
      match rest with
      | [] => None
      | c :: rest' => option_map S (searchFrom m (c :: before) rest')
      end
  end.

Definition search (m : CompiledMatcher) (text : jsstring) : option nat :=
  searchFrom m [] text.

(** No source phrase of the table occurs in the text, up to case folding. *)
Definition noSourcePhraseIn (dict : list (jsstring * jsstring))
    (text : jsstring) : bool :=
  forallb (fun entry => negb (containsFolded (fst entry) text)) dict.

(** The first code point of the phrase does not recur in it, up to case
    folding: two occurrences of the phrase cannot overlap. *)
Definition firstFoldUnique (english : jsstring) : bool :=
  match english with
  | [] => false
  | c :: r => forallb (fun d => negb (canonicalize d =? canonicalize c)%N) r
  end.

(** No code point of [block] folds to the same code point as one of
    [english]. *)
Definition foldDisjoint (block english : jsstring) : bool :=
  forallb
    (fun x => forallb (fun c => negb (canonicalize c =? canonicalize x)%N)
                english)
    block.

Definition noReference (repl : jsstring) : bool :=
  forallb (fun c => negb (c =? 36)%N) repl.

(** ** The pass as the specification words it

    Every code point carries a mark telling whether an earlier matcher of the
    same pass has written it; a matcher fires only on a span of unmarked code
    points, and what it writes is marked. *)
Definition Marked := list (N * bool).

Definition unmarked (span : Marked) : bool :=
  forallb (fun c => negb (snd c)) span.

Fixpoint replaceMarkedFrom (m : CompiledMatcher) (before : jsstring)
    (rest : Marked) (skip : nat) {struct rest} : Marked :=
  match skip with
  | S k =>
      match rest with
      | [] => []
      | c :: rest' => replaceMarkedFrom m (fst c :: before) rest' k
      end
  | O =>
      match
        match matchTerms (pattern m) before (map fst rest) with
        | Some n => if unmarked (firstn n rest) then Some n else None
        | None => None
        end
      with
      | Some n =>
          map (fun c => (c, true))
            (getSubstitution (replacement m) (map fst (firstn n rest))
               (rev before) (map fst (skipn n rest)))
          ++ match rest with
             | [] => []
             | c :: rest' =>
                 match n with
                 | O => c :: replaceMarkedFrom m (fst c :: before) rest' 0
                 | S k => replaceMarkedFrom m (fst c :: before) rest' k
                 end
             end
      | None =>
          match rest with
          | [] => []
          | c :: rest' => c :: replaceMarkedFrom m (fst c :: before) rest' 0
          end
      end
  end.

Definition replaceMarked (text : Marked) (m : CompiledMatcher) : Marked :=
  replaceMarkedFrom m [] text 0.

Definition dictionaryPass_spec (dict : list (jsstring * jsstring))
    (text : jsstring) : jsstring :=
  map fst
    (fold_left replaceMarked (map compileEntry dict)
       (map (fun c => (c, false)) text)).
End Vocabulary.

(** [String.prototype.includes] *)
Fixpoint includes (text part : jsstring) : bool :=
  startsWith part text
  || match text with
     | [] => false
     | _ :: text' => includes text' part
     end.

(** ** Text nodes in document order *)

(** A text node as the filters see it: its ancestors (parent first), its
    identity and its value. *)
Definition TextItem : Type := list Element * N * jsstring.

Fixpoint textsOfNode (ancestors : list Element) (n : Node) : list TextItem :=
  match n with
  | TextNode id value => [(ancestors, id, value)]
  | ElementNode e children =>
      (fix textsOfList (l : list Node) : list TextItem :=
         match l with
         | [] => []
         | c :: r => textsOfNode (e :: ancestors) c ++ textsOfList r
         end) children
  end.

Fixpoint textsOfNodes (ancestors : list Element) (l : list Node)
  : list TextItem :=
  match l with
  | [] => []
  | c :: r => textsOfNode ancestors c ++ textsOfNodes ancestors r
  end.

(** The text nodes a [TreeWalker] rooted at [document.body] passes over. *)
Definition bodyTexts (d : Document) : list TextItem :=
  textsOfNodes [body d; documentElement d] (bodyNodes d).

(** The loop of a walker, on the text nodes in document order. *)
Section VisitAll.
Variable State : Type.
Variable visit : list Element -> N -> jsstring -> State -> jsstring * State.

Fixpoint visitAll (texts : list TextItem) (s : State)
  : list TextItem * State :=
  match texts with
  | [] => ([], s)
  | (ancestors, id, value) :: r =>
      let '(value', s1) := visit ancestors id value s in
      let '(r', s2) := visitAll r s1 in
      ((ancestors, id, value') :: r', s2)
  end.
End VisitAll.

(** What [shouldSkipElement] reads of an element. *)
Definition skipKey (e : Element)
  : option jsstring * jsstring * bool * bool * option jsstring :=
  (prefix e, localName e, inHTMLNamespace e, matchesNoTranslate e,
   getAttribute (attributes e) (js "class")).

(** ** Events

    Everything the script does after it has been loaded happens in a
    callback: of the observer, of a listener, of a timer, or of a request.
    The page changes the document between callbacks. *)
Inductive Event :=
| ObserverFires                 (* the debounced [MutationObserver] callback *)
| PjaxEnd                       (* [pjax:end], 150 ms later *)
| AltJ                          (* the keyboard shortcut *)
| MessageTranslateNow
| MessageSetEnabled (value : bool)
| PendingTimerFires
| BatchResponse (n : nat) (outcome : FetchOutcome)
| AttributeResponse (n : nat) (outcome : FetchOutcome)
| PageMutation (d : Document).  (* the page or the user edits the document *)

Definition isEngineEvent (e : Event) : bool :=
  match e with
  | PageMutation _ => false
  | _ => true
  end.

(** The callback of the event is registered. *)
Definition enabledEvent (w : World) (e : Event) : bool :=
  match e with
  | ObserverFires | PjaxEnd => observing w
  | AltJ | MessageTranslateNow | MessageSetEnabled _ => listening w
  | PendingTimerFires => pendingAsyncTimer w
  | BatchResponse n _ => n <? List.length (batchRequests w)
  | AttributeResponse n _ => n <? List.length (attributeRequests w)
  | PageMutation _ => true
  end.

Section Events.
Context {U : Unicode}.
Variable GITHUB_JA_DICTIONARY_SORTED : list (jsstring * jsstring).

Definition handle (e : Event) (w : World) : World :=
  match e with
  | ObserverFires => observerCallback GITHUB_JA_DICTIONARY_SORTED w
  | PjaxEnd => translateEntireDocumentNow GITHUB_JA_DICTIONARY_SORTED w
  | AltJ => toggleEnabled GITHUB_JA_DICTIONARY_SORTED w
  | MessageTranslateNow =>
      translateEntireDocumentNow GITHUB_JA_DICTIONARY_SORTED w
  | MessageSetEnabled value => setEnabled GITHUB_JA_DICTIONARY_SORTED value w
  | PendingTimerFires => pendingTimerFires w
  | BatchResponse n outcome => batchResponseArrives n outcome w
  | AttributeResponse n outcome => attributeResponseArrives n outcome w
  | PageMutation d => withDocument w d
  end.

Definition step (w : World) (e : Event) : World :=
  if enabledEvent w e then handle e w else w.

Definition run (events : list Event) (w : World) : World :=
  fold_left step events w.

(** The text nodes of the body whose parent [shouldSkipElement] rejects,
    with their values. *)
Definition ineligibleTexts (d : Document) : list (N * jsstring) :=
  map (fun t : TextItem => (snd (fst t), snd t))
    (filter (fun t : TextItem => shouldSkipElement (fst (fst t)))
       (bodyTexts d)).

(** A text node passes the filter of [translateTextNodesIn], the processed
    set left aside. *)
Definition translatable (t : TextItem) : bool :=
  let '(ancestors, _, value) := t in
  negb (isEmpty value)
  && negb (isEmpty ancestors)
  && negb (shouldSkipElement ancestors)
  && negb (isEmpty (trim value)).

(** A text node passes the filter of the first loop of
    [requestAsyncTranslationForVisibleTextNodes]. *)
Definition collectable (t : TextItem) : bool :=
  let '(ancestors, _, value) := t in
  negb (isEmpty ancestors)
  && negb (shouldSkipElement ancestors)
  && negb (isEmpty (trim value))
  && negb (length16 (trim value) <? 4)
  && negb (looksJapanese (trim value)).

(** What the loop of the reconciliation leaves in a node that it reaches:
    the string conversion of the candidate, if there is one to assign and
    it can be converted. *)
Definition reconciled (texts : list jsstring) (translatedList : list JsValue)
    (anc : list Element) (v : jsstring) : jsstring :=
  if match anc with [] => true | _ => shouldSkipElement anc end then v
  else if isEmpty (trim v) then v
  else
    match indexOf texts v with
    | Some i =>
        let candidate := nth i translatedList None in
        if truthy candidate && differsFrom candidate v
        then match valueToString candidate with
             | inr text => text
             | inl _ => v
             end
        else v
    | None => v
    end.

Definition itemId (t : TextItem) : N := snd (fst t).

(** [translateTextNodesIn] up to its call of
    [requestAsyncTranslationForVisibleTextNodes]. *)
Definition walked (onlyUntranslated : bool) (w : World) : World :=
  afterWalk w
    (walkBody
       (translateTextNode GITHUB_JA_DICTIONARY_SORTED (currentConfiguration w)
          onlyUntranslated)
       (document w) (walkOf w))
    (pendingAsyncTimer w).
End Events.

(** Every batch in flight holds at most 50 strings, each once. *)
Definition validBatches (w : World) : Prop :=
  forall b, In b (batchRequests w) ->
    NoDup (batchTexts b) /\ List.length (batchTexts b) <= 50.

(** ** Elements in document order *)
Fixpoint elementsOfNode (n : Node) : list Element :=
  match n with
  | TextNode _ _ => []
  | ElementNode e children =>
      e :: (fix elementsOfList (l : list Node) : list Element :=
              match l with
              | [] => []
              | c :: r => elementsOfNode c ++ elementsOfList r
              end) children
  end.

Fixpoint elementsOfNodes (l : list Node) : list Element :=
  match l with
  | [] => []
  | c :: r => elementsOfNode c ++ elementsOfNodes r
  end.

Definition elementsOf (d : Document) : list Element :=
  documentElement d :: elementsOfNodes (headNodes d)
  ++ body d :: elementsOfNodes (bodyNodes d)
  ++ elementsOfNodes (tailNodes d).

(** Two text nodes that the eligibility filter cannot tell apart and that
    hold the same value. *)
Definition sameItem (t t' : TextItem) : Prop :=
  map skipKey (fst (fst t)) = map skipKey (fst (fst t'))
  /\ snd (fst t) = snd (fst t')
  /\ snd t = snd t'.

(** ** Scenarios *)

Definition pullRequestTable : list (jsstring * jsstring) :=
  [(js "Pull Request", js "プルリク"); (js "Request", js "リクエスト")].

Definition htmlElement (id : N) (name : jsstring)
    (attrs : list (jsstring * jsstring)) : Element :=
  {| elementId := id;
     prefix := None;
     localName := name;
     inHTMLNamespace := true;
     attributes := attrs |}.

(** [<html><head></head><body>nodes</body></html>] *)
Definition page (nodes : list Node) : Document :=
  {| documentElement := htmlElement 1 (js "html") [];
     headNodes := [ElementNode (htmlElement 2 (js "head") []) []];
     body := htmlElement 3 (js "body") [];
     bodyNodes := nodes;
     tailNodes := [] |}.

(** An element [<name>text</name>]; the text node takes the next identity. *)
Definition textElement (id : N) (name text : jsstring) : Node :=
  ElementNode (htmlElement id name []) [TextNode (id + 1) text].

(** The extension enabled and [useTranslationApi] set, with a provider and a
    key. *)
Definition deepLConfiguration : Configuration :=
  {| isEnabledOnGithub := true;
     useTranslationApi := true;
     translationProvider := js "DeepL";
     translationApiKey := js "key";
     translationRegion := [];
     translationAggressiveness := js "balanced" |}.

(** [<p>Issues</p><pre>Issues</pre>] *)
Definition issuesPage : Document :=
  page [textElement 10 (js "p") (js "Issues");
        textElement 12 (js "pre") (js "Issues")].

(** [<pre><code>const x = 1;</code></pre><p>Issue</p>] *)
Definition codePage : Document :=
  page [ElementNode (htmlElement 10 (js "pre") [])
          [textElement 11 (js "code") (js "const x = 1;")];
        textElement 13 (js "p") (js "Issue")].

(** Five fragments that read [Open]. *)
Definition openPage : Document :=
  page (map (fun n => textElement (N.of_nat (10 + 2 * n)) (js "span")
                        (js "Open"))
          (seq 0 5)).

Definition numberedItem (n : nat) : jsstring :=
  js "item " ++ [N.of_nat (48 + n / 10); N.of_nat (48 + n mod 10)].

(** Fifty paragraphs [item 00] to [item 49], then [<p>Hi</p>]. *)
Definition longPage : Document :=
  page (map (fun n => textElement (N.of_nat (10 + 2 * n)) (js "p")
                        (numberedItem n))
          (seq 0 50)
        ++ [textElement 200 (js "p") (js "Hi")]).

(** [<button title="Open">x</button>], and the page after its script has
    changed the title. *)
Definition buttonPage (title : jsstring) : Document :=
  page [ElementNode (htmlElement 10 (js "button") [(js "title", title)])
          [TextNode 11 (js "x")]].

(** [<p>Open now</p><p>Close now</p>], and the page after the first
    paragraph has been removed and the second edited. *)
Definition twoParagraphs : Document :=
  page [textElement 10 (js "p") (js "Open now");
        textElement 12 (js "p") (js "Close now")].

Definition editedParagraphs : Document :=
  page [textElement 12 (js "p") (js "Closed now")].

(** The body of a DeepL response carrying the given translations. *)
Definition deepLPayload (translations : list jsstring) : Json :=
  JObject
    [(js "translations",
      JArray (map (fun t => JObject [(js "text", JString t)]) translations))].

(** The value of an attribute of the element with the given identity. *)
Definition attributeOf (id : N) (name : jsstring) (d : Document)
  : option jsstring :=
  match find (fun e => (elementId e =? id)%N) (elementsOf d) with
  | Some e => getAttribute (attributes e) name
  | None => None
  end.

(** The stale response: [Open now] and [Close now] are sent; before the
    translations arrive the first paragraph is removed and the second is
    edited.  The response changes nothing. *)
Definition staleWorld : World :=
  @run basicUnicode []
    [PendingTimerFires; PageMutation editedParagraphs]
    (@initializeJapaneseTranslator basicUnicode [] twoParagraphs
       (Some deepLConfiguration)).

(** The page with five [Open], the page with fifty-one paragraphs and the
    page with the button, each loaded with remote translation switched on
    and an empty table. *)
Definition openWorld : World :=
  @initializeJapaneseTranslator basicUnicode [] openPage
    (Some deepLConfiguration).

Definition longWorld : World :=
  @initializeJapaneseTranslator basicUnicode [] longPage
    (Some deepLConfiguration).

Definition buttonWorld : World :=
  @initializeJapaneseTranslator basicUnicode [] (buttonPage (js "Open"))
    (Some deepLConfiguration).

(** ** The message listener of the content script *)

(** What the listener passes to [sendResponse]. *)
Inductive Reply :=
| ReplyOk                                    (* [{ ok: true }] *)
| ReplyConfiguration (cfg : Configuration).  (* [{ configuration: ... }] *)

(** What one call of the listener leaves behind: the state of the script, the
    value written under [isEnabledOnGithub] in [chrome.storage.sync], the
    answer passed to [sendResponse] before the listener returns, and the
    value the listener returns or the error it throws. *)
Record Delivery := {
  deliveredWorld : World;
  storedEnabled : option bool;
  reply : option Reply;
  completion : JsError + JsValue
}.

(** [message && message.type === name] *)
Definition hasType (message : JsValue) (name : jsstring) : bool :=
  truthy message
  && match getProperty message (js "type") with
     | inr (Some (JString s)) => jsstring_eqb s name
     | _ => false
     end.

Section Listener.
Context {U : Unicode}.
Variable GITHUB_JA_DICTIONARY_SORTED : list (jsstring * jsstring).

(** [translateEntireDocumentNow] has no [return]: the call yields
    [undefined], and reading [then] from it throws after the document has
    been translated.  ([sendResponse] would be called only later, by the
    callback passed to [then].) *)
Definition onMessage (message : JsValue) (w : World) : Delivery :=
  if hasType message (js "github-ja-translate-now") then
    let w' := translateEntireDocumentNow GITHUB_JA_DICTIONARY_SORTED w in
    let returned : JsValue := None in
    {| deliveredWorld := w';
       storedEnabled := None;
       reply := None;
       completion :=
         _ <- getProperty returned (js "then") ;; inr (Some (JBool true)) |}
  else if hasType message (js "github-ja-get-status") then
    {| deliveredWorld := w;
       storedEnabled := None;
       reply := Some (ReplyConfiguration (currentConfiguration w));
       completion := inr (Some (JBool true)) |}
  else if hasType message (js "github-ja-set-enabled") then
    let value := truthy (getPropertyOptional message (js "value")) in
    {| deliveredWorld := setEnabled GITHUB_JA_DICTIONARY_SORTED value w;
       storedEnabled := Some value;
       reply := Some ReplyOk;
       completion := inr (Some (JBool true)) |}
  else
    {| deliveredWorld := w;
       storedEnabled := None;
       reply := None;
       completion := inr None |}.
End Listener.

(** ** The popup *)

Record Tab := {
  tabId : N;
  tabUrl : option jsstring
}.

(** The constructs of the pattern the popup tests the address with. *)
Inductive Regex :=
| Chars (s : jsstring)       (* a run of pattern characters *)
| Optional (r : Regex)       (* [(r)?], greedy *)
| Then (a b : Regex).

(** The ways [r] matches at the start of [s], in the order the backtracking
    matcher tries them, each given by what is left of [s]. *)
Fixpoint matchesAt (r : Regex) (s : jsstring) : list jsstring :=
  match r with
  | Chars p => if startsWith p s then [skipn (List.length p) s] else []
  | Optional r' => matchesAt r' s ++ [s]
  | Then a b => flat_map (matchesAt b) (matchesAt a s)
  end.

(** [RegExp.prototype.test] for a pattern without flags: a match starting
    at some position. *)
Fixpoint test (r : Regex) (s : jsstring) : bool :=
  negb (isEmpty (matchesAt r s))
  || match s with
     | [] => false
     | _ :: s' => test r s'
     end.

(** [/https:\/\/(gist\.)?github\.com/] *)
Definition githubAddress : Regex :=
  Then (Chars (js "https://"))
    (Then (Optional (Chars (js "gist."))) (Chars (js "github.com"))).

(** [tab && /https:\/\/(gist\.)?github\.com/.test(tab.url || "")] *)
Definition isGithubTab (tab : option Tab) : bool :=
  match tab with
  | Some t =>
      test githubAddress
        match tabUrl t with
        | Some u => u
        | None => []
        end
  | None => false
  end.

Definition setEnabledMessage (value : bool) : Json :=
  JObject [(js "type", JString (js "github-ja-set-enabled"));
           (js "value", JBool value)].

Definition translateNowMessage : Json :=
  JObject [(js "type", JString (js "github-ja-translate-now"))].

(** What a handler of the popup does: the value it passes to
    [chrome.storage.sync.set] under [isEnabledOnGithub], and the message it
    sends to a tab. *)
Record PopupEffect := {
  storageWrite : option bool;
  sentMessage : option (N * Json)
}.

(** The [change] handler of the checkbox.  [tabs] is what
    [chrome.tabs.query] resolves with; [writeResolves] tells whether the
    promise of [chrome.storage.sync.set] resolves; the checkbox is read once
    for the write and once more for the message. *)
Definition onToggleChange (tabs : list Tab) (writeResolves : bool)
    (checkedAtWrite checkedAtSend : bool) : PopupEffect :=
  let tab := hd_error tabs in
  {| storageWrite := Some checkedAtWrite;
     sentMessage :=
       if writeResolves && isGithubTab tab
       then option_map (fun t => (tabId t, setEnabledMessage checkedAtSend))
              tab
       else None |}.

(** The [click] handler of the button. *)
Definition onTranslateNowClick (tabs : list Tab) : PopupEffect :=
  let tab := hd_error tabs in
  {| storageWrite := None;
     sentMessage :=
       if isGithubTab tab
       then option_map (fun t => (tabId t, translateNowMessage)) tab
       else None |}.

(** ** [debounce] *)

Section Debounce.
Variable Args : Type.

(** The timers the closure has set and that have neither fired nor been
    cleared, and the identifier the next timer gets. *)
Record Timers := {
  activeTimers : list (nat * Args);
  nextTimerId : nat
}.

Definition setTimeout (args : Args) (t : Timers) : nat * Timers :=
  (nextTimerId t,
   {| activeTimers := activeTimers t ++ [(nextTimerId t, args)];
      nextTimerId := S (nextTimerId t) |}).

(** [clearTimeout(timer)]: nothing happens for [null] and for a timer that
    is not active. *)
Definition clearTimeout (timer : option nat) (t : Timers) : Timers :=
  match timer with
  | None => t
  | Some id =>
      {| activeTimers :=
           filter (fun p => negb (fst p =? id)) (activeTimers t);
         nextTimerId := nextTimerId t |}
  end.

(** The closure [debounce] returns: its variable [timer], the timers, and
    the arguments [fn] has been applied to so far. *)
Record Debounced := {
  timer : option nat;
  timers : Timers;
  applied : list Args
}.

Definition debounce (firstId : nat) : Debounced :=
  {| timer := None;
     timers := {| activeTimers := []; nextTimerId := firstId |};
     applied := [] |}.

(** A call of the closure. *)
Definition invoke (args : Args) (d : Debounced) : Debounced :=
  let t1 := clearTimeout (timer d) (timers d) in
  let '(id, t2) := setTimeout args t1 in
  {| timer := Some id; timers := t2; applied := applied d |}.

(** The timer [id] fires, if it is active. *)
Definition timerFires (id : nat) (d : Debounced) : Debounced :=
  match find (fun p => fst p =? id) (activeTimers (timers d)) with
  | Some (_, args) =>
      {| timer := timer d;
         timers := clearTimeout (Some id) (timers d);
         applied := applied d ++ [args] |}
  | None => d
  end.

Inductive DebounceEvent :=
| Invoke (args : Args)
| TimerFires (id : nat).

Definition debounceStep (d : Debounced) (e : DebounceEvent) : Debounced :=
  match e with
  | Invoke args => invoke args d
  | TimerFires id => timerFires id d
  end.

Definition debounceRun (events : list DebounceEvent) (d : Debounced)
  : Debounced :=
  fold_left debounceStep events d.

(** At most one timer is active, and it is the one [timer] names. *)
Definition oneTimer (d : Debounced) : Prop :=
  activeTimers (timers d) = []
  \/ exists id a, timer d = Some id /\ activeTimers (timers d) = [(id, a)].

Definition isInvoke (e : DebounceEvent) : bool :=
  match e with
  | Invoke _ => true
  | TimerFires _ => false
  end.
End Debounce.
Arguments debounce {Args} firstId.
Arguments TimerFires {Args} id.

(** ** The requests to the providers *)

Inductive Body :=
| FormBody (params : list (jsstring * jsstring))   (* [URLSearchParams] *)
| JsonBody (value : Json).                         (* [JSON.stringify(value)] *)

Record HttpRequest := {
  endpoint : jsstring;
  httpMethod : jsstring;
  headers : list (jsstring * jsstring);
  payload : Body
}.

(** [apiKey.replace(/^free:/, "")] *)
Definition replaceLeadingFree (apiKey : jsstring) : jsstring :=
  if startsWith (js "free:") apiKey
  then skipn (List.length (js "free:")) apiKey
  else apiKey.

Definition deepLEndpoint (apiKey : jsstring) : jsstring :=
  if startsWith (js "free:") apiKey
  then js "https://api-free.deepl.com/v2/translate"
  else js "https://api.deepl.com/v2/translate".

Definition deepLRealKey (apiKey : jsstring) : jsstring :=
  if startsWith (js "free:") apiKey then replaceLeadingFree apiKey
  else apiKey.

Definition azureEndpoint : jsstring :=
  js "https://api.cognitive.microsofttranslator.com/translate?api-version=3.0&to=ja".

Definition googleEndpointPrefix : jsstring :=
  js "https://translation.googleapis.com/language/translate/v2?key=".

Section Requests.
(** [encodeURIComponent] belongs to the host; [None] stands for the
    [URIError] it throws on an unpaired surrogate. *)
Variable encodeURIComponent : jsstring -> option jsstring.

(** The request [translateWithDeepL] passes to [fetch]. *)
Definition deepLRequest (cfg : Configuration) (textList : list jsstring)
  : HttpRequest :=
  let apiKey := trim (translationApiKey cfg) in
  {| endpoint := deepLEndpoint apiKey;
     httpMethod := js "POST";
     headers :=
       [(js "Authorization", js "DeepL-Auth-Key " ++ deepLRealKey apiKey);
        (js "Content-Type", js "application/x-www-form-urlencoded")];
     payload :=
       FormBody (map (fun t => (js "text", t)) textList
                 ++ [(js "target_lang", js "JA")]) |}.

(** The request [translateWithGoogle] passes to [fetch], unless the key
    cannot be encoded. *)
Definition googleRequest (cfg : Configuration) (textList : list jsstring)
  : option HttpRequest :=
  let apiKey := trim (translationApiKey cfg) in
  match encodeURIComponent apiKey with
  | None => None
  | Some encoded =>
      Some {| endpoint := googleEndpointPrefix ++ encoded;
              httpMethod := js "POST";
              headers := [(js "Content-Type", js "application/json")];
              payload :=
                JsonBody
                  (JObject [(js "q", JArray (map JString textList));
                            (js "target", JString (js "ja"));
                            (js "format", JString (js "text"))]) |}
  end.

(** The request [translateWithAzure] passes to [fetch]. *)
Definition azureRequest (cfg : Configuration) (textList : list jsstring)
  : HttpRequest :=
  let apiKey := trim (translationApiKey cfg) in
  let region := trim (translationRegion cfg) in
  {| endpoint := azureEndpoint;
     httpMethod := js "POST";
     headers :=
       [(js "Ocp-Apim-Subscription-Key", apiKey)]
       ++ (if isEmpty region then []
           else [(js "Ocp-Apim-Subscription-Region", region)])
       ++ [(js "Content-Type", js "application/json")];
     payload :=
       JsonBody
         (JArray (map (fun t => JObject [(js "Text", JString t)])
                    textList)) |}.

Definition requestOf (k : ProviderKind) (cfg : Configuration)
    (textList : list jsstring) : option HttpRequest :=
  match k with
  | DeepL => Some (deepLRequest cfg textList)
  | Google => googleRequest cfg textList
  | Azure => Some (azureRequest cfg textList)
  end.

(** ** The options page: [testTranslation] *)

(** What [catch (e)] of [testTranslation] receives. *)
Inductive TestError :=
| TestFetchFailed               (* [fetch] rejects *)
| TestSyntaxError               (* [res.json()] rejects *)
| TestStatusError (data : Json) (* [new Error(JSON.stringify(data))] *)
| TestTypeError                 (* a property of [null] is read, or a
                                   value has no string conversion *)
| TestURIError.                 (* [encodeURIComponent] throws *)

(** The text of the status line; a failure reads [失敗: ] followed by the
    string conversion of the error. *)
Inductive StatusText :=
| Text (s : jsstring)
| FailureText (e : TestError).

Record Status := {
  textContent : StatusText;
  color : jsstring
}.

Definition showStatus (message : StatusText) (isError : bool) : Status :=
  {| textContent := message;
     color := if isError then js "#ff9999" else js "#8b949e" |}.

Definition sample : jsstring := js "Hello, this is a translation test.".

(** [testTranslation] up to its [await fetch]: either it is done, or the
    status line reads [テスト中...] and a request to provider [k] is in
    flight. *)
Inductive TestStep :=
| Done (s : Status)
| Fetching (k : ProviderKind) (r : HttpRequest).

Definition testTranslation (stored : Configuration) : TestStep :=
  if negb (useTranslationApi stored)
     || jsstring_eqb (translationProvider stored) (js "None")
  then Done (showStatus
               (Text (js "翻訳 API は無効です。まず有効化してください。")) true)
  else if isEmpty (translationApiKey stored)
  then Done (showStatus (Text (js "API キーが設定されていません。")) true)
  else
    if jsstring_eqb (translationProvider stored) (js "DeepL") then
      let apiKey := trim (translationApiKey stored) in
      Fetching DeepL
        {| endpoint := deepLEndpoint apiKey;
           httpMethod := js "POST";
           headers :=
             [(js "Authorization",
               js "DeepL-Auth-Key " ++ deepLRealKey apiKey);
              (js "Content-Type", js "application/x-www-form-urlencoded")];
           payload :=
             FormBody [(js "text", sample); (js "target_lang", js "JA")] |}
    else if jsstring_eqb (translationProvider stored) (js "Google") then
      match encodeURIComponent (trim (translationApiKey stored)) with
      | None => Done (showStatus (FailureText TestURIError) true)
      | Some encoded =>
          Fetching Google
            {| endpoint := googleEndpointPrefix ++ encoded;
               httpMethod := js "POST";
               headers := [(js "Content-Type", js "application/json")];
               payload :=
                 JsonBody
                   (JObject [(js "q", JArray [JString sample]);
                             (js "target", JString (js "ja"));
                             (js "format", JString (js "text"))]) |}
      end
    else if jsstring_eqb (translationProvider stored) (js "Azure") then
      let region := trim (translationRegion stored) in
      Fetching Azure
        {| endpoint := azureEndpoint;
           httpMethod := js "POST";
           headers :=
             [(js "Ocp-Apim-Subscription-Key",
               trim (translationApiKey stored));
              (js "Content-Type", js "application/json")]
             ++ (if isEmpty region then []
                 else [(js "Ocp-Apim-Subscription-Region", region)]);
           payload := JsonBody (JArray [JObject [(js "Text", JString sample)]])
        |}
    else Done (showStatus (Text (js "不明な翻訳提供者です。")) true).
End Requests.

(** [v[0]] *)
Definition firstItem (v : JsValue) : JsError + JsValue :=
  match v with
  | None => inl TypeError
  | Some JNull => inl TypeError
  | _ => inr (firstItemOptional v)
  end.

(** The value the status line shows after [成功: ]:
    [data.translations?.[0]?.text],
    [data.data?.translations?.[0]?.translatedText] and
    [data[0]?.translations?.[0]?.text]. *)
Definition firstTranslation (k : ProviderKind) (data : Json)
  : JsError + JsValue :=
  match k with
  | DeepL =>
      translations <- getProperty (Some data) (js "translations") ;;
      inr (getPropertyOptional (firstItemOptional translations) (js "text"))
  | Google =>
      inner <- getProperty (Some data) (js "data") ;;
      inr (getPropertyOptional
             (firstItemOptional (getPropertyOptional inner (js "translations")))
             (js "translatedText"))
  | Azure =>
      first <- firstItem (Some data) ;;
      inr (getPropertyOptional
             (firstItemOptional (getPropertyOptional first (js "translations")))
             (js "text"))
  end.

(** The rest of [testTranslation] once [fetch] has settled: the body is
    read before the status is looked at, and the template literal converts
    the first translation to a string. *)
Definition testSettled (k : ProviderKind) (outcome : FetchOutcome) : Status :=
  match outcome with
  | NetworkError => showStatus (FailureText TestFetchFailed) true
  | HttpResponse ok status json =>
      match json with
      | None => showStatus (FailureText TestSyntaxError) true
      | Some data =>
          if negb ok then showStatus (FailureText (TestStatusError data)) true
          else
            match text <- firstTranslation k data ;; valueToString text with
            | inl _ => showStatus (FailureText TestTypeError) true
            | inr text => showStatus (Text (js "成功: " ++ text)) false
            end
      end
  end.

(** A value without a string conversion: an object with a property
    [toString] of its own; and the body of a DeepL response whose
    translations are the given values. *)
Definition unconvertible : Json :=
  JObject [(js "toString", JNumber true (js "1"))].

Definition deepLValues (translations : list Json) : Json :=
  JObject
    [(js "translations",
      JArray (map (fun t => JObject [(js "text", t)]) translations))].

(** ** Payloads of the documented shapes *)

(** [{ data: { translations: [{translatedText: "..."}] } }] *)
Definition googlePayload (translations : list jsstring) : Json :=
  JObject
    [(js "data",
      JObject
        [(js "translations",
          JArray (map (fun t => JObject [(js "translatedText", JString t)])
                    translations))])].

(** [[ { translations: [{ text: "...", to: "ja" }] } ]] *)
Definition azurePayload (translations : list jsstring) : Json :=
  JArray
    (map (fun t =>
            JObject
              [(js "translations",
                JArray [JObject [(js "text", JString t);
                                 (js "to", JString (js "ja"))]])])
       translations).

(** ** Phrases between letters

    The class [[\p{L}\p{N}_]] is matched under the flag [i]: a code point
    that folds like a letter belongs to it.  The tables of the host are a
    parameter here, so a statement that needs this says it of the code
    points it needs it of. *)
Section Bounded.
Context {U : Unicode}.

(** Every code point that folds like [c] is a word character. *)
Definition wordFold (c : N) : Prop :=
  forall d, canonicalize d = canonicalize c -> wordClass d = true.

(** The phrase begins and ends with such a code point. *)
Definition wordBounded (english : jsstring) : Prop :=
  wordFold (hd 0%N english) /\ wordFold (last english 0%N).
End Bounded.

(** What a full run of [translateTextNodesIn] leaves in a text node. *)
Section FullPass.
Context {U : Unicode}.
Variable GITHUB_JA_DICTIONARY_SORTED : list (jsstring * jsstring).

Definition translatedValue (t : TextItem) : jsstring :=
  if translatable t then
    let translated :=
      translateByDictionary GITHUB_JA_DICTIONARY_SORTED (snd t) in
    if isEmpty translated then snd t else translated
  else snd t.
End FullPass.

(** ** Further scenarios *)

(** Remote translation switched on with a provider, but no key. *)
Definition keylessConfiguration : Configuration :=
  {| isEnabledOnGithub := true;
     useTranslationApi := true;
     translationProvider := js "DeepL";
     translationApiKey := [];
     translationRegion := [];
     translationAggressiveness := js "balanced" |}.

(** [<pre><span>Issues</span></pre>] *)
Definition nestedPrePage : Document :=
  page [ElementNode (htmlElement 10 (js "pre") [])
          [textElement 11 (js "span") (js "Issues")]].

(** An element [x:pre] that a script has created in the HTML namespace. *)
Definition prefixedPre : Element :=
  {| elementId := 10;
     prefix := Some (js "x");
     localName := js "pre";
     inHTMLNamespace := true;
     attributes := [] |}.

(** [<div class="highlight"><span>Open issues</span></div>] *)
Definition highlightPage : Document :=
  page [ElementNode (htmlElement 10 (js "div") [(js "class", js "highlight")])
          [textElement 11 (js "span") (js "Open issues")]].

(** A page whose script replaces the text of a node that has been processed
    and adds a paragraph with the same text. *)
Definition issuesTable : list (jsstring * jsstring) :=
  [(js "Issues", js "課題")].

Definition helloPage : Document :=
  page [textElement 10 (js "p") (js "Hello")].

Definition changedPage : Document :=
  page [textElement 10 (js "p") (js "Issues");
        textElement 12 (js "p") (js "Issues")].

Definition changedWorld : World :=
  @run basicUnicode issuesTable [PageMutation changedPage]
    (@initializeJapaneseTranslator basicUnicode issuesTable helloPage
       (Some defaultConfiguration)).

(** ** Elements with their ancestors, in document order *)

(** An element as [querySelectorAll(...).forEach] meets it: its ancestors
    (parent first) and the element. *)
Definition ElementItem : Type := list Element * Element.

Fixpoint elementItemsOfNode (ancestors : list Element) (n : Node)
  : list ElementItem :=
  match n with
  | TextNode _ _ => []
  | ElementNode e children =>
      (ancestors, e)
      :: (fix elementItemsOfList (l : list Node) : list ElementItem :=
            match l with
            | [] => []
            | c :: r =>
                elementItemsOfNode (e :: ancestors) c ++ elementItemsOfList r
            end) children
  end.

Fixpoint elementItemsOfNodes (ancestors : list Element) (l : list Node)
  : list ElementItem :=
  match l with
  | [] => []
  | c :: r =>
      elementItemsOfNode ancestors c ++ elementItemsOfNodes ancestors r
  end.

Definition elementItems (d : Document) : list ElementItem :=
  ([], documentElement d)
  :: elementItemsOfNodes [documentElement d] (headNodes d)
  ++ ([documentElement d], body d)
  :: elementItemsOfNodes [body d; documentElement d] (bodyNodes d)
  ++ elementItemsOfNodes [documentElement d] (tailNodes d).

(** [e'] is [e] up to the values of [placeholder], [title] and
    [aria-label]: the same element, with the same attributes in the same
    order, and the same value for every other attribute. *)
Definition sameButTranslated (e e' : Element) : Prop :=
  elementId e' = elementId e
  /\ prefix e' = prefix e
  /\ localName e' = localName e
  /\ inHTMLNamespace e' = inHTMLNamespace e
  /\ map fst (attributes e') = map fst (attributes e)
  /\ forall name,
       ~ In name (map attributeNameString attributesToTranslate) ->
       getAttribute (attributes e') name = getAttribute (attributes e) name.

(** What the attribute pass leaves of an element: it differs at most in
    the three values, and not at all when the selector does not match it or
    [shouldSkipElement] rejects it. *)
Section AttributeFrame.
Context {U : Unicode}.
Variable GITHUB_JA_DICTIONARY_SORTED : list (jsstring * jsstring).

(** The value the pass gives to [placeholder], [title] or [aria-label] of
    an element it does not skip. *)
Definition translatedAttribute (original : jsstring) : jsstring :=
  if isEmpty original then original
  else translateByDictionary GITHUB_JA_DICTIONARY_SORTED original.

Definition leftByAttributePass (item : ElementItem) (e' : Element) : Prop :=
  sameButTranslated (snd item) e'
  /\ (attributeSelector (snd item) = false
      \/ shouldSkipElement (snd item :: fst item) = true ->
      e' = snd item).
End AttributeFrame.

(** ** The requests in flight and the configuration *)
Section Routing.
Context {U : Unicode}.
Variable GITHUB_JA_DICTIONARY_SORTED : list (jsstring * jsstring).

(** An attribute request goes to the provider that [cfg] selects and carries
    a value that is not empty and that the table leaves as it is. *)
Definition routedRequest (cfg : Configuration) (r : AttributeRequest)
  : Prop :=
  translateListByOptionalApi cfg = Some (requestProvider r)
  /\ requestOriginal r <> []
  /\ translateByDictionary GITHUB_JA_DICTIONARY_SORTED (requestOriginal r)
     = requestOriginal r.

(** Every request in flight goes to the provider that [cfg] selects; and
    with remote translation switched off in [cfg] nothing is queued, no
    timer is armed and no batch is in flight. *)
Definition routedBy (cfg : Configuration) (w : World) : Prop :=
  (useTranslationApi (currentConfiguration w) = useTranslationApi cfg
   /\ translationProvider (currentConfiguration w) = translationProvider cfg
   /\ translationApiKey (currentConfiguration w) = translationApiKey cfg)
  /\ (forall b, In b (batchRequests w) ->
        batchProvider b = translateListByOptionalApi cfg)
  /\ (forall r, In r (attributeRequests w) -> routedRequest cfg r)
  /\ (useTranslationApi cfg = false ->
      pendingAsyncTextsSet w = []
      /\ pendingAsyncTimer w = false
      /\ batchRequests w = []).
End Routing.

(** The active tab shows a page of the repository. *)
Definition githubTab : Tab :=
  {| tabId := 7;
     tabUrl := Some (js "https://github.com/ObuchiYuki/gittohabu/pulls") |}.

(** The page with five [Open], loaded with a provider but no key, after the
    timer has fired; and loaded with a key, after the timer has fired. *)
Definition keylessWorld : World :=
  @run basicUnicode [] [PendingTimerFires]
    (@initializeJapaneseTranslator basicUnicode [] openPage
       (Some keylessConfiguration)).

Definition sentWorld : World :=
  @step basicUnicode [] openWorld PendingTimerFires.

(** The page with the two paragraphs, after the timer has fired. *)
Definition twoSentWorld : World :=
  @run basicUnicode [] [PendingTimerFires]
    (@initializeJapaneseTranslator basicUnicode [] twoParagraphs
       (Some deepLConfiguration)).

(** The fragment [Open] in the page with five of them, with its ancestors. *)
Definition openFragment : list Element :=
  [htmlElement 10 (js "span") [];
   htmlElement 3 (js "body") [];
   htmlElement 1 (js "html") [(js "lang", js "ja")]].
(** * Properties *)

(** ** Strings *)

Lemma jsstring_eqb_eq (a b : jsstring) : jsstring_eqb a b = true <-> a = b.
Proof.
  revert b; induction a as [|x a IH]; intros [|y b]; simpl;
    try (split; [discriminate | discriminate]); try tauto.
  rewrite andb_true_iff, N.eqb_eq, IH.
  split; [intros [-> ->]; reflexivity | intros [= -> ->]; auto].
Qed.

Lemma jsstring_eqb_refl (a : jsstring) : jsstring_eqb a a = true.
Proof. apply jsstring_eqb_eq; reflexivity. Qed.

Lemma jsstring_eqb_neq (a b : jsstring) : jsstring_eqb a b = false <-> a <> b.
Proof.
  rewrite <- jsstring_eqb_eq.
  destruct (jsstring_eqb a b); split; congruence.
Qed.

(** ** The compiled pattern *)

Lemma startsWith_app (p x : jsstring) : startsWith p (p ++ x) = true.
Proof.
  induction p as [|a p IH]; simpl; [reflexivity|].
  rewrite N.eqb_refl, IH; reflexivity.
Qed.

Lemma parseTerms_skip (p x : jsstring) :
  parseTerms (List.length p) (p ++ x) = parseTerms 0 x.
Proof.
  induction p as [|a p IH]; simpl; [reflexivity | exact IH].
Qed.

Lemma not_syntax_facts (c : N) :
  isSyntaxCharacter c = false -> (40 =? c)%N = false /\ (c =? 92)%N = false.
Proof.
  unfold isSyntaxCharacter; intros H.
  repeat (apply orb_false_iff in H; destruct H as [H ?]).
  split; [rewrite N.eqb_sym|]; assumption.
Qed.

Lemma parse_lookahead : parseTerms 0 lookaheadSource = [NotBeforeWord].
Proof. reflexivity. Qed.

Lemma parseTerms_cons (c : N) (r : jsstring) :
  parseTerms 0 (c :: r)
  = if startsWith lookbehindSource (c :: r)
    then NotAfterWord :: parseTerms (List.length lookbehindSource - 1) r
    else if startsWith lookaheadSource (c :: r)
    then NotBeforeWord :: parseTerms (List.length lookaheadSource - 1) r
    else if (c =? 92)%N then
      match r with
      | d :: _ =>
          if isSyntaxCharacter d || (d =? 47)%N
          then Literal d :: parseTerms 1 r
          else Unsupported :: parseTerms 1 r
      | [] => [Unsupported]
      end
    else if isSyntaxCharacter c then Unsupported :: parseTerms 0 r
    else Literal c :: parseTerms 0 r.
Proof. reflexivity. Qed.

Lemma startsWith_cons (a b : N) (p s : jsstring) :
  startsWith (a :: p) (b :: s) = ((a =? b)%N && startsWith p s)%bool.
Proof. reflexivity. Qed.

Lemma startsWith_group_ne (c : N) (r : jsstring) :
  (40 =? c)%N = false ->
  startsWith lookbehindSource (c :: r) = false
  /\ startsWith lookaheadSource (c :: r) = false.
Proof.
  intros H; split.
  - change lookbehindSource with (40%N :: tl lookbehindSource).
    rewrite startsWith_cons, H; reflexivity.
  - change lookaheadSource with (40%N :: tl lookaheadSource).
    rewrite startsWith_cons, H; reflexivity.
Qed.

Lemma parse_pattern_character (c : N) (r : jsstring) :
  isSyntaxCharacter c = false ->
  parseTerms 0 (c :: r) = Literal c :: parseTerms 0 r.
Proof.
  intros Hc; destruct (not_syntax_facts c Hc) as [H40 H92].
  destruct (startsWith_group_ne c r H40) as [Hb Ha].
  rewrite parseTerms_cons, Hb, Ha, H92, Hc; reflexivity.
Qed.

Lemma parse_identity_escape (c : N) (r : jsstring) :
  isSyntaxCharacter c = true ->
  parseTerms 0 (92%N :: c :: r) = Literal c :: parseTerms 0 r.
Proof.
  intros Hc.
  destruct (startsWith_group_ne 92 (c :: r) eq_refl) as [Hb Ha].
  rewrite parseTerms_cons, Hb, Ha, Hc; reflexivity.
Qed.

Lemma parse_escaped (english : jsstring) :
  parseTerms 0 (escapeRegExp english ++ lookaheadSource)
  = map Literal english ++ [NotBeforeWord].
Proof.
  induction english as [|c english IH]; [exact parse_lookahead|].
  unfold escapeRegExp in *; simpl flat_map.
  destruct (isSyntaxCharacter c) eqn:Hc; simpl app.
  - rewrite parse_identity_escape by assumption. rewrite IH; reflexivity.
  - rewrite parse_pattern_character by assumption. rewrite IH; reflexivity.
Qed.

Lemma parse_after_lookbehind (x : jsstring) :
  parseTerms 0 (lookbehindSource ++ x) = NotAfterWord :: parseTerms 0 x.
Proof.
  pose proof (startsWith_app lookbehindSource x) as H.
  pose proof (parseTerms_skip (tl lookbehindSource) x) as K.
  change (lookbehindSource ++ x) with (40%N :: (tl lookbehindSource ++ x)) in *.
  rewrite parseTerms_cons, H.
  exact (f_equal (cons NotAfterWord) K).
Qed.

(** The pattern that [compileDictionary] builds for a source phrase: the
    phrase itself, code point by code point, between the two assertions. *)
Lemma RegExp_of_escaped (english : jsstring) :
  RegExp_giu (lookbehindSource ++ escapeRegExp english ++ lookaheadSource)
  = NotAfterWord :: map Literal english ++ [NotBeforeWord].
Proof.
  unfold RegExp_giu.
  rewrite parse_after_lookbehind, parse_escaped; reflexivity.
Qed.

(** ** Matching and replacing *)
Section MatcherFacts.
Context {U : Unicode}.




Lemma foldedPrefix_spec (english rest : jsstring) :
  foldedPrefix english rest = true
  <-> exists occurrence suffix,
        rest = occurrence ++ suffix /\ foldEqual english occurrence.
Proof.
  revert rest; induction english as [|c english IH]; intros rest; simpl.
  - split; [intros _; exists [], rest; split; [reflexivity | constructor]|auto].
  - destruct rest as [|d rest].
    + split; [discriminate|].
      intros (occ & suf & Heq & Hf); inversion Hf; subst; discriminate.
    + rewrite andb_true_iff, N.eqb_eq, IH; split.
      * intros (Hc & occ & suf & -> & Hf).
        exists (d :: occ), suf; split; [reflexivity | constructor; assumption].
      * intros (occ & suf & Heq & Hf); inversion Hf; subst.
        injection Heq as -> ->; split; [assumption|eauto].
Qed.

Lemma foldEqual_length (a b : jsstring) :
  foldEqual a b -> List.length a = List.length b.
Proof. induction 1; simpl; congruence. Qed.

Lemma match_literals (english before rest : jsstring) :
  matchTerms (map Literal english ++ [NotBeforeWord]) before rest
  = if foldedPrefix english rest
       && negb (beforeWord (skipn (List.length english) rest))
    then Some (List.length english) else None.
Proof.
  revert before rest; induction english as [|c english IH]; intros before rest.
  - simpl. destruct (beforeWord rest); reflexivity.
  - destruct rest as [|d rest]; [reflexivity|].
    simpl. destruct (canonicalize c =? canonicalize d)%N; [|reflexivity].
    rewrite IH; simpl.
    destruct (foldedPrefix english rest && _); reflexivity.
Qed.

Lemma pattern_compileEntry (english japanese : jsstring) :
  pattern (compileEntry (english, japanese))
  = NotAfterWord :: map Literal english ++ [NotBeforeWord].
Proof. exact (RegExp_of_escaped english). Qed.

(** One attempt of a compiled matcher, in closed form. *)
Lemma match_compiled (english japanese before rest : jsstring) :
  matchTerms (pattern (compileEntry (english, japanese))) before rest
  = if negb (afterWord before) && foldedPrefix english rest
       && negb (beforeWord (skipn (List.length english) rest))
    then Some (List.length english) else None.
Proof.
  rewrite pattern_compileEntry.
  change (matchTerms (NotAfterWord :: ?ts) before rest)
    with (if afterWord before then None else matchTerms ts before rest).
  rewrite match_literals.
  destruct (afterWord before); reflexivity.
Qed.

Lemma replaceFrom_scan (m : CompiledMatcher) (before rest : jsstring) :
  replaceFrom m before rest 0
  = match matchTerms (pattern m) before rest with
    | Some n =>
        getSubstitution (replacement m) (firstn n rest) (rev before)
          (skipn n rest)
        ++ match rest with
           | [] => []
           | c :: rest' =>
               match n with
               | O => c :: replaceFrom m (c :: before) rest' 0
               | S k => replaceFrom m (c :: before) rest' k
               end
           end
    | None =>
        match rest with
        | [] => []
        | c :: rest' => c :: replaceFrom m (c :: before) rest' 0
        end
    end.
Proof. destruct rest; reflexivity. Qed.

Lemma replaceFrom_no_match (m : CompiledMatcher) (rest before : jsstring) :
  (forall a b, rest = a ++ b ->
     matchTerms (pattern m) (rev a ++ before) b = None) ->
  replaceFrom m before rest 0 = rest.
Proof.
  revert before; induction rest as [|c rest IH]; intros before H.
  - rewrite replaceFrom_scan, (H [] [] eq_refl : matchTerms _ before [] = None).
    reflexivity.
  - rewrite replaceFrom_scan,
      (H [] (c :: rest) eq_refl : matchTerms _ before (c :: rest) = None).
    f_equal.
    apply IH; intros a b ->.
    specialize (H (c :: a) b eq_refl).
    simpl in H; rewrite <- app_assoc in H; exact H.
Qed.

Lemma containsFolded_suffix (english a b : jsstring) :
  containsFolded english (a ++ b) = false -> foldedPrefix english b = false.
Proof.
  induction a as [|x a IH]; simpl.
  - destruct b; simpl; intros H; apply orb_false_iff in H; tauto.
  - intros H; apply orb_false_iff in H; destruct H; auto.
Qed.

(** A matcher whose source phrase does not occur in the text leaves it as
    it is. *)
Lemma replace_absent (english japanese text : jsstring) :
  containsFolded english text = false ->
  replace text (compileEntry (english, japanese)) = text.
Proof.
  intros H; apply replaceFrom_no_match; intros a b ->.
  rewrite match_compiled, (containsFolded_suffix _ _ _ H).
  rewrite andb_false_r; reflexivity.
Qed.

End MatcherFacts.

Section PassFacts.
Context {U : Unicode}.

(** The cache of [compileDictionary] is either empty or holds the compiled
    table; either way the call returns the compiled table and leaves it in
    the cache. *)
Lemma compileDictionary_cached_ok (dict : list (jsstring * jsstring))
    (cache : option (list CompiledMatcher)) :
  cache = None \/ cache = Some (compileDictionary dict) ->
  compileDictionary_cached dict cache
  = (compileDictionary dict, Some (compileDictionary dict)).
Proof. intros [-> | ->]; reflexivity. Qed.

Lemma translate_cons(entry : jsstring * jsstring)
    (dict : list (jsstring * jsstring)) (text : jsstring) :
  translateByDictionary (entry :: dict) text
  = translateByDictionary dict (replace text (compileEntry entry)).
Proof. reflexivity. Qed.

Lemma translate_settled (dict : list (jsstring * jsstring)) (text : jsstring) :
  noSourcePhraseIn dict text = true -> translateByDictionary dict text = text.
Proof.
  induction dict as [|[english japanese] dict IH]; intros H; [reflexivity|].
  simpl in H; apply andb_true_iff in H; destruct H as [H1 H2].
  rewrite translate_cons, replace_absent; [auto|].
  destruct (containsFolded english text); [discriminate | reflexivity].
Qed.

Lemma match_compiled_iff (english japanese before rest : jsstring) (n : nat) :
  matchTerms (pattern (compileEntry (english, japanese))) before rest = Some n
  <-> afterWord before = false
      /\ exists occurrence suffix,
           rest = occurrence ++ suffix
           /\ foldEqual english occurrence
           /\ n = List.length occurrence
           /\ beforeWord suffix = false.
Proof.
  rewrite match_compiled; split.
  - destruct (afterWord before); [discriminate|]; simpl.
    destruct (foldedPrefix english rest) eqn:Hp; [|discriminate]; simpl.
    destruct (beforeWord _) eqn:Hb; [discriminate|]; simpl.
    intros [= <-]; split; [reflexivity|].
    apply foldedPrefix_spec in Hp; destruct Hp as (occ & suf & -> & Hf).
    pose proof (foldEqual_length Hf) as Hl.
    exists occ, suf; repeat split; auto.
    rewrite Hl, skipn_app, skipn_all, Nat.sub_diag in Hb; exact Hb.
  - intros (Ha & occ & suf & -> & Hf & -> & Hb).
    pose proof (foldEqual_length Hf) as Hl.
    replace (foldedPrefix english (occ ++ suf)) with true
      by (symmetry; apply foldedPrefix_spec; eauto).
    rewrite Ha, Hl, skipn_app, skipn_all, Nat.sub_diag; simpl; rewrite Hb.
    reflexivity.
Qed.

End PassFacts.


Section OrderFacts.
Context {U : Unicode}.




Lemma getSubstitution_plain (repl matched before after : jsstring) :
  noReference repl = true ->
  getSubstitution repl matched before after = repl.
Proof.
  induction repl as [|c r IH]; simpl; [reflexivity|].
  intros H; apply andb_true_iff in H; destruct H as [Hc Hr].
  destruct (c =? 36)%N; [discriminate|]. rewrite IH; auto.
Qed.

Lemma replaceFrom_skip (m : CompiledMatcher) (a b before : jsstring) :
  replaceFrom m before (a ++ b) (List.length a)
  = replaceFrom m (rev a ++ before) b 0.
Proof.
  revert before; induction a as [|x a IH]; intros before; [reflexivity|].
  simpl. rewrite IH, <- app_assoc. reflexivity.
Qed.

Lemma foldedPrefix_at (english pre : jsstring) (y : N) (tail : jsstring) :
  foldedPrefix english (pre ++ y :: tail) = true ->
  List.length pre < List.length english ->
  exists c, nth_error english (List.length pre) = Some c
            /\ canonicalize c = canonicalize y.
Proof.
  revert english; induction pre as [|p pre IH]; intros [|e english];
    simpl; try lia; intros H Hl;
    apply andb_true_iff in H; destruct H as [He Ht].
  - exists e; split; [reflexivity | apply N.eqb_eq; assumption].
  - apply IH; [assumption | lia].
Qed.

Lemma replaceFrom_end (english japanese before : jsstring) :
  english <> [] ->
  replaceFrom (compileEntry (english, japanese)) before [] 0 = [].
Proof.
  intros Hne. rewrite replaceFrom_scan, match_compiled.
  destruct english; [congruence|]. simpl. rewrite andb_false_r. reflexivity.
Qed.

Section ForcedMatch.
Variables english japanese occurrence post : jsstring.
Hypothesis Hunique : firstFoldUnique english = true.
Hypothesis Hocc : foldEqual english occurrence.
Hypothesis Hpost : beforeWord post = false.

Lemma occurrence_not_overlapped (pre : jsstring) :
  pre <> [] ->
  foldedPrefix english (pre ++ occurrence ++ post) = true ->
  List.length english <= List.length pre.
Proof.
  intros Hne Hp.
  destruct (le_lt_dec (List.length english) (List.length pre)) as [|Hlt];
    [assumption | exfalso].
  destruct english as [|e0 english']; [discriminate|].
  inversion Hocc as [|? o0 ? occ' He0 Hrest]; subst.
  destruct (foldedPrefix_at _ pre _ _ Hp Hlt) as (c & Hc & Hcan).
  destruct pre as [|p pre']; [congruence|]. simpl in Hc.
  apply nth_error_In in Hc.
  unfold firstFoldUnique in Hunique.
  rewrite forallb_forall in Hunique. specialize (Hunique c Hc).
  rewrite Hcan, <- He0, N.eqb_refl in Hunique. discriminate.
Qed.

Lemma replaceFrom_forced (pre before : jsstring) (skip : nat) :
  skip <= List.length pre ->
  afterWord (rev pre ++ before) = false ->
  exists X,
    replaceFrom (compileEntry (english, japanese)) before
      (pre ++ occurrence ++ post) skip
    = X ++ getSubstitution japanese occurrence (rev (rev pre ++ before)) post
        ++ replaceFrom (compileEntry (english, japanese))
             (rev occurrence ++ rev pre ++ before) post 0
    /\ (pre = [] -> X = []).
Proof.
  revert before skip; induction pre as [|c pre IH]; intros before skip Hs Ha.
  - assert (skip = 0) by (simpl in Hs; lia); subst skip.
    exists []; split; [|reflexivity].
    simpl app. simpl in Ha.
    pose proof (foldEqual_length Hocc) as Hl.
    assert (Hm : matchTerms (pattern (compileEntry (english, japanese)))
                   before (occurrence ++ post)
                 = Some (List.length occurrence)).
    { apply match_compiled_iff; split; [assumption|].
      exists occurrence, post; auto. }
    rewrite replaceFrom_scan, Hm.
    rewrite firstn_app, firstn_all, Nat.sub_diag, app_nil_r.
    rewrite skipn_app, skipn_all, Nat.sub_diag. simpl skipn.
    f_equal.
    destruct occurrence as [|o occ'].
    { destruct english; [discriminate | inversion Hocc]. }
    cbn [app List.length]. cbv iota.
    rewrite replaceFrom_skip. simpl rev. rewrite <- app_assoc. reflexivity.
  - assert (Hstep : forall k, k <= List.length pre -> exists X,
               replaceFrom (compileEntry (english, japanese)) (c :: before)
                 (pre ++ occurrence ++ post) k
               = X ++ getSubstitution japanese occurrence
                        (rev (rev (c :: pre) ++ before)) post
                   ++ replaceFrom (compileEntry (english, japanese))
                        (rev occurrence ++ rev (c :: pre) ++ before) post 0).
    { intros k Hk. destruct (IH (c :: before) k Hk) as (X & HX & _).
      - simpl in Ha. rewrite <- app_assoc in Ha. exact Ha.
      - exists X. rewrite HX. simpl rev. rewrite <- !app_assoc. reflexivity. }
    destruct skip as [|k].
    + rewrite <- app_comm_cons, replaceFrom_scan.
      destruct (matchTerms _ before (c :: pre ++ occurrence ++ post))
        as [n|] eqn:Hm.
      * rewrite match_compiled in Hm.
        destruct (negb (afterWord before)); [|discriminate]. simpl in Hm.
        destruct (foldedPrefix english (c :: pre ++ occurrence ++ post))
          eqn:Hp; [|discriminate].
        assert (Hle : List.length english <= List.length (c :: pre)).
        { apply occurrence_not_overlapped; [discriminate | exact Hp]. }
        simpl in Hm. destruct (negb (beforeWord _)); [|discriminate].
        injection Hm as <-.
        destruct english as [|e0 english']; [discriminate|].
        simpl List.length in *.
        destruct (Hstep (List.length english')) as (X & HX); [lia|].
        eexists; split; [|discriminate].
        rewrite HX, app_assoc. reflexivity.
      * destruct (Hstep 0) as (X & HX); [lia|].
        exists (c :: X); split; [|discriminate].
        rewrite HX. reflexivity.
    + destruct (Hstep k) as (X & HX); [simpl in Hs; lia|].
      exists X; split; [|discriminate].
      simpl. exact HX.
Qed.
End ForcedMatch.

End OrderFacts.

Section BlockFacts.
Context {U : Unicode}.
Variables english japanese : jsstring.
Hypothesis Hne : english <> [].

Lemma block_not_matched (block tail before : jsstring) (y : N) :
  foldDisjoint (y :: block) english = true ->
  matchTerms (pattern (compileEntry (english, japanese))) before
    (y :: tail) = None.
Proof.
  intros Hd. rewrite match_compiled.
  destruct english as [|e0 english']; [congruence|].
  simpl in Hd. apply andb_true_iff in Hd; destruct Hd as [Hd _].
  apply andb_true_iff in Hd; destruct Hd as [Hd _].
  simpl. destruct (canonicalize e0 =? canonicalize y)%N; [discriminate|].
  rewrite andb_false_r. reflexivity.
Qed.

Lemma replaceFrom_block (block tail before : jsstring) :
  foldDisjoint block english = true ->
  replaceFrom (compileEntry (english, japanese)) before (block ++ tail) 0
  = block ++ replaceFrom (compileEntry (english, japanese))
               (rev block ++ before) tail 0.
Proof.
  revert before; induction block as [|y block IH]; intros before Hd;
    [reflexivity|].
  rewrite <- app_comm_cons, replaceFrom_scan.
  rewrite block_not_matched with (block := block) by exact Hd.
  simpl in Hd; apply andb_true_iff in Hd; destruct Hd as [_ Hd].
  rewrite IH by assumption. simpl rev. rewrite <- app_assoc. reflexivity.
Qed.

(** A block of code points that the phrase cannot match survives the
    replacement where it stands. *)
Lemma replaceFrom_keeps_block (block tail : jsstring) :
  block <> [] ->
  foldDisjoint block english = true ->
  forall (a before : jsstring) (skip : nat),
    skip <= List.length a ->
    exists X,
      replaceFrom (compileEntry (english, japanese)) before
        (a ++ block ++ tail) skip
      = X ++ block
          ++ replaceFrom (compileEntry (english, japanese))
               (rev block ++ rev a ++ before) tail 0
      /\ (a = [] -> X = []).
Proof.
  intros Hb Hd a; induction a as [|c a IH]; intros before skip Hs.
  - assert (skip = 0) by (simpl in Hs; lia); subst skip.
    exists []; split; [|reflexivity]. simpl app.
    apply replaceFrom_block; assumption.
  - assert (Hstep : forall k, k <= List.length a -> exists X,
               replaceFrom (compileEntry (english, japanese)) (c :: before)
                 (a ++ block ++ tail) k
               = X ++ block
                   ++ replaceFrom (compileEntry (english, japanese))
                        (rev block ++ rev (c :: a) ++ before) tail 0).
    { intros k Hk. destruct (IH (c :: before) k Hk) as (X & HX & _).
      exists X. rewrite HX. simpl rev. rewrite <- !app_assoc. reflexivity. }
    destruct skip as [|k].
    + rewrite <- app_comm_cons, replaceFrom_scan.
      destruct (matchTerms _ before (c :: a ++ block ++ tail)) as [n|] eqn:Hm.
      * rewrite match_compiled in Hm.
        destruct (negb (afterWord before)); [|discriminate]. simpl in Hm.
        destruct (foldedPrefix english (c :: a ++ block ++ tail)) eqn:Hp;
          [|discriminate].
        simpl in Hm. destruct (negb (beforeWord _)); [|discriminate].
        injection Hm as <-.
        assert (Hle : List.length english <= List.length (c :: a)).
        { destruct (le_lt_dec (List.length english) (List.length (c :: a)))
            as [|Hlt]; [assumption | exfalso].
          destruct block as [|y block]; [congruence|].
          destruct (foldedPrefix_at english (c :: a) y (block ++ tail) Hp Hlt)
            as (x & Hx & Hcan).
          apply nth_error_In in Hx.
          simpl in Hd. apply andb_true_iff in Hd; destruct Hd as [Hd _].
          rewrite forallb_forall in Hd. specialize (Hd x Hx).
          rewrite Hcan, N.eqb_refl in Hd. discriminate. }
        destruct english as [|e0 english']; [congruence|].
        simpl List.length in *.
        destruct (Hstep (List.length english')) as (X & HX); [lia|].
        eexists; split; [|discriminate].
        rewrite HX, app_assoc. reflexivity.
      * destruct (Hstep 0) as (X & HX); [lia|].
        exists (c :: X); split; [|discriminate].
        rewrite HX. reflexivity.
    + destruct (Hstep k) as (X & HX); [simpl in Hs; lia|].
      exists X; split; [|discriminate].
      simpl. exact HX.
Qed.

End BlockFacts.


Unset Implicit Arguments.

(** ** Traversals *)

Lemma Node_induction (P : Node -> Prop) :
  (forall id value, P (TextNode id value)) ->
  (forall e children, Forall P children -> P (ElementNode e children)) ->
  forall n, P n.
Proof.
  intros Ht He. fix IH 1. intros [id value | e children].
  - apply Ht.
  - apply He. induction children as [|c r IHr]; constructor.
    + apply IH.
    + exact IHr.
Qed.

Section WalkFacts.
Variable State : Type.
Variable visit : list Element -> N -> jsstring -> State -> jsstring * State.

Lemma walkNode_element (ancestors : list Element) (e : Element)
    (children : list Node) (s : State) :
  walkNode visit ancestors (ElementNode e children) s
  = let '(children', s') := walkNodes visit (e :: ancestors) children s in
    (ElementNode e children', s').
Proof.
  simpl.
  match goal with
  | |- (let '(_, _) := ?f children s in _) = _ =>
      assert (H : forall l s0, f l s0 = walkNodes visit (e :: ancestors) l s0)
  end.
  { induction l as [|c r IH]; intros s0; [reflexivity|].
    simpl. destruct (walkNode visit (e :: ancestors) c s0) as [c' s1].
    rewrite IH. reflexivity. }
  rewrite H. reflexivity.
Qed.

Lemma textsOfNode_element (ancestors : list Element) (e : Element)
    (children : list Node) :
  textsOfNode ancestors (ElementNode e children)
  = textsOfNodes (e :: ancestors) children.
Proof.
  simpl. induction children as [|c r IH]; [reflexivity|].
  simpl. rewrite IH. reflexivity.
Qed.

Lemma visitAll_app (a b : list TextItem) (s : State) :
  visitAll visit (a ++ b) s
  = let '(a', s1) := visitAll visit a s in
    let '(b', s2) := visitAll visit b s1 in
    (a' ++ b', s2).
Proof.
  revert s; induction a as [|[[anc id] v] a IH]; intros s; simpl.
  - destruct (visitAll visit b s); reflexivity.
  - destruct (visit anc id v s) as [v' s1]. rewrite IH.
    destruct (visitAll visit a s1) as [a' s2].
    destruct (visitAll visit b s2); reflexivity.
Qed.

Lemma walkNodes_texts_from (ancestors : list Element) (l : list Node) :
  Forall
    (fun n => forall anc s,
       (textsOfNode anc (fst (walkNode visit anc n s)),
        snd (walkNode visit anc n s))
       = visitAll visit (textsOfNode anc n) s) l ->
  forall s,
    (textsOfNodes ancestors (fst (walkNodes visit ancestors l s)),
     snd (walkNodes visit ancestors l s))
    = visitAll visit (textsOfNodes ancestors l) s.
Proof.
  induction 1 as [|c r Hc Hr IH]; intros s; [reflexivity|].
  simpl. rewrite visitAll_app, <- Hc.
  destruct (walkNode visit ancestors c s) as [c' s1]. simpl.
  rewrite <- IH.
  destruct (walkNodes visit ancestors r s1) as [r' s2]. reflexivity.
Qed.

(** A walk over a tree is the loop over its text nodes in document order. *)
Lemma walkNode_texts (n : Node) :
  forall ancestors s,
    (textsOfNode ancestors (fst (walkNode visit ancestors n s)),
     snd (walkNode visit ancestors n s))
    = visitAll visit (textsOfNode ancestors n) s.
Proof.
  induction n as [id value | e children IH] using Node_induction;
    intros ancestors s.
  - simpl. destruct (visit ancestors id value s); reflexivity.
  - rewrite walkNode_element, textsOfNode_element.
    rewrite <- (walkNodes_texts_from (e :: ancestors) children IH).
    destruct (walkNodes visit (e :: ancestors) children s) as [ch' s'].
    cbn [fst snd]. rewrite textsOfNode_element. reflexivity.
Qed.

Lemma walkNodes_texts (ancestors : list Element) (l : list Node) (s : State) :
  (textsOfNodes ancestors (fst (walkNodes visit ancestors l s)),
   snd (walkNodes visit ancestors l s))
  = visitAll visit (textsOfNodes ancestors l) s.
Proof.
  apply walkNodes_texts_from, Forall_forall.
  intros n _; apply walkNode_texts.
Qed.

Lemma walkBody_texts (d : Document) (s : State) :
  (bodyTexts (fst (walkBody visit d s)), snd (walkBody visit d s))
  = visitAll visit (bodyTexts d) s.
Proof.
  unfold walkBody, bodyTexts. rewrite <- walkNodes_texts.
  destruct (walkNodes visit _ (bodyNodes d) s); reflexivity.
Qed.

(** A walk that leaves every text node and the state as they are returns
    the tree it was given. *)
Lemma walkNode_unchanged (n : Node) :
  forall ancestors s,
    (forall anc id v, In (anc, id, v) (textsOfNode ancestors n) ->
       visit anc id v s = (v, s)) ->
    walkNode visit ancestors n s = (n, s).
Proof.
  induction n as [id value | e children IH] using Node_induction;
    intros ancestors s H.
  - simpl. rewrite (H ancestors id value); [reflexivity | left; reflexivity].
  - rewrite walkNode_element. rewrite textsOfNode_element in H.
    assert (Hl : walkNodes visit (e :: ancestors) children s = (children, s)).
    { revert H; induction IH as [|c r Hc Hr IHr]; intros H; [reflexivity|].
      simpl. rewrite Hc.
      - rewrite IHr; [reflexivity|].
        intros; apply H; simpl; apply in_or_app; right; assumption.
      - intros; apply H; simpl; apply in_or_app; left; assumption. }
    rewrite Hl. reflexivity.
Qed.

Lemma walkNodes_unchanged (ancestors : list Element) (l : list Node)
    (s : State) :
  (forall anc id v, In (anc, id, v) (textsOfNodes ancestors l) ->
     visit anc id v s = (v, s)) ->
  walkNodes visit ancestors l s = (l, s).
Proof.
  induction l as [|c r IH]; intros H; [reflexivity|].
  simpl. rewrite walkNode_unchanged.
  - rewrite IH; [reflexivity|].
    intros; apply H; simpl; apply in_or_app; right; assumption.
  - intros; apply H; simpl; apply in_or_app; left; assumption.
Qed.

Lemma walkBody_unchanged (d : Document) (s : State) :
  (forall anc id v, In (anc, id, v) (bodyTexts d) ->
     visit anc id v s = (v, s)) ->
  walkBody visit d s = (d, s).
Proof.
  intros H. unfold walkBody. rewrite walkNodes_unchanged by exact H.
  destruct d; reflexivity.
Qed.

(** A walk writes text values only. *)
Lemma walkBody_frame (d : Document) (s : State) :
  documentElement (fst (walkBody visit d s)) = documentElement d
  /\ headNodes (fst (walkBody visit d s)) = headNodes d
  /\ body (fst (walkBody visit d s)) = body d
  /\ tailNodes (fst (walkBody visit d s)) = tailNodes d.
Proof.
  unfold walkBody. destruct (walkNodes visit _ (bodyNodes d) s).
  repeat split.
Qed.
End WalkFacts.

Section ValueFacts.
Variable State : Type.
Variable visit : list Element -> N -> jsstring -> State -> jsstring * State.

(** A walk whose body never assigns returns the tree it was given. *)
Hypothesis visit_reads : forall anc id v s, fst (visit anc id v s) = v.

Lemma walkNode_reads (n : Node) :
  forall ancestors s, fst (walkNode visit ancestors n s) = n.
Proof.
  induction n as [id value | e children IH] using Node_induction;
    intros ancestors s.
  - simpl. specialize (visit_reads ancestors id value s).
    destruct (visit ancestors id value s); simpl in *; congruence.
  - rewrite walkNode_element.
    assert (Hl : forall s, fst (walkNodes visit (e :: ancestors) children s)
                           = children).
    { induction IH as [|c r Hc Hr IHr]; intros s0; [reflexivity|].
      simpl. specialize (Hc (e :: ancestors) s0).
      destruct (walkNode visit (e :: ancestors) c s0) as [c' s1].
      specialize (IHr s1).
      destruct (walkNodes visit (e :: ancestors) r s1) as [r' s2].
      simpl in *; congruence. }
    specialize (Hl s).
    destruct (walkNodes visit (e :: ancestors) children s); simpl in *.
    congruence.
Qed.

Lemma walkNodes_reads (ancestors : list Element) (l : list Node) (s : State) :
  fst (walkNodes visit ancestors l s) = l.
Proof.
  revert s; induction l as [|c r IH]; intros s; [reflexivity|].
  simpl. pose proof (walkNode_reads c ancestors s) as Hc.
  destruct (walkNode visit ancestors c s) as [c' s1].
  specialize (IH s1).
  destruct (walkNodes visit ancestors r s1) as [r' s2].
  simpl in *; congruence.
Qed.

Lemma walkBody_reads (d : Document) (s : State) :
  fst (walkBody visit d s) = d.
Proof.
  unfold walkBody. pose proof (walkNodes_reads [body d; documentElement d]
                                 (bodyNodes d) s) as H.
  destruct (walkNodes visit _ (bodyNodes d) s); simpl in *.
  subst; destruct d; reflexivity.
Qed.
End ValueFacts.

Section LoopFacts.
Variable State : Type.
Variable visit : list Element -> N -> jsstring -> State -> jsstring * State.

(** The loop keeps the nodes and their order; it can only change values. *)
Lemma visitAll_nodes (l : list TextItem) (s : State) :
  map fst (fst (visitAll visit l s)) = map fst l.
Proof.
  revert s; induction l as [|[[anc id] v] l IH]; intros s; [reflexivity|].
  simpl. destruct (visit anc id v s) as [v' s1].
  specialize (IH s1). destruct (visitAll visit l s1). simpl in *.
  congruence.
Qed.

Variable keep : list Element -> bool.
Hypothesis visit_keeps :
  forall anc id v s, keep anc = true -> fst (visit anc id v s) = v.

Lemma visitAll_keeps (l : list TextItem) (s : State) :
  filter (fun t : TextItem => keep (fst (fst t))) (fst (visitAll visit l s))
  = filter (fun t : TextItem => keep (fst (fst t))) l.
Proof.
  revert s; induction l as [|[[anc id] v] l IH]; intros s; [reflexivity|].
  simpl. pose proof (visit_keeps anc id v s) as Hk.
  destruct (visit anc id v s) as [v' s1].
  specialize (IH s1). destruct (visitAll visit l s1). simpl in *.
  destruct (keep anc); [rewrite Hk, IH by reflexivity; reflexivity | exact IH].
Qed.
End LoopFacts.

(** ** Sets *)

Lemma memberOf_spec (l : list jsstring) (x : jsstring) :
  memberOf l x = true <-> In x l.
Proof.
  unfold memberOf. rewrite existsb_exists. split.
  - intros (y & Hy & He). apply jsstring_eqb_eq in He. subst; assumption.
  - intros H. exists x. split; [assumption | apply jsstring_eqb_refl].
Qed.

Lemma setAdd_In (s : list jsstring) (x y : jsstring) :
  In y (setAdd s x) <-> In y s \/ y = x.
Proof.
  unfold setAdd. destruct (memberOf s x) eqn:Hm.
  - apply memberOf_spec in Hm. split; [auto | intros [H | ->]; assumption].
  - rewrite in_app_iff. simpl. intuition congruence.
Qed.

Lemma setAdd_NoDup (s : list jsstring) (x : jsstring) :
  NoDup s -> NoDup (setAdd s x).
Proof.
  intros H. unfold setAdd. destruct (memberOf s x) eqn:Hm; [assumption|].
  assert (Hn : ~ In x s).
  { intros Hin. apply memberOf_spec in Hin. congruence. }
  clear Hm. induction H as [|a l Ha Hl IH]; simpl.
  - constructor; [intros [] | constructor].
  - constructor.
    + rewrite in_app_iff. simpl. intros [H | [H | []]].
      * contradiction.
      * subst. apply Hn. left; reflexivity.
    + apply IH. intros Hin. apply Hn. right; assumption.
Qed.

Lemma weakSetHas_add (s : list N) (id id' : N) :
  weakSetHas (weakSetAdd s id) id' = weakSetHas s id' || (id' =? id)%N.
Proof.
  unfold weakSetAdd. destruct (weakSetHas s id) eqn:Hh.
  - destruct (N.eqb_spec id' id) as [->|]; [|rewrite orb_false_r; reflexivity].
    rewrite Hh; reflexivity.
  - simpl. rewrite orb_comm. reflexivity.
Qed.

Lemma indexOf_Some_In (l : list jsstring) (x : jsstring) (i : nat) :
  indexOf l x = Some i -> In x l.
Proof.
  revert i; induction l as [|y l IH]; intros i; simpl; [discriminate|].
  destruct (jsstring_eqb y x) eqn:He.
  - apply jsstring_eqb_eq in He. auto.
  - destruct (indexOf l x); [|discriminate]. eauto.
Qed.

Lemma indexOf_None (l : list jsstring) (x : jsstring) :
  ~ In x l -> indexOf l x = None.
Proof.
  induction l as [|y l IH]; simpl; intros H; [reflexivity|].
  destruct (jsstring_eqb y x) eqn:He.
  - apply jsstring_eqb_eq in He. tauto.
  - rewrite IH by tauto. reflexivity.
Qed.

(** ** The loops over text nodes *)
Section LoopBodies.
Context {U : Unicode}.
Variable dict : list (jsstring * jsstring).

Lemma shouldSkipElement_nil : shouldSkipElement [] = true.
Proof. reflexivity. Qed.

Lemma acceptNode_spec (b : bool) (anc : list Element) (id : N)
    (v : jsstring) (s : Walk) :
  acceptNode b anc id v s
  = translatable (anc, id, v) && negb (b && weakSetHas (processed s) id).
Proof.
  unfold acceptNode, translatable.
  destruct (isEmpty v); [reflexivity|].
  destruct anc as [|p anc]; [reflexivity|].
  cbn [isEmpty negb andb].
  destruct (shouldSkipElement (p :: anc)); [reflexivity|].
  destruct (isEmpty (trim v)); [reflexivity|].
  destruct (b && weakSetHas (processed s) id); reflexivity.
Qed.

Lemma translateTextNode_rejected (cfg : Configuration) (b : bool)
    (anc : list Element) (id : N) (v : jsstring) (s : Walk) :
  acceptNode b anc id v s = false ->
  translateTextNode dict cfg b anc id v s = (v, s).
Proof. intros H. unfold translateTextNode. rewrite H. reflexivity. Qed.

Lemma translateTextNode_skipped (cfg : Configuration) (b : bool)
    (anc : list Element) (id : N) (v : jsstring) (s : Walk) :
  shouldSkipElement anc = true ->
  fst (translateTextNode dict cfg b anc id v s) = v.
Proof.
  intros H. rewrite translateTextNode_rejected; [reflexivity|].
  rewrite acceptNode_spec. unfold translatable. rewrite H.
  rewrite !andb_false_r. reflexivity.
Qed.

Lemma translateTextNode_state (cfg : Configuration) (b : bool)
    (anc : list Element) (id : N) (v : jsstring) (s : Walk) :
  acceptNode b anc id v s = true ->
  processed (snd (translateTextNode dict cfg b anc id v s))
  = weakSetAdd (processed s) id.
Proof.
  intros H. unfold translateTextNode. rewrite H.
  destruct (useTranslationApi cfg && _); reflexivity.
Qed.

Lemma translateTextNode_pending (cfg : Configuration) (b : bool)
    (anc : list Element) (id : N) (v : jsstring) (s : Walk) :
  pending (snd (translateTextNode dict cfg b anc id v s)) = pending s
  \/ pending (snd (translateTextNode dict cfg b anc id v s))
     = setAdd (pending s) v.
Proof.
  unfold translateTextNode. destruct (acceptNode b anc id v s); [|auto].
  destruct (useTranslationApi cfg && _); simpl; auto.
Qed.

Lemma collectVisibleText_value (anc : list Element) (id : N) (v : jsstring)
    (s : Walk) :
  fst (collectVisibleText anc id v s) = v.
Proof.
  unfold collectVisibleText.
  destruct (match anc with [] => true | _ => shouldSkipElement anc end);
    [reflexivity|].
  destruct (isEmpty (trim v)); [reflexivity|].
  destruct (length16 (trim v) <? 4); [reflexivity|].
  destruct (looksJapanese (trim v)); reflexivity.
Qed.

Lemma collectVisibleText_state (anc : list Element) (id : N) (v : jsstring)
    (s : Walk) :
  snd (collectVisibleText anc id v s)
  = if collectable (anc, id, v)
    then {| processed := processed s;
            pending := setAdd (pending s) v;
            written := written s |}
    else s.
Proof.
  unfold collectVisibleText, collectable.
  destruct anc as [|p anc]; [reflexivity|].
  cbn [isEmpty negb andb].
  destruct (shouldSkipElement (p :: anc)); [reflexivity|].
  destruct (isEmpty (trim v)); [reflexivity|].
  destruct (length16 (trim v) <? 4); [reflexivity|].
  destruct (looksJapanese (trim v)); reflexivity.
Qed.

Lemma applyTranslation_skipped (texts : list jsstring)
    (translatedList : list JsValue) (anc : list Element) (id : N)
    (v : jsstring) (s : Walk * option JsError) :
  shouldSkipElement anc = true ->
  fst (applyTranslation texts translatedList anc id v s) = v.
Proof.
  intros H. unfold applyTranslation.
  destruct (snd s); [reflexivity|].
  destruct anc; [reflexivity|]. rewrite H. reflexivity.
Qed.

End LoopBodies.

Section Loops.
Context {U : Unicode}.
Variable dict : list (jsstring * jsstring).

(** The loop of [translateTextNodesIn]: the processed set only grows, and
    when the loop ends it holds every text node that passes the filter,
    with the value it had and with the value it has. *)
Lemma translate_loop_marks (cfg : Configuration) (b : bool)
    (l : list TextItem) :
  forall s,
    let r := visitAll (translateTextNode dict cfg b) l s in
    (forall id, weakSetHas (processed s) id = true ->
                weakSetHas (processed (snd r)) id = true)
    /\ (forall t, In t l -> translatable t = true ->
                  weakSetHas (processed (snd r)) (itemId t) = true)
    /\ (forall t, In t (fst r) -> translatable t = true ->
                  weakSetHas (processed (snd r)) (itemId t) = true).
Proof.
  induction l as [|[[anc id] v] l IH]; intros s.
  - simpl. repeat split; intros; auto; contradiction.
  - cbn zeta. simpl visitAll.
    destruct (translateTextNode dict cfg b anc id v s) as [v' s1] eqn:Hv.
    specialize (IH s1). cbn zeta in IH.
    destruct (visitAll (translateTextNode dict cfg b) l s1) as [l' s2].
    simpl in *. destruct IH as (Hmono & Hin & Hout).
    assert (Hstep : forall id', weakSetHas (processed s) id' = true ->
                                weakSetHas (processed s1) id' = true).
    { intros id' H. destruct (acceptNode b anc id v s) eqn:Ha.
      - pose proof (translateTextNode_state dict cfg b anc id v s Ha) as Hp.
        rewrite Hv in Hp. simpl in Hp. rewrite Hp, weakSetHas_add, H.
        reflexivity.
      - rewrite (translateTextNode_rejected dict cfg b anc id v s Ha) in Hv.
        injection Hv as <- <-. assumption. }
    assert (Hhead : forall v0, (v0 = v \/ v0 = v') ->
              translatable (anc, id, v0) = true ->
              weakSetHas (processed s1) id = true).
    { intros v0 Hv0 Ht. destruct (acceptNode b anc id v s) eqn:Ha.
      - pose proof (translateTextNode_state dict cfg b anc id v s Ha) as Hp.
        rewrite Hv in Hp. simpl in Hp. rewrite Hp, weakSetHas_add, N.eqb_refl.
        apply orb_true_r.
      - rewrite (translateTextNode_rejected dict cfg b anc id v s Ha) in Hv.
        injection Hv as <- <-.
        assert (v0 = v) by (destruct Hv0; assumption). subst v0.
        rewrite acceptNode_spec, Ht in Ha. simpl in Ha.
        apply negb_false_iff, andb_true_iff in Ha. tauto. }
    repeat split.
    + intros id' H. auto.
    + intros t [<- | Ht] Htr; [|auto].
      apply Hmono. apply (Hhead v); auto.
    + intros t [<- | Ht] Htr; [|auto].
      apply Hmono. apply (Hhead v'); auto.
Qed.

(** Once every text node that passes the filter is in the processed set, an
    incremental run visits nothing. *)
Lemma translate_loop_idle (cfg : Configuration) (l : list TextItem)
    (s : Walk) :
  (forall t, In t l -> translatable t = true ->
             weakSetHas (processed s) (itemId t) = true) ->
  forall anc id v, In (anc, id, v) l ->
    translateTextNode dict cfg true anc id v s = (v, s).
Proof.
  intros H anc id v Hin. apply translateTextNode_rejected.
  rewrite acceptNode_spec.
  destruct (translatable (anc, id, v)) eqn:Ht; [|reflexivity].
  pose proof (H _ Hin Ht) as Hm. unfold itemId in Hm. simpl in Hm.
  rewrite Hm. reflexivity.
Qed.

Lemma translate_loop_pending (cfg : Configuration) (b : bool)
    (l : list TextItem) :
  forall s, NoDup (pending s) ->
    NoDup (pending (snd (visitAll (translateTextNode dict cfg b) l s))).
Proof.
  induction l as [|[[anc id] v] l IH]; intros s H; [assumption|].
  simpl. pose proof (translateTextNode_pending dict cfg b anc id v s) as Hp.
  destruct (translateTextNode dict cfg b anc id v s) as [v' s1].
  specialize (IH s1).
  destruct (visitAll (translateTextNode dict cfg b) l s1) as [l' s2].
  simpl in *. apply IH.
  destruct Hp as [-> | ->]; [assumption | apply setAdd_NoDup; assumption].
Qed.

(** The first loop of [requestAsyncTranslationForVisibleTextNodes]. *)
Lemma collect_loop (l : list TextItem) :
  forall s,
    let s' := snd (visitAll collectVisibleText l s) in
    processed s' = processed s
    /\ written s' = written s
    /\ (forall x, In x (pending s) -> In x (pending s'))
    /\ (forall t, In t l -> collectable t = true -> In (snd t) (pending s'))
    /\ (forall x, In x (pending s') ->
          In x (pending s)
          \/ exists t, In t l /\ collectable t = true /\ snd t = x)
    /\ (NoDup (pending s) -> NoDup (pending s')).
Proof.
  induction l as [|[[anc id] v] l IH]; intros s.
  - simpl. repeat split; intros; auto; contradiction.
  - cbn zeta. simpl visitAll.
    pose proof (collectVisibleText_state anc id v s) as Hs.
    destruct (collectVisibleText anc id v s) as [v' s1]. cbn [snd] in Hs.
    specialize (IH s1). cbn zeta in IH.
    destruct (visitAll collectVisibleText l s1) as [l' s2].
    cbn [fst snd In] in *.
    destruct IH as (Hp & Hw & Hmono & Hin & Hfrom & Hnd).
    destruct (collectable (anc, id, v)) eqn:Hc; subst s1;
      cbn [processed pending written] in *.
    + split; [exact Hp|]. split; [exact Hw|]. split; [|split; [|split]].
      * intros x Hx. apply Hmono, setAdd_In. auto.
      * intros t [<- | Ht] Htc; [|auto].
        apply Hmono, setAdd_In. auto.
      * intros x Hx. destruct (Hfrom x Hx) as [H | (t & Ht & Htc & Hv)].
        -- apply setAdd_In in H. destruct H as [H | ->]; [auto|].
           right. exists (anc, id, v). auto.
        -- right. exists t. auto.
      * intros H. apply Hnd, setAdd_NoDup, H.
    + split; [exact Hp|]. split; [exact Hw|]. split; [|split; [|split]].
      * exact Hmono.
      * intros t [<- | Ht] Htc; [congruence | auto].
      * intros x Hx. destruct (Hfrom x Hx) as [H | (t & Ht & Htc & Hv)];
          [auto|]. right. exists t. auto.
      * exact Hnd.
Qed.

(** One step of the loop that applies a list of translations: the node is
    left as it is or with its reconciled value, and with the latter unless
    the loop has been left. *)
Lemma applyTranslation_step (texts : list jsstring)
    (translatedList : list JsValue) (anc : list Element) (id : N)
    (v : jsstring) (s : Walk * option JsError) :
  let r := applyTranslation texts translatedList anc id v s in
  (fst r = v \/ fst r = reconciled texts translatedList anc v)
  /\ (snd (snd r) = None ->
      snd s = None /\ fst r = reconciled texts translatedList anc v)
  /\ processed (fst (snd r)) = processed (fst s)
  /\ pending (fst (snd r)) = pending (fst s).
Proof.
  cbn zeta. unfold applyTranslation, reconciled.
  destruct (snd s) as [e|] eqn:He.
  { cbn [fst snd]. rewrite He. repeat split; auto; discriminate. }
  destruct (match anc with [] => true | _ => shouldSkipElement anc end);
    [cbn [fst snd]; auto|].
  destruct (isEmpty (trim v)); [cbn [fst snd]; auto|].
  destruct (indexOf texts v); [|cbn [fst snd]; auto].
  destruct (truthy _ && differsFrom _ v); [|cbn [fst snd]; auto].
  destruct (valueToString _) as [e | text]; cbn [fst snd processed pending];
    repeat split; auto; discriminate.
Qed.

(** The loop that applies a list of translations: every node is left as it
    is or with its reconciled value; when the loop runs to its end, it is a
    map, and what it leaves in a node depends on the node alone. *)
Lemma apply_loop (texts : list jsstring) (translatedList : list JsValue)
    (l : list TextItem) :
  forall s,
    let r := visitAll (applyTranslation texts translatedList) l s in
    Forall2 (fun t t' : TextItem =>
               fst t' = fst t
               /\ (snd t' = snd t
                   \/ snd t' = reconciled texts translatedList
                                 (fst (fst t)) (snd t)))
      l (fst r)
    /\ (snd (snd r) = None ->
        snd s = None
        /\ fst r
           = map (fun t : TextItem =>
                    (fst t,
                     reconciled texts translatedList (fst (fst t)) (snd t)))
               l)
    /\ processed (fst (snd r)) = processed (fst s)
    /\ pending (fst (snd r)) = pending (fst s).
Proof.
  induction l as [|[[anc id] v] l IH]; intros s; cbn zeta.
  { simpl. repeat split; auto. }
  simpl visitAll.
  pose proof (applyTranslation_step texts translatedList anc id v s) as Hb.
  cbn zeta in Hb.
  destruct (applyTranslation texts translatedList anc id v s) as [v' s1].
  specialize (IH s1). cbn zeta in IH.
  destruct (visitAll (applyTranslation texts translatedList) l s1)
    as [l' s2].
  cbn [fst snd] in *.
  destruct Hb as (Hv & Hn1 & Hp1 & Hq1). destruct IH as (Hl & Hn2 & Hp2 & Hq2).
  split; [|split; [|split; congruence]].
  - constructor; [|exact Hl]. cbn [fst snd]. auto.
  - intros Hn. destruct (Hn2 Hn) as (Hs1 & ->).
    destruct (Hn1 Hs1) as (Hs & ->). auto.
Qed.

(** A list of translations that all have a string conversion is applied to
    the end. *)
Lemma applyTranslation_converts (texts : list jsstring)
    (translatedList : list JsValue) (anc : list Element) (id : N)
    (v : jsstring) (s : Walk * option JsError) :
  (forall c, In c translatedList -> exists text, valueToString c = inr text) ->
  snd s = None ->
  snd (snd (applyTranslation texts translatedList anc id v s)) = None.
Proof.
  intros Hc Hs. unfold applyTranslation. rewrite Hs.
  destruct (match anc with [] => true | _ => shouldSkipElement anc end);
    [exact Hs|].
  destruct (isEmpty (trim v)); [exact Hs|].
  destruct (indexOf texts v) as [i|]; [|exact Hs].
  destruct (truthy _ && differsFrom _ v); [|exact Hs].
  destruct (nth_in_or_default i translatedList None) as [Hi | ->].
  - destruct (Hc _ Hi) as (text & ->). reflexivity.
  - reflexivity.
Qed.

Lemma apply_loop_converts (texts : list jsstring)
    (translatedList : list JsValue) (l : list TextItem) :
  (forall c, In c translatedList -> exists text, valueToString c = inr text) ->
  forall s,
    snd s = None ->
    snd (snd (visitAll (applyTranslation texts translatedList) l s)) = None.
Proof.
  intros Hc. induction l as [|[[anc id] v] l IH]; intros s Hs; [exact Hs|].
  simpl visitAll.
  pose proof (applyTranslation_converts texts translatedList anc id v s Hc Hs)
    as Hb.
  destruct (applyTranslation texts translatedList anc id v s) as [v' s1].
  specialize (IH s1 Hb).
  destruct (visitAll (applyTranslation texts translatedList) l s1)
    as [l' s2].
  exact IH.
Qed.
End Loops.

(** ** The text-node pass on the state of the script *)
Section TextPass.
Context {U : Unicode}.
Variable dict : list (jsstring * jsstring).

Lemma translateTextNodesIn_walked (b : bool) (w : World) :
  translateTextNodesIn dict b w
  = if useTranslationApi (currentConfiguration w)
    then requestAsyncTranslationForVisibleTextNodes (walked dict b w)
    else walked dict b w.
Proof. reflexivity. Qed.

Lemma afterWalk_same (w : World) :
  afterWalk w (document w, walkOf w) (pendingAsyncTimer w) = w.
Proof. destruct w; reflexivity. Qed.

Lemma walked_texts (b : bool) (w : World) :
  (bodyTexts (document (walked dict b w)),
   {| processed := translatedTextNodeWeakSet (walked dict b w);
      pending := pendingAsyncTextsSet (walked dict b w);
      written := nodeValueWrites (walked dict b w) |})
  = visitAll (translateTextNode dict (currentConfiguration w) b)
      (bodyTexts (document w)) (walkOf w).
Proof.
  rewrite <- walkBody_texts. unfold walked. cbn.
  destruct (snd (walkBody _ (document w) (walkOf w))); reflexivity.
Qed.

Lemma request_document (w : World) :
  document (requestAsyncTranslationForVisibleTextNodes w) = document w.
Proof.
  unfold requestAsyncTranslationForVisibleTextNodes.
  destruct (negb (useTranslationApi (currentConfiguration w)));
    [reflexivity|].
  cbn. apply walkBody_reads. intros; apply collectVisibleText_value.
Qed.

Lemma request_state (w : World) :
  let w' := requestAsyncTranslationForVisibleTextNodes w in
  translatedTextNodeWeakSet w' = translatedTextNodeWeakSet w
  /\ nodeValueWrites w' = nodeValueWrites w
  /\ currentConfiguration w' = currentConfiguration w
  /\ attributeRequests w' = attributeRequests w
  /\ batchRequests w' = batchRequests w
  /\ console w' = console w.
Proof.
  cbn zeta. unfold requestAsyncTranslationForVisibleTextNodes.
  destruct (negb (useTranslationApi (currentConfiguration w)));
    [repeat split|].
  cbn.
  pose proof (f_equal snd (walkBody_texts Walk collectVisibleText (document w)
                             (walkOf w))) as H.
  cbn [snd] in H. rewrite H.
  destruct (collect_loop (bodyTexts (document w)) (walkOf w))
    as (Hp & Hw & _).
  repeat split; assumption.
Qed.

Lemma request_pending (w : World) :
  useTranslationApi (currentConfiguration w) = true ->
  pendingAsyncTextsSet (requestAsyncTranslationForVisibleTextNodes w)
  = pending (snd (visitAll collectVisibleText (bodyTexts (document w))
                    (walkOf w)))
  /\ pendingAsyncTimer (requestAsyncTranslationForVisibleTextNodes w) = true.
Proof.
  intros H. unfold requestAsyncTranslationForVisibleTextNodes. rewrite H.
  cbn.
  pose proof (f_equal snd (walkBody_texts Walk collectVisibleText (document w)
                             (walkOf w))) as Hs.
  cbn [snd] in Hs. rewrite Hs. split; reflexivity.
Qed.

Lemma walked_configuration (b : bool) (w : World) :
  currentConfiguration (walked dict b w) = currentConfiguration w.
Proof. reflexivity. Qed.

(** After a run, every text node of the body that passes the filter is in
    the processed set. *)
Lemma translateTextNodesIn_marks (b : bool) (w : World) :
  let w' := translateTextNodesIn dict b w in
  (forall t, In t (bodyTexts (document w)) -> translatable t = true ->
     weakSetHas (translatedTextNodeWeakSet w') (itemId t) = true)
  /\ (forall t, In t (bodyTexts (document w')) -> translatable t = true ->
        weakSetHas (translatedTextNodeWeakSet w') (itemId t) = true).
Proof.
  cbn zeta.
  assert (Hw : document (translateTextNodesIn dict b w)
               = document (walked dict b w)
               /\ translatedTextNodeWeakSet (translateTextNodesIn dict b w)
                  = translatedTextNodeWeakSet (walked dict b w)).
  { rewrite translateTextNodesIn_walked.
    destruct (useTranslationApi (currentConfiguration w)); [|split; reflexivity].
    split; [apply request_document | apply (request_state (walked dict b w))]. }
  destruct Hw as [-> ->].
  pose proof (walked_texts b w) as Ht.
  pose proof (translate_loop_marks dict (currentConfiguration w) b
                (bodyTexts (document w)) (walkOf w)) as Hm.
  cbn zeta in Hm. rewrite <- Ht in Hm. cbn [fst snd processed] in Hm.
  destruct Hm as (_ & Hin & Hout). split; assumption.
Qed.

(** An incremental run right after a run finds nothing to visit. *)
Lemma walked_again (b : bool) (w : World) :
  let w1 := translateTextNodesIn dict b w in
  walked dict true w1 = w1.
Proof.
  cbn zeta. set (w1 := translateTextNodesIn dict b w).
  unfold walked. rewrite walkBody_unchanged; [apply afterWalk_same|].
  apply translate_loop_idle.
  apply (proj2 (translateTextNodesIn_marks b w)).
Qed.
End TextPass.

(** ** Attributes *)

Lemma getAttribute_set_other (attrs : list (jsstring * jsstring))
    (name value other : jsstring) :
  name <> other ->
  getAttribute (setAttributeIn attrs name value) other
  = getAttribute attrs other.
Proof.
  intros Hne. induction attrs as [|[n v] r IH]; simpl.
  - apply jsstring_eqb_neq in Hne. rewrite Hne. reflexivity.
  - destruct (jsstring_eqb n name) eqn:He; simpl.
    + apply jsstring_eqb_eq in He. subst n.
      apply jsstring_eqb_neq in Hne. rewrite Hne. reflexivity.
    + destruct (jsstring_eqb n other); [reflexivity | exact IH].
Qed.

Lemma getAttribute_set_same (attrs : list (jsstring * jsstring))
    (name value : jsstring) :
  getAttribute (setAttributeIn attrs name value) name = Some value.
Proof.
  induction attrs as [|[n v] r IH]; simpl.
  - rewrite jsstring_eqb_refl. reflexivity.
  - destruct (jsstring_eqb n name) eqn:He; simpl; rewrite He;
      [reflexivity | exact IH].
Qed.

Lemma skipKey_setAttribute (e : Element) (name value : jsstring) :
  name <> js "class" -> name <> js "data-no-translate" ->
  skipKey (setAttribute e name value) = skipKey e.
Proof.
  intros Hc Hn. unfold skipKey, matchesNoTranslate, hasAttribute. simpl.
  rewrite !getAttribute_set_other by assumption. reflexivity.
Qed.

Lemma skipKey_translated (e : Element) (a : AttributeName) (value : jsstring) :
  skipKey (setAttribute e (attributeNameString a) value) = skipKey e.
Proof. apply skipKey_setAttribute; destruct a; discriminate. Qed.

Lemma existsb_through (A B : Type) (f : B -> bool) (g : A -> B)
    (l : list A) :
  existsb (fun x => f (g x)) l = existsb f (map g l).
Proof.
  induction l as [|x l IH]; simpl; [reflexivity | rewrite IH; reflexivity].
Qed.

Section SkipFacts.
Context {U : Unicode}.

(** [shouldSkipElement] reads nothing but the [skipKey] of the element and of
    its ancestors. *)
Lemma shouldSkipElement_keys (a b : list Element) :
  map skipKey a = map skipKey b ->
  shouldSkipElement a = shouldSkipElement b.
Proof.
  intros H.
  assert (E1 : forall l, existsb matchesNoTranslate l
                         = existsb (fun k => snd (fst k)) (map skipKey l)).
  { intros l. exact (existsb_through _ _ (fun k => snd (fst k)) skipKey l). }
  assert (E2 : forall l,
             existsb matchesCodeRegion l
             = existsb (fun k => existsb (memberOf codeRegionClasses)
                                   match snd k with
                                   | Some v => splitOnWhitespace [] v
                                   | None => []
                                   end) (map skipKey l)).
  { intros l.
    exact (existsb_through _ _
             (fun k => existsb (memberOf codeRegionClasses)
                         match snd k with
                         | Some v => splitOnWhitespace [] v
                         | None => []
                         end) skipKey l). }
  assert (E3 : forall l,
             existsb matchesSvgOrMath l
             = existsb (fun k => memberOf [js "svg"; js "math"]
                                   (snd (fst (fst (fst k)))))
                 (map skipKey l)).
  { intros l.
    exact (existsb_through _ _
             (fun k => memberOf [js "svg"; js "math"]
                         (snd (fst (fst (fst k)))))
             skipKey l). }
  destruct a as [|x a], b as [|y b]; try discriminate; [reflexivity|].
  assert (Hxy : skipKey x = skipKey y).
  { change (hd (skipKey x) (map skipKey (x :: a))
            = hd (skipKey x) (map skipKey (y :: b))).
    rewrite H. reflexivity. }
  assert (Ht : tagName x = tagName y).
  { unfold tagName, qualifiedName.
    change (prefix x) with (fst (fst (fst (fst (skipKey x))))).
    change (localName x) with (snd (fst (fst (fst (skipKey x))))).
    change (inHTMLNamespace x) with (snd (fst (fst (skipKey x)))).
    rewrite Hxy. reflexivity. }
  unfold shouldSkipElement, closest.
  rewrite (E1 (x :: a)), (E2 (x :: a)), (E3 (x :: a)), H, Ht.
  rewrite <- (E1 (y :: b)), <- (E2 (y :: b)), <- (E3 (y :: b)).
  reflexivity.
Qed.

Lemma sameItem_skip (t t' : TextItem) :
  sameItem t t' ->
  shouldSkipElement (fst (fst t)) = shouldSkipElement (fst (fst t')).
Proof. intros (H & _). apply shouldSkipElement_keys, H. Qed.

Lemma sameItems_ineligible (l l' : list TextItem) :
  Forall2 sameItem l l' ->
  map (fun t : TextItem => (snd (fst t), snd t))
    (filter (fun t : TextItem => shouldSkipElement (fst (fst t))) l)
  = map (fun t : TextItem => (snd (fst t), snd t))
      (filter (fun t : TextItem => shouldSkipElement (fst (fst t))) l').
Proof.
  induction 1 as [|t t' l l' Ht Hl IH]; [reflexivity|].
  simpl. rewrite (sameItem_skip t t' Ht).
  destruct (shouldSkipElement (fst (fst t'))); [|exact IH].
  simpl. destruct Ht as (_ & -> & ->). rewrite IH. reflexivity.
Qed.
End SkipFacts.

Section ElementWalkFacts.
Variable State : Type.
Variable visit : list Element -> Element -> State -> Element * State.

Lemma mapElement_element (ancestors : list Element) (e : Element)
    (children : list Node) (s : State) :
  mapElement visit ancestors (ElementNode e children) s
  = let '(e', s0) := visit ancestors e s in
    let '(children', s') := mapElements visit (e' :: ancestors) children s0 in
    (ElementNode e' children', s').
Proof.
  simpl. destruct (visit ancestors e s) as [e' s0].
  match goal with
  | |- (let '(_, _) := ?f children s0 in _) = _ =>
      assert (H : forall l s1,
                 f l s1 = mapElements visit (e' :: ancestors) l s1)
  end.
  { induction l as [|c r IH]; intros s1; [reflexivity|].
    simpl. destruct (mapElement visit (e' :: ancestors) c s1) as [c' s2].
    rewrite IH. reflexivity. }
  rewrite H. reflexivity.
Qed.

Lemma elementsOfNode_element (e : Element) (children : list Node) :
  elementsOfNode (ElementNode e children) = e :: elementsOfNodes children.
Proof.
  simpl; f_equal; induction children as [|c r IH]; simpl;
    try rewrite IH; reflexivity.
Qed.

Hypothesis visit_keys :
  forall anc e s, skipKey (fst (visit anc e s)) = skipKey e.

Lemma sameItems_app (a a' b b' : list TextItem) :
  Forall2 sameItem a a' -> Forall2 sameItem b b' ->
  Forall2 sameItem (a ++ b) (a' ++ b').
Proof. intros Ha Hb. apply Forall2_app; assumption. Qed.

Lemma mapElement_texts (n : Node) :
  forall anc anc' s,
    map skipKey anc = map skipKey anc' ->
    Forall2 sameItem (textsOfNode anc n)
      (textsOfNode anc' (fst (mapElement visit anc' n s))).
Proof.
  induction n as [id value | e children IH] using Node_induction;
    intros anc anc' s Hk.
  - simpl. constructor; [|constructor]. repeat split; assumption.
  - rewrite mapElement_element. pose proof (visit_keys anc' e s) as He.
    destruct (visit anc' e s) as [e' s0]. simpl in He.
    assert (Hl : forall s1,
               Forall2 sameItem (textsOfNodes (e :: anc) children)
                 (textsOfNodes (e' :: anc')
                    (fst (mapElements visit (e' :: anc') children s1)))).
    { induction IH as [|c r Hc Hr IHr]; intros s1; [constructor|].
      simpl. specialize (Hc (e :: anc) (e' :: anc') s1).
      destruct (mapElement visit (e' :: anc') c s1) as [c' s2].
      specialize (IHr s2).
      destruct (mapElements visit (e' :: anc') r s2) as [r' s3].
      simpl in *. apply sameItems_app; [|exact IHr].
      apply Hc. congruence. }
    specialize (Hl s0).
    destruct (mapElements visit (e' :: anc') children s0) as [ch' s'].
    cbn [fst]. rewrite !textsOfNode_element. exact Hl.
Qed.

Lemma mapElements_texts (l : list Node) :
  forall anc anc' s,
    map skipKey anc = map skipKey anc' ->
    Forall2 sameItem (textsOfNodes anc l)
      (textsOfNodes anc' (fst (mapElements visit anc' l s))).
Proof.
  induction l as [|c r IH]; intros anc anc' s Hk; [constructor|].
  simpl. pose proof (mapElement_texts c anc anc' s Hk) as Hc.
  destruct (mapElement visit anc' c s) as [c' s1].
  specialize (IH anc anc' s1 Hk).
  destruct (mapElements visit anc' r s1) as [r' s2].
  simpl in *. apply sameItems_app; assumption.
Qed.

Lemma mapDocument_texts (d : Document) (s : State) :
  Forall2 sameItem (bodyTexts d) (bodyTexts (fst (mapDocument visit d s))).
Proof.
  unfold mapDocument, bodyTexts.
  pose proof (visit_keys [] (documentElement d) s) as Hh.
  destruct (visit [] (documentElement d) s) as [html' s0]. simpl in Hh.
  destruct (mapElements visit [html'] (headNodes d) s0) as [head' s1].
  pose proof (visit_keys [html'] (body d) s1) as Hb.
  destruct (visit [html'] (body d) s1) as [body' s2]. simpl in Hb.
  pose proof (mapElements_texts (bodyNodes d) [body d; documentElement d]
                [body'; html'] s2) as Ht.
  destruct (mapElements visit [body'; html'] (bodyNodes d) s2)
    as [nodes' s3].
  destruct (mapElements visit [html'] (tailNodes d) s3) as [tail' s4].
  simpl in *. apply Ht. congruence.
Qed.
End ElementWalkFacts.

(** ** What the callbacks leave alone *)
Section Frames.
Context {U : Unicode}.
Variable dict : list (jsstring * jsstring).

Lemma translateAttribute_key (cfg : Configuration) (es : Element * Requests)
    (a : AttributeName) :
  skipKey (fst (translateAttribute dict cfg es a)) = skipKey (fst es).
Proof.
  unfold translateAttribute. destruct es as [e s].
  destruct (getAttribute (attributes e) (attributeNameString a)) as [o|];
    [|reflexivity].
  destruct (isEmpty o); [reflexivity|].
  destruct (negb (jsstring_eqb (translateByDictionary dict o) o));
    [apply skipKey_translated|].
  destruct (useTranslationApi cfg); reflexivity.
Qed.

Lemma translateElementAttributes_key (cfg : Configuration)
    (anc : list Element) (e : Element) (s : Requests) :
  skipKey (fst (translateElementAttributes dict cfg anc e s)) = skipKey e.
Proof.
  unfold translateElementAttributes.
  destruct (attributeSelector e); [|reflexivity].
  destruct (shouldSkipElement (e :: anc)); [reflexivity|].
  unfold attributesToTranslate. cbn [fold_left].
  rewrite !translateAttribute_key. reflexivity.
Qed.

Lemma attributes_ineligible (w : World) :
  ineligibleTexts (document (translateAttributesForInteractiveElements dict w))
  = ineligibleTexts (document w).
Proof.
  unfold translateAttributesForInteractiveElements, ineligibleTexts. cbn.
  symmetry. apply sameItems_ineligible, mapDocument_texts.
  intros; apply translateElementAttributes_key.
Qed.

Lemma setAttributeOf_ineligible (id : N) (a : AttributeName)
    (value : jsstring) (d : Document) :
  ineligibleTexts (setAttributeOf id (attributeNameString a) value d)
  = ineligibleTexts d.
Proof.
  unfold setAttributeOf, ineligibleTexts.
  symmetry. apply sameItems_ineligible, mapDocument_texts.
  intros anc e s. simpl.
  destruct (elementId e =? id)%N; [apply skipKey_translated | reflexivity].
Qed.

Lemma attributeResponse_ineligible (n : nat) (outcome : FetchOutcome)
    (w : World) :
  ineligibleTexts (document (attributeResponseArrives n outcome w))
  = ineligibleTexts (document w).
Proof.
  unfold attributeResponseArrives.
  destruct (nth_error (attributeRequests w) n) as [r|]; [|reflexivity].
  destruct (translateByOptionalApi_settled _ _ _) as [text logs].
  destruct (truthy text && differsFrom text (requestOriginal r));
    [|reflexivity].
  destruct (valueToString text) as [e | value]; [reflexivity|].
  cbn. apply setAttributeOf_ineligible.
Qed.

(** A loop over the text nodes that leaves the nodes under a skipped parent
    as they are. *)
Lemma walk_ineligible (State : Type)
    (visit : list Element -> N -> jsstring -> State -> jsstring * State)
    (d : Document) (s : State) :
  (forall anc id v s0,
      shouldSkipElement anc = true -> fst (visit anc id v s0) = v) ->
  ineligibleTexts (fst (walkBody visit d s)) = ineligibleTexts d.
Proof.
  intros H. unfold ineligibleTexts.
  pose proof (f_equal fst (walkBody_texts State visit d s)) as Ht.
  cbn [fst] in Ht. rewrite Ht.
  rewrite (visitAll_keeps State visit shouldSkipElement H). reflexivity.
Qed.

Lemma request_ineligible (w : World) :
  ineligibleTexts (document (requestAsyncTranslationForVisibleTextNodes w))
  = ineligibleTexts (document w).
Proof. rewrite request_document. reflexivity. Qed.

Lemma translateTextNodesIn_ineligible (b : bool) (w : World) :
  ineligibleTexts (document (translateTextNodesIn dict b w))
  = ineligibleTexts (document w).
Proof.
  rewrite translateTextNodesIn_walked.
  assert (Hw : ineligibleTexts (document (walked dict b w))
               = ineligibleTexts (document w)).
  { unfold walked. cbn. apply walk_ineligible.
    intros; apply translateTextNode_skipped; assumption. }
  destruct (useTranslationApi (currentConfiguration w)); [|exact Hw].
  rewrite request_ineligible. exact Hw.
Qed.

(** What [applyBatchResult] leaves of the state: the document and the
    writes of the loop, and one more line on the console if the loop has
    been left. *)
Lemma applyBatchResult_applied (w : World) (texts : list jsstring)
    (translatedList : list JsValue) :
  let r :=
    walkBody (applyTranslation texts translatedList) (document w)
      (walkOf w, None) in
  let w' := applyBatchResult w texts (inr translatedList) in
  document w' = fst r
  /\ translatedTextNodeWeakSet w' = processed (fst (snd r))
  /\ pendingAsyncTextsSet w' = pending (fst (snd r))
  /\ nodeValueWrites w' = written (fst (snd r))
  /\ console w'
     = console w ++ match snd (snd r) with
                    | Some e => [WarnBatchFailed e]
                    | None => []
                    end
  /\ currentConfiguration w' = currentConfiguration w
  /\ pendingAsyncTimer w' = pendingAsyncTimer w
  /\ attributeRequests w' = attributeRequests w
  /\ batchRequests w' = batchRequests w
  /\ observing w' = observing w
  /\ listening w' = listening w
  /\ reloadRequested w' = reloadRequested w.
Proof.
  cbn zeta. unfold applyBatchResult.
  destruct (snd (snd (walkBody (applyTranslation texts translatedList)
                        (document w) (walkOf w, None)))) as [e|];
    cbn; rewrite ?app_nil_r; repeat split; reflexivity.
Qed.

Lemma applyBatchResult_ineligible (w : World) (texts : list jsstring)
    (result : JsError + list JsValue) :
  ineligibleTexts (document (applyBatchResult w texts result))
  = ineligibleTexts (document w).
Proof.
  destruct result as [e | translatedList]; [reflexivity|].
  rewrite (proj1 (applyBatchResult_applied w texts translatedList)).
  apply walk_ineligible.
  intros; apply applyTranslation_skipped; assumption.
Qed.

Lemma batchResponse_ineligible (n : nat) (outcome : FetchOutcome)
    (w : World) :
  ineligibleTexts (document (batchResponseArrives n outcome w))
  = ineligibleTexts (document w).
Proof.
  unfold batchResponseArrives.
  destruct (nth_error (batchRequests w) n) as [b|]; [|reflexivity].
  rewrite applyBatchResult_ineligible. reflexivity.
Qed.

Lemma translateEntire_ineligible (w : World) :
  ineligibleTexts (document (translateEntireDocumentNow dict w))
  = ineligibleTexts (document w).
Proof.
  unfold translateEntireDocumentNow.
  rewrite attributes_ineligible. apply translateTextNodesIn_ineligible.
Qed.

Lemma setEnabled_ineligible (value : bool) (w : World) :
  ineligibleTexts (document (setEnabled dict value w))
  = ineligibleTexts (document w).
Proof.
  unfold setEnabled. destruct value; [|reflexivity].
  rewrite translateEntire_ineligible. reflexivity.
Qed.

(** No callback of the script writes a text node whose parent
    [shouldSkipElement] rejects. *)
Lemma handle_ineligible (e : Event) (w : World) :
  isEngineEvent e = true ->
  ineligibleTexts (document (handle dict e w)) = ineligibleTexts (document w).
Proof.
  destruct e; simpl; intros He; try discriminate.
  - unfold observerCallback.
    destruct (negb (isEnabledOnGithub (currentConfiguration w)));
      [reflexivity|].
    rewrite attributes_ineligible. apply translateTextNodesIn_ineligible.
  - apply translateEntire_ineligible.
  - apply setEnabled_ineligible.
  - apply translateEntire_ineligible.
  - apply setEnabled_ineligible.
  - reflexivity.
  - apply batchResponse_ineligible.
  - apply attributeResponse_ineligible.
Qed.

Lemma run_ineligible (events : list Event) :
  forallb isEngineEvent events = true ->
  forall w,
    ineligibleTexts (document (run dict events w))
    = ineligibleTexts (document w).
Proof.
  induction events as [|e events IH]; intros H w; [reflexivity|].
  simpl in H. apply andb_true_iff in H. destruct H as [He Hr].
  simpl. rewrite IH by assumption.
  unfold step. destruct (enabledEvent w e); [|reflexivity].
  apply handle_ineligible, He.
Qed.
End Frames.

(** ** The pending set *)
Section PendingFacts.
Context {U : Unicode}.
Variable dict : list (jsstring * jsstring).

Lemma walked_pending (b : bool) (w : World) :
  NoDup (pendingAsyncTextsSet w) ->
  NoDup (pendingAsyncTextsSet (walked dict b w)).
Proof.
  intros H.
  pose proof (f_equal (fun r => pending (snd r)) (walked_texts dict b w))
    as Hp.
  cbn [snd pending] in Hp. rewrite Hp.
  apply translate_loop_pending. exact H.
Qed.

Lemma request_pending_NoDup (w : World) :
  NoDup (pendingAsyncTextsSet w) ->
  NoDup (pendingAsyncTextsSet (requestAsyncTranslationForVisibleTextNodes w)).
Proof.
  intros H.
  destruct (useTranslationApi (currentConfiguration w)) eqn:Ha.
  - rewrite (proj1 (request_pending w Ha)).
    apply (collect_loop (bodyTexts (document w)) (walkOf w)). exact H.
  - unfold requestAsyncTranslationForVisibleTextNodes. rewrite Ha. exact H.
Qed.

Lemma translateTextNodesIn_pending (b : bool) (w : World) :
  NoDup (pendingAsyncTextsSet w) ->
  NoDup (pendingAsyncTextsSet (translateTextNodesIn dict b w)).
Proof.
  intros H. rewrite translateTextNodesIn_walked.
  destruct (useTranslationApi (currentConfiguration w)).
  - apply request_pending_NoDup, walked_pending, H.
  - apply walked_pending, H.
Qed.

Lemma attributes_pending (w : World) :
  pendingAsyncTextsSet (translateAttributesForInteractiveElements dict w)
  = pendingAsyncTextsSet w.
Proof. reflexivity. Qed.

Lemma translateEntire_pending (w : World) :
  NoDup (pendingAsyncTextsSet w) ->
  NoDup (pendingAsyncTextsSet (translateEntireDocumentNow dict w)).
Proof.
  intros H. unfold translateEntireDocumentNow. rewrite attributes_pending.
  apply translateTextNodesIn_pending, H.
Qed.

Lemma setEnabled_pending (value : bool) (w : World) :
  NoDup (pendingAsyncTextsSet w) ->
  NoDup (pendingAsyncTextsSet (setEnabled dict value w)).
Proof.
  intros H. unfold setEnabled. destruct value; [|exact H].
  apply translateEntire_pending. exact H.
Qed.

Lemma applyBatchResult_pending (w : World) (texts : list jsstring)
    (result : JsError + list JsValue) :
  pendingAsyncTextsSet (applyBatchResult w texts result)
  = pendingAsyncTextsSet w.
Proof.
  destruct result as [e | translatedList]; [reflexivity|].
  destruct (applyBatchResult_applied w texts translatedList)
    as (_ & _ & -> & _).
  pose proof (f_equal snd (walkBody_texts (Walk * option JsError)
                (applyTranslation texts translatedList) (document w)
                (walkOf w, None))) as Hs.
  cbn [snd] in Hs. rewrite Hs.
  apply (apply_loop texts translatedList (bodyTexts (document w))
           (walkOf w, None)).
Qed.

Lemma batchResponse_pending (n : nat) (outcome : FetchOutcome) (w : World) :
  pendingAsyncTextsSet (batchResponseArrives n outcome w)
  = pendingAsyncTextsSet w.
Proof.
  unfold batchResponseArrives.
  destruct (nth_error (batchRequests w) n) as [b|]; [|reflexivity].
  rewrite applyBatchResult_pending. reflexivity.
Qed.

Lemma attributeResponse_pending (n : nat) (outcome : FetchOutcome)
    (w : World) :
  pendingAsyncTextsSet (attributeResponseArrives n outcome w)
  = pendingAsyncTextsSet w.
Proof.
  unfold attributeResponseArrives.
  destruct (nth_error (attributeRequests w) n) as [r|]; [|reflexivity].
  destruct (translateByOptionalApi_settled _ _ _) as [text logs].
  destruct (truthy text && differsFrom text (requestOriginal r));
    [destruct (valueToString text) |]; reflexivity.
Qed.

(** The pending set never holds a string twice. *)
Lemma step_pending (e : Event) (w : World) :
  NoDup (pendingAsyncTextsSet w) ->
  NoDup (pendingAsyncTextsSet (step dict w e)).
Proof.
  intros H. unfold step. destruct (enabledEvent w e); [|exact H].
  destruct e; simpl.
  - unfold observerCallback.
    destruct (negb (isEnabledOnGithub (currentConfiguration w))); [exact H|].
    rewrite attributes_pending. apply translateTextNodesIn_pending, H.
  - apply translateEntire_pending, H.
  - apply setEnabled_pending, H.
  - apply translateEntire_pending, H.
  - apply setEnabled_pending, H.
  - constructor.
  - rewrite batchResponse_pending. exact H.
  - rewrite attributeResponse_pending. exact H.
  - exact H.
Qed.

Lemma run_pending (events : list Event) :
  forall w, NoDup (pendingAsyncTextsSet w) ->
            NoDup (pendingAsyncTextsSet (run dict events w)).
Proof.
  induction events as [|e events IH]; intros w H; [exact H|].
  simpl. apply IH, step_pending, H.
Qed.

Lemma initialize_pending (d : Document) (stored : option Configuration) :
  NoDup (pendingAsyncTextsSet (initializeJapaneseTranslator dict d stored)).
Proof.
  unfold initializeJapaneseTranslator.
  destruct stored as [cfg|]; [|constructor].
  destruct (negb (isEnabledOnGithub cfg)); [constructor|].
  cbn. unfold startObservingAndTranslating. cbn.
  apply translateEntire_pending. constructor.
Qed.
End PendingFacts.

(** ** Responses *)
Section ResponseFacts.
Context {U : Unicode}.

Lemma applyTranslation_without_candidates (texts : list jsstring)
    (anc : list Element) (id : N) (v : jsstring)
    (s : Walk * option JsError) :
  applyTranslation texts [] anc id v s = (v, s).
Proof.
  unfold applyTranslation.
  destruct (snd s); [reflexivity|].
  destruct (match anc with [] => true | _ => shouldSkipElement anc end);
    [reflexivity|].
  destruct (isEmpty (trim v)); [reflexivity|].
  destruct (indexOf texts v) as [i|]; [|reflexivity].
  destruct i; reflexivity.
Qed.

(** An empty list of translations writes nothing. *)
Lemma applyBatchResult_empty (w : World) (texts : list jsstring) :
  applyBatchResult w texts (inr []) = w.
Proof.
  unfold applyBatchResult.
  rewrite walkBody_unchanged; [apply afterWalk_same|].
  intros; apply applyTranslation_without_candidates.
Qed.

Lemma reconciled_without_conversion (texts : list jsstring)
    (translatedList : list JsValue) (anc : list Element) (v : jsstring) :
  reconciled texts translatedList anc v = v
  \/ exists i,
       indexOf texts v = Some i
       /\ valueToString (nth i translatedList None)
          = inr (reconciled texts translatedList anc v).
Proof.
  unfold reconciled.
  destruct (match anc with [] => true | _ => shouldSkipElement anc end);
    [auto|].
  destruct (isEmpty (trim v)); [auto|].
  destruct (indexOf texts v) as [i|] eqn:Hi; [|auto].
  destruct (truthy _ && differsFrom _ v); [|auto].
  destruct (valueToString (nth i translatedList None)) as [e | text] eqn:Hv;
    [auto|].
  right. exists i. auto.
Qed.

Lemma reconciled_only_sent (texts : list jsstring)
    (translatedList : list JsValue) (anc : list Element) (v : jsstring) :
  reconciled texts translatedList anc v = v \/ In v texts.
Proof.
  unfold reconciled.
  destruct (match anc with [] => true | _ => shouldSkipElement anc end);
    [auto|].
  destruct (isEmpty (trim v)); [auto|].
  destruct (indexOf texts v) as [i|] eqn:Hi; [|auto].
  right. apply indexOf_Some_In with i. exact Hi.
Qed.

(** The text nodes after a list of translations has been applied: each is
    left as it was or with its reconciled value. *)
Lemma applyBatchResult_texts (w : World) (texts : list jsstring)
    (translatedList : list JsValue) :
  Forall2 (fun t t' : TextItem =>
             fst t' = fst t
             /\ (snd t' = snd t
                 \/ snd t' = reconciled texts translatedList
                               (fst (fst t)) (snd t)))
    (bodyTexts (document w))
    (bodyTexts (document (applyBatchResult w texts (inr translatedList)))).
Proof.
  rewrite (proj1 (applyBatchResult_applied w texts translatedList)).
  pose proof (f_equal fst (walkBody_texts (Walk * option JsError)
                (applyTranslation texts translatedList) (document w)
                (walkOf w, None))) as Ht.
  cbn [fst] in Ht. rewrite Ht.
  apply (apply_loop texts translatedList (bodyTexts (document w))
           (walkOf w, None)).
Qed.

(** When every translation of the list has a string conversion, the loop
    runs to its end, nothing is logged, and the text nodes are left with
    their reconciled values. *)
Lemma applyBatchResult_converted (w : World) (texts : list jsstring)
    (translatedList : list JsValue) :
  (forall c, In c translatedList -> exists text, valueToString c = inr text) ->
  bodyTexts (document (applyBatchResult w texts (inr translatedList)))
  = map (fun t : TextItem =>
           (fst t, reconciled texts translatedList (fst (fst t)) (snd t)))
      (bodyTexts (document w))
  /\ console (applyBatchResult w texts (inr translatedList)) = console w.
Proof.
  intros Hc.
  destruct (applyBatchResult_applied w texts translatedList)
    as (-> & _ & _ & _ & -> & _).
  pose proof (walkBody_texts (Walk * option JsError)
                (applyTranslation texts translatedList) (document w)
                (walkOf w, None)) as Ht.
  pose proof (apply_loop_converts texts translatedList
                (bodyTexts (document w)) Hc (walkOf w, None) eq_refl) as Hn.
  rewrite <- Ht in Hn. cbn [snd] in Hn. rewrite Hn, app_nil_r.
  split; [|reflexivity].
  pose proof (f_equal fst Ht) as Hf. cbn [fst] in Hf. rewrite Hf.
  apply (apply_loop texts translatedList (bodyTexts (document w))
           (walkOf w, None)).
  rewrite <- Ht. exact Hn.
Qed.

Lemma applyBatchResult_frame (w : World) (texts : list jsstring)
    (result : JsError + list JsValue) :
  let d' := document (applyBatchResult w texts result) in
  documentElement d' = documentElement (document w)
  /\ headNodes d' = headNodes (document w)
  /\ body d' = body (document w)
  /\ tailNodes d' = tailNodes (document w).
Proof.
  destruct result as [e | translatedList]; [repeat split|].
  cbn zeta. rewrite (proj1 (applyBatchResult_applied w texts translatedList)).
  apply walkBody_frame.
Qed.
End ResponseFacts.

(** ** Elements *)
Section ElementMapFacts.
Variable f : Element -> Element.

Lemma mapElement_elements (n : Node) :
  forall anc s,
    elementsOfNode (fst (mapElement (mapEach f) anc n s))
    = map f (elementsOfNode n).
Proof.
  induction n as [id value | e children IH] using Node_induction;
    intros anc s; [reflexivity|].
  rewrite mapElement_element. unfold mapEach at 1.
  assert (Hl : forall s1,
             elementsOfNodes
               (fst (mapElements (mapEach f) (f e :: anc) children s1))
             = map f (elementsOfNodes children)).
  { induction IH as [|c r Hc Hr IHr]; intros s1; [reflexivity|].
    simpl. specialize (Hc (f e :: anc) s1).
    destruct (mapElement (mapEach f) (f e :: anc) c s1) as [c' s2].
    specialize (IHr s2).
    destruct (mapElements (mapEach f) (f e :: anc) r s2) as [r' s3].
    cbn [fst elementsOfNodes] in *. rewrite map_app, Hc, IHr. reflexivity. }
  specialize (Hl s).
  destruct (mapElements (mapEach f) (f e :: anc) children s) as [ch' s'].
  cbn [fst] in *. rewrite !elementsOfNode_element. cbn [map]. rewrite Hl.
  reflexivity.
Qed.

Lemma mapElements_elements (l : list Node) :
  forall anc s,
    elementsOfNodes (fst (mapElements (mapEach f) anc l s))
    = map f (elementsOfNodes l).
Proof.
  induction l as [|c r IH]; intros anc s; [reflexivity|].
  simpl. pose proof (mapElement_elements c anc s) as Hc.
  destruct (mapElement (mapEach f) anc c s) as [c' s1].
  specialize (IH anc s1).
  destruct (mapElements (mapEach f) anc r s1) as [r' s2].
  cbn [fst elementsOfNodes] in *. rewrite map_app, Hc, IH. reflexivity.
Qed.

Lemma mapDocument_elements (d : Document) :
  elementsOf (fst (mapDocument (mapEach f) d tt)) = map f (elementsOf d).
Proof.
  unfold mapDocument, elementsOf.
  change (mapEach f [] (documentElement d) tt)
    with (f (documentElement d), tt).
  cbv iota.
  pose proof (mapElements_elements (headNodes d) [f (documentElement d)] tt)
    as Hh.
  destruct (mapElements (mapEach f) [f (documentElement d)] (headNodes d) tt)
    as [head' s1].
  change (mapEach f [f (documentElement d)] (body d) s1)
    with (f (body d), s1).
  cbv iota.
  pose proof (mapElements_elements (bodyNodes d)
                [f (body d); f (documentElement d)] s1) as Hb.
  destruct (mapElements (mapEach f) [f (body d); f (documentElement d)]
              (bodyNodes d) s1) as [nodes' s3].
  pose proof (mapElements_elements (tailNodes d) [f (documentElement d)] s3)
    as Ht.
  destruct (mapElements (mapEach f) [f (documentElement d)] (tailNodes d) s3)
    as [tail' s4].
  cbn [fst documentElement headNodes body bodyNodes tailNodes map] in *.
  rewrite map_app. cbn [map]. rewrite map_app, Hh, Hb, Ht. reflexivity.
Qed.
End ElementMapFacts.

Lemma setAttributeOf_elements (id : N) (name value : jsstring)
    (d : Document) :
  elementsOf (setAttributeOf id name value d)
  = map (fun e => if (elementId e =? id)%N then setAttribute e name value
                  else e)
      (elementsOf d).
Proof.
  exact (mapDocument_elements
           (fun e => if (elementId e =? id)%N then setAttribute e name value
                     else e) d).
Qed.

(** ** Batches in flight *)
Section BatchFacts.
Context {U : Unicode}.
Variable dict : list (jsstring * jsstring).

Lemma In_firstn (A : Type) (n : nat) (l : list A) (x : A) :
  In x (firstn n l) -> In x l.
Proof.
  revert n; induction l as [|y l IH]; intros [|n]; simpl; auto.
  - intros [].
  - intros [-> | H]; eauto.
Qed.

Lemma NoDup_firstn (A : Type) (n : nat) (l : list A) :
  NoDup l -> NoDup (firstn n l).
Proof.
  revert n; induction l as [|x l IH]; intros [|n] H; simpl;
    try constructor.
  - inversion H; subst. intros Hin. apply In_firstn in Hin. contradiction.
  - inversion H; subst. apply IH. assumption.
Qed.

Lemma removeNth_In (A : Type) (n : nat) (l : list A) (x : A) :
  In x (removeNth n l) -> In x l.
Proof.
  revert n; induction l as [|y l IH]; intros [|n]; simpl; auto.
  intros [-> | H]; eauto.
Qed.

Lemma translateTextNodesIn_batches (b : bool) (w : World) :
  batchRequests (translateTextNodesIn dict b w) = batchRequests w.
Proof.
  rewrite translateTextNodesIn_walked.
  destruct (useTranslationApi (currentConfiguration w)); [|reflexivity].
  apply (request_state (walked dict b w)).
Qed.

Lemma translateEntire_batches (w : World) :
  batchRequests (translateEntireDocumentNow dict w) = batchRequests w.
Proof.
  unfold translateEntireDocumentNow.
  change (batchRequests (translateAttributesForInteractiveElements dict ?x))
    with (batchRequests x).
  apply translateTextNodesIn_batches.
Qed.

Lemma setEnabled_batches (value : bool) (w : World) :
  batchRequests (setEnabled dict value w) = batchRequests w.
Proof.
  unfold setEnabled. destruct value; [|reflexivity].
  rewrite translateEntire_batches. reflexivity.
Qed.

Lemma applyBatchResult_batches (w : World) (texts : list jsstring)
    (result : JsError + list JsValue) :
  batchRequests (applyBatchResult w texts result) = batchRequests w.
Proof.
  destruct result as [e | translatedList]; [reflexivity|].
  apply (applyBatchResult_applied w texts translatedList).
Qed.

Lemma attributeResponse_batches (n : nat) (outcome : FetchOutcome)
    (w : World) :
  batchRequests (attributeResponseArrives n outcome w) = batchRequests w.
Proof.
  unfold attributeResponseArrives.
  destruct (nth_error (attributeRequests w) n) as [r|]; [|reflexivity].
  destruct (translateByOptionalApi_settled _ _ _) as [text logs].
  destruct (truthy text && differsFrom text (requestOriginal r));
    [destruct (valueToString text) |]; reflexivity.
Qed.

Lemma pendingTimerFires_batches (w : World) :
  NoDup (pendingAsyncTextsSet w) -> validBatches w ->
  validBatches (pendingTimerFires w).
Proof.
  intros Hnd Hv b Hb. unfold pendingTimerFires in Hb.
  cbn [batchRequests] in Hb.
  destruct (isEmpty (firstn 50 (pendingAsyncTextsSet w))); [auto|].
  apply in_app_or in Hb. destruct Hb as [Hb | [<- | []]]; [auto|].
  cbn [batchTexts]. split; [apply NoDup_firstn, Hnd | apply firstn_le_length].
Qed.

Lemma step_batches (e : Event) (w : World) :
  NoDup (pendingAsyncTextsSet w) -> validBatches w ->
  validBatches (step dict w e).
Proof.
  intros Hnd Hv. unfold step. destruct (enabledEvent w e); [|exact Hv].
  destruct e; simpl.
  - unfold observerCallback.
    destruct (negb (isEnabledOnGithub (currentConfiguration w))); [exact Hv|].
    intros b. change (batchRequests
                        (translateAttributesForInteractiveElements dict ?x))
                with (batchRequests x).
    unfold translateNewOrChangedNodes.
    rewrite translateTextNodesIn_batches. apply Hv.
  - intros b. rewrite translateEntire_batches. apply Hv.
  - intros b. unfold toggleEnabled. rewrite setEnabled_batches. apply Hv.
  - intros b. rewrite translateEntire_batches. apply Hv.
  - intros b. rewrite setEnabled_batches. apply Hv.
  - apply pendingTimerFires_batches; assumption.
  - intros b. unfold batchResponseArrives.
    destruct (nth_error (batchRequests w) n) as [b0|]; [|apply Hv].
    rewrite applyBatchResult_batches. cbn. intros Hb.
    apply Hv, removeNth_In with n, Hb.
  - intros b. rewrite attributeResponse_batches. apply Hv.
  - exact Hv.
Qed.

Lemma run_batches (events : list Event) :
  forall w, NoDup (pendingAsyncTextsSet w) -> validBatches w ->
            validBatches (run dict events w).
Proof.
  induction events as [|e events IH]; intros w Hnd Hv; [exact Hv|].
  simpl. apply IH; [apply step_pending | apply step_batches]; assumption.
Qed.

(** The script that finds itself enabled: the document, the pending set
    and the batches are those of the first full run. *)
Lemma initialize_enabled (d : Document) (cfg : Configuration) :
  isEnabledOnGithub cfg = true ->
  let w1 := withConfiguration (loaded (withLang d)) cfg false false in
  let w := initializeJapaneseTranslator dict d (Some cfg) in
  document w = document (translateEntireDocumentNow dict w1)
  /\ pendingAsyncTextsSet w
     = pendingAsyncTextsSet (translateEntireDocumentNow dict w1)
  /\ batchRequests w = batchRequests (translateEntireDocumentNow dict w1).
Proof.
  intros H. unfold initializeJapaneseTranslator. rewrite H.
  repeat split.
Qed.

Lemma initialize_batches (d : Document) (stored : option Configuration) :
  validBatches (initializeJapaneseTranslator dict d stored).
Proof.
  intros b. destruct stored as [cfg|]; [|intros []].
  destruct (isEnabledOnGithub cfg) eqn:He.
  - rewrite (proj2 (proj2 (initialize_enabled d cfg He))).
    rewrite translateEntire_batches. intros [].
  - unfold initializeJapaneseTranslator. rewrite He. intros [].
Qed.

(** A later run of [translateTextNodesIn] puts into the pending set the value
    of every text node that passes the filter of the collecting loop. *)
Lemma translateTextNodesIn_collects (b : bool) (w : World) :
  useTranslationApi (currentConfiguration w) = true ->
  let w' := translateTextNodesIn dict b w in
  pendingAsyncTimer w' = true
  /\ forall t, In t (bodyTexts (document w')) -> collectable t = true ->
               In (snd t) (pendingAsyncTextsSet w').
Proof.
  intros Ha. cbn zeta. rewrite translateTextNodesIn_walked, Ha.
  assert (Ha' : useTranslationApi (currentConfiguration (walked dict b w))
                = true) by exact Ha.
  destruct (request_pending (walked dict b w) Ha') as [Hp Ht].
  split; [exact Ht|].
  rewrite request_document, Hp. intros t Hin Hc.
  apply (collect_loop (bodyTexts (document (walked dict b w)))
           (walkOf (walked dict b w))); assumption.
Qed.
End BatchFacts.

(** ** The root element and the disabled script *)
Section RootFacts.
Context {U : Unicode}.
Variable dict : list (jsstring * jsstring).

Lemma textsOfNode_keys (n : Node) :
  forall anc anc',
    map skipKey anc = map skipKey anc' ->
    Forall2 sameItem (textsOfNode anc n) (textsOfNode anc' n).
Proof.
  induction n as [id value | e children IH] using Node_induction;
    intros anc anc' Hk.
  - simpl. constructor; [|constructor]. repeat split; assumption.
  - rewrite !textsOfNode_element.
    induction IH as [|c r Hc Hr IHr]; [constructor|].
    simpl. apply Forall2_app; [|exact IHr].
    apply Hc. simpl. congruence.
Qed.

Lemma textsOfNodes_keys (l : list Node) (anc anc' : list Element) :
  map skipKey anc = map skipKey anc' ->
  Forall2 sameItem (textsOfNodes anc l) (textsOfNodes anc' l).
Proof.
  intros Hk. induction l as [|c r IH]; [constructor|].
  simpl. apply Forall2_app; [|exact IH].
  apply textsOfNode_keys, Hk.
Qed.

Lemma withLang_ineligible (d : Document) :
  ineligibleTexts (withLang d) = ineligibleTexts d.
Proof.
  unfold ineligibleTexts. symmetry. apply sameItems_ineligible.
  unfold bodyTexts, withLang. cbn [body documentElement bodyNodes].
  apply textsOfNodes_keys. cbn [map]. f_equal. f_equal.
  symmetry. apply skipKey_setAttribute; discriminate.
Qed.

Lemma initialize_ineligible (d : Document) (stored : option Configuration) :
  ineligibleTexts (document (initializeJapaneseTranslator dict d stored))
  = ineligibleTexts d.
Proof.
  destruct stored as [cfg|]; [|apply withLang_ineligible].
  destruct (isEnabledOnGithub cfg) eqn:He.
  - rewrite (proj1 (initialize_enabled dict d cfg He)).
    rewrite translateEntire_ineligible. apply withLang_ineligible.
  - unfold initializeJapaneseTranslator. rewrite He.
    apply withLang_ineligible.
Qed.

(** The script that found itself disabled has registered no callback. *)
Lemma disabled_registers_nothing (d : Document) (cfg : Configuration)
    (e : Event) :
  isEnabledOnGithub cfg = false ->
  isEngineEvent e = true ->
  enabledEvent (initializeJapaneseTranslator dict d (Some cfg)) e = false.
Proof.
  intros Hc He. unfold initializeJapaneseTranslator. rewrite Hc. cbn.
  destruct e; try reflexivity; try discriminate; destruct n; reflexivity.
Qed.

Lemma run_without_callbacks (events : list Event) (w : World) :
  (forall e, isEngineEvent e = true -> enabledEvent w e = false) ->
  forallb isEngineEvent events = true ->
  run dict events w = w.
Proof.
  intros Hw. induction events as [|e events IH]; intros H; [reflexivity|].
  simpl in H. apply andb_true_iff in H. destruct H as [He Hr].
  change (run dict (e :: events) w) with (run dict events (step dict w e)).
  unfold step. rewrite (Hw e He). apply IH, Hr.
Qed.
End RootFacts.

Lemma Forall2_map_right (A B : Type) (R : A -> B -> Prop) (g : A -> B)
    (l : list A) :
  (forall x, R x (g x)) -> Forall2 R l (map g l).
Proof. intros H. induction l; simpl; constructor; auto. Qed.

Lemma Forall2_same (A : Type) (R : A -> A -> Prop) (l : list A) :
  (forall x, R x x) -> Forall2 R l l.
Proof. intros H. induction l; constructor; auto. Qed.

Lemma Forall2_map_eq (A B C : Type) (f : A -> C) (g : B -> C)
    (l : list A) (l' : list B) :
  Forall2 (fun a b => g b = f a) l l' -> map g l' = map f l.
Proof.
  induction 1 as [|a b l l' H _ IH]; [reflexivity|].
  simpl. rewrite H, IH. reflexivity.
Qed.


(** ** The dictionary pass on single tokens *)
Section TokenFacts.
Context {U : Unicode}.

Lemma foldEqual_whole (english text : jsstring) :
  foldedPrefix english text = true ->
  skipn (List.length english) text = [] ->
  foldEqual english text.
Proof.
  intros Hp Hs. apply foldedPrefix_spec in Hp.
  destruct Hp as (occ & suf & -> & Hf).
  rewrite (foldEqual_length Hf), skipn_app, skipn_all, Nat.sub_diag in Hs.
  simpl in Hs. subst suf. rewrite app_nil_r. exact Hf.
Qed.

Lemma beforeWord_word (s : jsstring) :
  forallb wordClass s = true -> s <> [] -> beforeWord s = true.
Proof.
  destruct s as [|c s]; [congruence|]. simpl.
  intros H _. apply andb_true_iff in H. tauto.
Qed.

Lemma afterWord_word (a : jsstring) :
  forallb wordClass a = true -> a <> [] -> afterWord (rev a) = true.
Proof.
  intros H Hne. destruct (rev a) as [|c r] eqn:E.
  - apply (f_equal (@rev N)) in E. rewrite rev_involutive in E. contradiction.
  - simpl. rewrite forallb_forall in H. apply H, in_rev. rewrite E. left.
    reflexivity.
Qed.

Lemma word_token_not_matched (english japanese text : jsstring) :
  forallb wordClass text = true ->
  ~ foldEqual english text ->
  forall a b, text = a ++ b ->
    matchTerms (pattern (compileEntry (english, japanese))) (rev a ++ []) b
    = None.
Proof.
  intros Hw Hn a b ->. rewrite match_compiled, app_nil_r.
  rewrite forallb_app in Hw. apply andb_true_iff in Hw. destruct Hw as [Ha Hb].
  destruct a as [|x a].
  - simpl. destruct (foldedPrefix english b) eqn:Hp; [|reflexivity].
    destruct (skipn (List.length english) b) as [|c s] eqn:Hs.
    + exfalso. apply Hn. apply foldEqual_whole; assumption.
    + rewrite beforeWord_word; [reflexivity | | discriminate].
      rewrite <- (firstn_skipn (List.length english) b), forallb_app in Hb.
      apply andb_true_iff in Hb. rewrite Hs in Hb. tauto.
  - rewrite afterWord_word; [reflexivity | assumption | discriminate].
Qed.

Lemma word_token_kept (english japanese text : jsstring) :
  forallb wordClass text = true ->
  ~ foldEqual english text ->
  replace text (compileEntry (english, japanese)) = text.
Proof.
  intros Hw Hn. unfold replace. apply replaceFrom_no_match.
  intros a b E.
  exact (word_token_not_matched english japanese text Hw Hn a b E).
Qed.

Lemma foldEqual_prefix (english text : jsstring) :
  foldEqual english text -> foldedPrefix english text = true.
Proof.
  intros H. apply foldedPrefix_spec. exists text, []. rewrite app_nil_r. auto.
Qed.

Lemma whole_phrase_replaced (english japanese text : jsstring) :
  english <> [] -> noReference japanese = true -> foldEqual english text ->
  replace text (compileEntry (english, japanese)) = japanese.
Proof.
  intros Hne Hr Hf. unfold replace. rewrite replaceFrom_scan, match_compiled.
  pose proof (foldEqual_length Hf) as Hl.
  rewrite (foldEqual_prefix _ _ Hf), Hl, skipn_all. simpl.
  rewrite getSubstitution_plain by assumption.
  destruct text as [|c rest].
  - destruct english; [congruence | discriminate].
  - simpl.
    pose proof (replaceFrom_skip (compileEntry (english, japanese)) rest []
                  [c]) as Hs.
    rewrite app_nil_r in Hs. rewrite Hs.
    rewrite replaceFrom_end by assumption. apply app_nil_r.
Qed.
End TokenFacts.

(** ** Replacement on the two sides of a seam *)
Section SeamFacts.
Context {U : Unicode}.
Variables english japanese : jsstring.
Hypothesis Hne : english <> [].
Hypothesis Hplain : noReference japanese = true.

Lemma foldedPrefix_length (rest : jsstring) :
  foldedPrefix english rest = true -> List.length english <= List.length rest.
Proof.
  intros H. apply foldedPrefix_spec in H. destruct H as (occ & suf & -> & Hf).
  rewrite (foldEqual_length Hf), length_app. lia.
Qed.

Lemma foldedPrefix_app (a b : jsstring) :
  List.length english <= List.length a ->
  foldedPrefix english (a ++ b) = foldedPrefix english a.
Proof.
  clear Hne. revert a. induction english as [|c e IH]; intros a Hl;
    [reflexivity|].
  destruct a as [|d a]; [simpl in Hl; lia|].
  simpl. rewrite IH by (simpl in Hl; lia). reflexivity.
Qed.

(** The scan of a text depends on what stands before it only through the
    look-behind of the first attempt. *)
Lemma replaceFrom_context (rest : jsstring) :
  forall (b1 b2 : jsstring) (skip : nat),
    (skip = 0 ->
     afterWord b1 = afterWord b2 \/ foldedPrefix english rest = false) ->
    replaceFrom (compileEntry (english, japanese)) b1 rest skip
    = replaceFrom (compileEntry (english, japanese)) b2 rest skip.
Proof.
  induction rest as [|c rest IH]; intros b1 b2 skip H.
  - destruct skip; [|reflexivity].
    rewrite !replaceFrom_end by assumption. reflexivity.
  - destruct skip as [|k].
    + rewrite (replaceFrom_scan _ b1 (c :: rest)),
        (replaceFrom_scan _ b2 (c :: rest)),
        (match_compiled english japanese b1),
        (match_compiled english japanese b2).
      change (replacement (compileEntry (english, japanese))) with japanese.
      assert (E : negb (afterWord b1) && foldedPrefix english (c :: rest)
                  = negb (afterWord b2) && foldedPrefix english (c :: rest)).
      { destruct (H eq_refl) as [-> | ->];
          [reflexivity | rewrite !andb_false_r; reflexivity]. }
      rewrite E.
      destruct (negb (afterWord b2) && foldedPrefix english (c :: rest)
                && negb (beforeWord (skipn (List.length english) (c :: rest)))).
      * rewrite !getSubstitution_plain by assumption. f_equal.
        destruct english as [|e0 e']; [congruence|]. cbn [List.length].
        apply IH. intros _. left. reflexivity.
      * f_equal. apply IH. intros _. left. reflexivity.
    + cbn [replaceFrom]. apply IH. intros _. left. reflexivity.
Qed.

(** The scan of [A ++ B] is the scan of [A] followed by the scan of [B]
    when every attempt that starts in [A] comes out the same without [B]. *)
Lemma replaceFrom_seam (B A : jsstring) :
  forall (before : jsstring) (skip : nat),
    skip <= List.length A ->
    (forall A1 A2 b, A = A1 ++ A2 -> A2 <> [] ->
       matchTerms (pattern (compileEntry (english, japanese))) b (A2 ++ B)
       = matchTerms (pattern (compileEntry (english, japanese))) b A2) ->
    replaceFrom (compileEntry (english, japanese)) before (A ++ B) skip
    = replaceFrom (compileEntry (english, japanese)) before A skip
      ++ replaceFrom (compileEntry (english, japanese)) (rev A ++ before) B 0.
Proof.
  induction A as [|c A IH]; intros before skip Hs Hm.
  - assert (skip = 0) by (simpl in Hs; lia). subst skip.
    cbn [app rev]. rewrite replaceFrom_end by assumption. reflexivity.
  - assert (Hm' : forall A1 A2 b, A = A1 ++ A2 -> A2 <> [] ->
               matchTerms (pattern (compileEntry (english, japanese))) b
                 (A2 ++ B)
               = matchTerms (pattern (compileEntry (english, japanese))) b A2).
    { intros A1 A2 b E. apply (Hm (c :: A1) A2 b). rewrite E. reflexivity. }
    assert (Hrev : rev (c :: A) ++ before = rev A ++ c :: before).
    { simpl. rewrite <- app_assoc. reflexivity. }
    rewrite Hrev.
    destruct skip as [|k].
    + rewrite <- app_comm_cons, replaceFrom_scan.
      rewrite (replaceFrom_scan _ before (c :: A)).
      rewrite app_comm_cons.
      rewrite (Hm [] (c :: A) before eq_refl) by discriminate.
      destruct (matchTerms (pattern (compileEntry (english, japanese)))
                  before (c :: A)) as [n|] eqn:Hn.
      * rewrite match_compiled in Hn.
        destruct (negb (afterWord before)); [|discriminate]. cbn [andb] in Hn.
        destruct (foldedPrefix english (c :: A)) eqn:Hp; [|discriminate].
        cbn [andb] in Hn.
        destruct (negb (beforeWord _)); [|discriminate].
        injection Hn as <-.
        apply foldedPrefix_length in Hp.
        change (replacement (compileEntry (english, japanese))) with japanese.
        rewrite !getSubstitution_plain by assumption.
        destruct english as [|e0 e']; [congruence|].
        cbn [List.length app] in *.
        rewrite IH by (lia || assumption).
        rewrite app_assoc. reflexivity.
      * cbn [app]. rewrite IH by (lia || assumption). reflexivity.
    + cbn [app replaceFrom]. apply IH; [simpl in Hs; lia | assumption].
Qed.

Lemma foldEqual_exact (text : jsstring) :
  foldedPrefix english text = true ->
  List.length text <= List.length english ->
  foldEqual english text.
Proof.
  intros Hp Hl. pose proof (foldedPrefix_length _ Hp) as Hl'.
  apply foldedPrefix_spec in Hp. destruct Hp as (occ & suf & -> & Hf).
  pose proof (foldEqual_length Hf) as E. rewrite length_app in Hl.
  destruct suf as [|x suf]; [rewrite app_nil_r; exact Hf|].
  simpl in Hl. lia.
Qed.

(** An attempt that starts in [A] comes out the same without [B] when no
    occurrence of the phrase begins in [A] and ends in [B], and no word
    character follows an occurrence that ends where [A] ends. *)
Lemma seam_inside (A B : jsstring) :
  (forall A1 A2, A = A1 ++ A2 -> A2 <> [] ->
     List.length A2 < List.length english ->
     foldedPrefix english (A2 ++ B) = false) ->
  (forall A1 A2, A = A1 ++ A2 -> foldEqual english A2 ->
     beforeWord B = false) ->
  forall A1 A2 b, A = A1 ++ A2 -> A2 <> [] ->
    matchTerms (pattern (compileEntry (english, japanese))) b (A2 ++ B)
    = matchTerms (pattern (compileEntry (english, japanese))) b A2.
Proof.
  intros Hs He A1 A2 b E Hn. rewrite !match_compiled.
  destruct (lt_eq_lt_dec (List.length english) (List.length A2))
    as [[Hlt | Heq] | Hgt].
  - rewrite foldedPrefix_app by lia.
    rewrite skipn_app.
    replace (List.length english - List.length A2) with 0 by lia.
    cbn [skipn].
    destruct (skipn (List.length english) A2) as [|x r] eqn:Ek.
    + apply (f_equal (@List.length N)) in Ek. rewrite length_skipn in Ek.
      simpl in Ek. lia.
    + reflexivity.
  - rewrite foldedPrefix_app by lia.
    rewrite skipn_app, Heq, Nat.sub_diag, skipn_all. cbn [skipn app].
    destruct (foldedPrefix english A2) eqn:Hp;
      [|rewrite !andb_false_r; reflexivity].
    rewrite (He A1 A2 E (foldEqual_exact A2 Hp ltac:(lia))). reflexivity.
  - rewrite (Hs A1 A2 E Hn Hgt).
    destruct (foldedPrefix english A2) eqn:Hp;
      [|rewrite !andb_false_r; reflexivity].
    apply foldedPrefix_length in Hp. lia.
Qed.

Hypothesis Hbounded : wordBounded english.

Lemma first_is_word (p : N) (r : jsstring) :
  foldedPrefix english (p :: r) = true -> wordClass p = true.
Proof.
  destruct english as [|e0 e']; [congruence|]. simpl. intros H.
  apply andb_true_iff in H. destruct H as [H _]. apply N.eqb_eq in H.
  apply (proj1 Hbounded). symmetry. exact H.
Qed.

Lemma last_is_word (X : jsstring) (a : N) :
  foldEqual english (X ++ [a]) -> wordClass a = true.
Proof.
  intros H. apply Forall2_app_inv_r in H.
  destruct H as (l1 & l2 & _ & H2 & E).
  inversion H2 as [|t a' l2' n' Ht Hn]; subst. inversion Hn; subst.
  apply (proj2 Hbounded). rewrite last_last. symmetry. exact Ht.
Qed.

Lemma absent_at_nonword (post : jsstring) :
  beforeWord post = false -> foldedPrefix english post = false.
Proof.
  intros H. destruct post as [|p r].
  - destruct english; [congruence | reflexivity].
  - destruct (foldedPrefix english (p :: r)) eqn:Hp; [|reflexivity].
    apply first_is_word in Hp. simpl in H. congruence.
Qed.

(** No occurrence of the phrase ends with a code point that is no word
    character. *)
Lemma occurrence_ends_with_word (A1 A2 : jsstring) :
  afterWord (rev (A1 ++ A2)) = false -> foldEqual english A2 -> False.
Proof.
  intros Ha Hf. destruct A2 as [|x A2] using rev_ind.
  - inversion Hf. congruence.
  - clear IHA2. rewrite app_assoc, rev_app_distr in Ha. simpl in Ha.
    apply last_is_word in Hf. congruence.
Qed.

Lemma replace_keeps_first (post : jsstring) :
  beforeWord post = false ->
  beforeWord (replace post (compileEntry (english, japanese))) = false.
Proof.
  intros H. unfold replace. rewrite replaceFrom_scan, match_compiled.
  rewrite (absent_at_nonword post H), andb_false_r. cbn [andb].
  destruct post; [reflexivity | exact H].
Qed.

Lemma replace_snoc (A : jsstring) (a : N) :
  wordClass a = false ->
  replace (A ++ [a]) (compileEntry (english, japanese))
  = replace A (compileEntry (english, japanese)) ++ [a].
Proof.
  intros Ha. unfold replace.
  rewrite (replaceFrom_seam [a] A [] 0 (Nat.le_0_l _)).
  - f_equal. rewrite replaceFrom_scan, match_compiled.
    rewrite (absent_at_nonword [a] Ha), andb_false_r. cbn [andb].
    rewrite replaceFrom_end by assumption. reflexivity.
  - apply seam_inside.
    + intros A1 A2 E Hn Hl.
      destruct (foldedPrefix english (A2 ++ [a])) eqn:Hp; [|reflexivity].
      apply foldEqual_exact in Hp; [|rewrite length_app; simpl; lia].
      apply last_is_word in Hp. congruence.
    + intros; exact Ha.
Qed.

Lemma replace_keeps_last (pre : jsstring) :
  afterWord (rev pre) = false ->
  afterWord (rev (replace pre (compileEntry (english, japanese)))) = false.
Proof.
  destruct pre as [|a A _] using rev_ind.
  - intros _. unfold replace. rewrite replaceFrom_end by assumption.
    reflexivity.
  - rewrite rev_app_distr. simpl. intros Ha.
    rewrite (replace_snoc A a Ha), rev_app_distr. exact Ha.
Qed.

(** An occurrence of the phrase between two code points that are no word
    characters is replaced where it stands, and the texts on its two sides
    are scanned as if they stood alone. *)
Lemma replace_around_occurrence (pre occurrence post : jsstring) :
  firstFoldUnique english = true ->
  foldEqual english occurrence ->
  afterWord (rev pre) = false ->
  beforeWord post = false ->
  replace (pre ++ occurrence ++ post) (compileEntry (english, japanese))
  = replace pre (compileEntry (english, japanese))
    ++ japanese
    ++ replace post (compileEntry (english, japanese)).
Proof.
  intros Hu Hocc Ha Hb. unfold replace.
  rewrite (replaceFrom_seam (occurrence ++ post) pre [] 0 (Nat.le_0_l _)).
  - f_equal.
    destruct (replaceFrom_forced japanese post Hu Hocc Hb []
                (rev pre ++ []) (skip := 0)) as (X & HX & HX0);
      [reflexivity | cbn [rev app]; rewrite app_nil_r; exact Ha |].
    rewrite (HX0 eq_refl) in HX. cbn [app] in HX. rewrite HX.
    rewrite getSubstitution_plain by assumption. f_equal.
    apply replaceFrom_context. intros _. right.
    apply absent_at_nonword, Hb.
  - apply seam_inside.
    + intros A1 A2 E Hn Hl.
      destruct (foldedPrefix english (A2 ++ occurrence ++ post)) eqn:Hp;
        [|reflexivity].
      pose proof (occurrence_not_overlapped post Hu Hocc Hn Hp). lia.
    + intros A1 A2 E Hf. exfalso. subst pre.
      exact (occurrence_ends_with_word A1 A2 Ha Hf).
Qed.

(** A block of code points that the phrase cannot match, between two code
    points that are no word characters, stays where it stands, and the
    texts on its two sides are scanned as if they stood alone. *)
Lemma replace_around_block (pre block post : jsstring) :
  block <> [] ->
  foldDisjoint block english = true ->
  afterWord (rev pre) = false ->
  beforeWord post = false ->
  replace (pre ++ block ++ post) (compileEntry (english, japanese))
  = replace pre (compileEntry (english, japanese))
    ++ block
    ++ replace post (compileEntry (english, japanese)).
Proof.
  intros Hnb Hd Ha Hb. unfold replace.
  rewrite (replaceFrom_seam (block ++ post) pre [] 0 (Nat.le_0_l _)).
  - f_equal. rewrite (replaceFrom_block japanese Hne block post _ Hd).
    f_equal. apply replaceFrom_context. intros _. right.
    apply absent_at_nonword, Hb.
  - apply seam_inside.
    + intros A1 A2 E Hn Hl.
      destruct (foldedPrefix english (A2 ++ block ++ post)) eqn:Hp;
        [|reflexivity].
      exfalso. destruct block as [|y block]; [congruence|].
      destruct (foldedPrefix_at english A2 y (block ++ post) Hp Hl)
        as (x & Hx & Hcan).
      apply nth_error_In in Hx.
      simpl in Hd. apply andb_true_iff in Hd. destruct Hd as [Hd _].
      rewrite forallb_forall in Hd. specialize (Hd x Hx).
      rewrite Hcan, N.eqb_refl in Hd. discriminate.
    + intros A1 A2 E Hf. exfalso. subst pre.
      exact (occurrence_ends_with_word A1 A2 Ha Hf).
Qed.
End SeamFacts.

(** In the table used for the examples a code point that folds to a small
    Latin letter is a letter. *)
Lemma basicFold_latin (c d : N) :
  (97 <= c)%N -> (c <= 122)%N ->
  basicFold d = c -> @wordClass basicUnicode d = true.
Proof.
  intros Hl Hu. unfold wordClass. cbn [letterOrNumber canonicalize basicUnicode].
  unfold basicFold, basicLetterOrNumber.
  destruct ((65 <=? d) && (d <=? 90))%N eqn:E1;
    [intros _; rewrite ?orb_true_r; reflexivity|].
  destruct ((192 <=? d) && (d <=? 222) && negb (d =? 215))%N eqn:E2.
  { intros H. exfalso. apply andb_true_iff in E2. destruct E2 as [E2 _].
    apply andb_true_iff in E2. destruct E2 as [E2 _].
    apply N.leb_le in E2. lia. }
  destruct (N.eqb_spec d 181); [intros H; exfalso; lia|].
  destruct (N.eqb_spec d 383); [subst d; reflexivity|].
  destruct (N.eqb_spec d 8490); [subst d; reflexivity|].
  intros ->.
  apply N.leb_le in Hl, Hu. rewrite Hl, Hu. rewrite ?orb_true_r. reflexivity.
Qed.

Lemma translate_pair (U : Unicode) (e1 j1 e2 j2 text : jsstring) :
  translateByDictionary [(e1, j1); (e2, j2)] text
  = replace (replace text (compileEntry (e1, j1))) (compileEntry (e2, j2)).
Proof. reflexivity. Qed.

(** * The claims *)

(** C1.  The dictionary pass is idempotent whenever its first application
    leaves no source phrase of the table in the text: applying
    [translateByDictionary] to such an output returns it unchanged.  The
    phrases are compared as the matchers compare them, up to case folding. *)
Theorem translateByDictionary_idempotent_when_settled
    (U : Unicode) (dict : list (jsstring * jsstring)) (T : jsstring) :
  noSourcePhraseIn dict (translateByDictionary dict T) = true ->
  translateByDictionary dict (translateByDictionary dict T)
  = translateByDictionary dict T.
Proof. apply translate_settled. Qed.

Lemma translateByDictionary_idempotent_when_settled_witness :
  @translateByDictionary basicUnicode pullRequestTable
    (@translateByDictionary basicUnicode pullRequestTable (js "Pull Request"))
  = @translateByDictionary basicUnicode pullRequestTable (js "Pull Request").
Proof.
  apply (@translateByDictionary_idempotent_when_settled basicUnicode).
  vm_compute; reflexivity.
Defined.

(** The side condition of C1 cannot be dropped for an arbitrary table: here
    the first pass writes a source phrase, which the second pass replaces. *)
Example translateByDictionary_not_idempotent_without_side_condition :
  let dict := [(js "Request", js "リクエスト"); (js "Pull", js "Request")] in
  @translateByDictionary basicUnicode dict (js "Pull") = js "Request"
  /\ @translateByDictionary basicUnicode dict (js "Request") = js "リクエスト".
Proof. split; vm_compute; reflexivity. Qed.

(** C3.  A compiled matcher fires at a position exactly when the source
    phrase occurs there, code point by code point up to case folding, with no
    letter, digit or underscore right before or right after the occurrence.
    Every code point of the phrase is matched literally, pattern syntax
    included.  An entry for [API] matches in [the API.] (at index 4) and
    nowhere in [MyAPIWrapper] or [APIcall]. *)
Theorem compiled_matcher_fires_iff_not_adjacent_to_word :
  (forall (U : Unicode) (english japanese before rest : jsstring) (n : nat),
      matchTerms (pattern (compileEntry (english, japanese))) before rest
      = Some n
      <-> afterWord before = false
          /\ exists occurrence suffix,
               rest = occurrence ++ suffix
               /\ foldEqual english occurrence
               /\ n = List.length occurrence
               /\ beforeWord suffix = false)
  /\ (forall japanese : jsstring,
         let api := compileEntry (js "API", japanese) in
         @search basicUnicode api (js "the API.") = Some 4
         /\ @search basicUnicode api (js "MyAPIWrapper") = None
         /\ @search basicUnicode api (js "APIcall") = None
         /\ @search basicUnicode api (js "the api.") = Some 4
         /\ @search basicUnicode
              (compileEntry (js "a.b (c)", japanese)) (js "axb (c) a.b (c)")
            = Some 8).
Proof.
  split; [intros; apply match_compiled_iff|].
  intros japanese; repeat split; vm_compute; reflexivity.
Qed.




(** C6.  After a run of [translateTextNodesIn], incremental or not, every
    text node of the body that passes the filter is in the processed set,
    whether the run has changed its text or not; and an incremental run
    right after it assigns no [nodeValue]: the document, the record of
    assignments and the processed set stay as the first run left them. *)
Theorem second_incremental_run_writes_nothing
    (U : Unicode) (dict : list (jsstring * jsstring)) (w : World) (b : bool) :
  let w1 := translateTextNodesIn dict b w in
  let w2 := translateTextNodesIn dict true w1 in
  (forall t, In t (bodyTexts (document w)) -> translatable t = true ->
     weakSetHas (translatedTextNodeWeakSet w1) (itemId t) = true)
  /\ document w2 = document w1
  /\ nodeValueWrites w2 = nodeValueWrites w1
  /\ translatedTextNodeWeakSet w2 = translatedTextNodeWeakSet w1.
Proof.
  cbn zeta. split; [apply (translateTextNodesIn_marks dict b w)|].
  set (w1 := translateTextNodesIn dict b w).
  rewrite (translateTextNodesIn_walked dict true w1).
  unfold w1. rewrite walked_again. fold w1.
  destruct (useTranslationApi (currentConfiguration w1));
    [|repeat split].
  split; [apply request_document|].
  split; apply (request_state w1).
Qed.



(** In the scenario of the stale response nothing is written and nothing is
    logged: the paragraph that was removed is not in the tree, and the value
    [Closed now] of the other one was not sent. *)
Example stale_response_changes_nothing :
  let w' :=
    @batchResponseArrives basicUnicode 0
      (HttpResponse true 200
         (Some (deepLPayload [js "今すぐ開く"; js "今すぐ閉じる"])))
      staleWorld in
  document w' = document staleWorld
  /\ nodeValueWrites w' = nodeValueWrites staleWorld
  /\ console w' = []
  /\ batchRequests w' = [].
Proof. vm_compute. repeat split. Qed.

(** C9 as stated fails for a payload of an unexpected shape: DeepL answers a
    batch with the body [{}].  [translateWithDeepL] reads it as an empty list
    of translations; nothing is thrown, so nothing is caught or logged.  (The
    document is left as it is in this case too.) *)
Lemma unexpected_payload_is_not_logged :
  let w := @step basicUnicode [] openWorld PendingTimerFires in
  let w' :=
    @step basicUnicode [] w
      (BatchResponse 0 (HttpResponse true 200 (Some (JObject [])))) in
  map batchTexts (batchRequests w) = [[js "Open"]]
  /\ translateWithDeepL (HttpResponse true 200 (Some (JObject []))) = inr []
  /\ console w' = console w
  /\ console w' = []
  /\ batchRequests w' = []
  /\ document w' = document w.
Proof. vm_compute. repeat split. Qed.

(** C9, amended.  If the call of the provider throws -- the request fails,
    the status is not a success, the body is not JSON, or reading the payload
    raises a [TypeError], as it does for [null] -- the error is caught and
    logged, and nothing else happens: the state after the callback is the
    state before it with the request gone and one more line in the log, so
    the document, the record of assignments, the pending set and the timer
    are untouched and no request is made again.  A payload that parses but
    lacks the list of translations is no failure for DeepL and Google: it is
    an empty list, which writes nothing. *)
Theorem failed_batch_is_logged_and_dropped
    (U : Unicode) (w : World) (n : nat) (outcome : FetchOutcome)
    (b : BatchRequest) (k : ProviderKind) (e : JsError) :
  nth_error (batchRequests w) n = Some b ->
  batchProvider b = Some k ->
  callProvider k outcome = inl e ->
  batchResponseArrives n outcome w
  = withConsole (withBatchRequests w (removeNth n (batchRequests w)))
      (console w ++ [WarnBatchFailed e])
  /\ (forall k', callProvider k' NetworkError = inl FetchFailed)
  /\ (forall k' status json,
         exists name,
           callProvider k' (HttpResponse false status json)
           = inl (HttpStatusError name status))
  /\ (forall k' status,
         callProvider k' (HttpResponse true status None) = inl JsonSyntaxError)
  /\ (forall k' status,
         callProvider k' (HttpResponse true status (Some JNull))
         = inl TypeError)
  /\ (forall status,
         callProvider DeepL (HttpResponse true status (Some (JObject [])))
         = inr []
         /\ callProvider Google (HttpResponse true status (Some (JObject [])))
            = inr [])
  /\ (forall w0 texts, applyBatchResult w0 texts (inr []) = w0).
Proof.
  intros Hn Hk He. split.
  - unfold batchResponseArrives. rewrite Hn, Hk, He. reflexivity.
  - split; [intros []; reflexivity|].
    split; [intros [] status json; eexists; reflexivity|].
    split; [intros [] status; reflexivity|].
    split; [intros [] status; reflexivity|].
    split; [intros status; split; reflexivity|].
    intros w0 texts. apply applyBatchResult_empty.
Qed.

Lemma failed_batch_is_logged_and_dropped_witness :
  let w := @step basicUnicode [] openWorld PendingTimerFires in
  @batchResponseArrives basicUnicode 0 (HttpResponse false 403 None) w
  = withConsole (withBatchRequests w (removeNth 0 (batchRequests w)))
      (console w ++ [WarnBatchFailed (HttpStatusError (js "DeepL") 403)]).
Proof.
  cbn zeta.
  apply (proj1 (@failed_batch_is_logged_and_dropped basicUnicode
                  (@step basicUnicode [] openWorld PendingTimerFires) 0
                  (HttpResponse false 403 None)
                  {| batchTexts := [js "Open"]; batchProvider := Some DeepL |}
                  DeepL (HttpStatusError (js "DeepL") 403)
                  ltac:(vm_compute; reflexivity) eq_refl eq_refl)).
Defined.

(** C4 as stated fails: the callback compares the translation with the
    value that was sent, not the attribute with it.  The title [Open] of a
    button is sent; the page changes the title to [Close]; the translation
    arrives and overwrites [Close]. *)
Lemma late_attribute_response_overwrites_changed_value :
  let w1 :=
    @step basicUnicode [] buttonWorld
      (PageMutation (buttonPage (js "Close"))) in
  let w2 :=
    @step basicUnicode [] w1
      (AttributeResponse 0
         (HttpResponse true 200 (Some (deepLPayload [js "開く"])))) in
  attributeRequests buttonWorld
  = [{| requestElement := 10;
        requestAttribute := Title;
        requestOriginal := js "Open";
        requestProvider := DeepL |}]
  /\ attributeOf 10 (js "title") (document w1) = Some (js "Close")
  /\ attributeOf 10 (js "title") (document w2) = Some (js "開く").
Proof. vm_compute. repeat split. Qed.

(** C4, amended.  When the translation requested for an attribute's
    original value arrives, the attribute of the element the callback holds
    is set to the string conversion of the translation if and only if the
    translation is truthy, differs from the original value that was sent
    and can be converted to a string; the value the attribute has at that
    time is not read, so a value written in the meantime is overwritten.
    No other element and no other attribute is changed.  A translation
    that cannot be converted makes [setAttribute] throw; the [catch] of the
    callback ignores the error, so nothing is written and nothing more is
    logged than what [translateByOptionalApi] has logged. *)
Theorem attribute_response_compares_translation_with_original
    (w : World) (n : nat) (outcome : FetchOutcome) (r : AttributeRequest) :
  nth_error (attributeRequests w) n = Some r ->
  let settled :=
    translateByOptionalApi_settled (requestOriginal r) (requestProvider r)
      outcome in
  let text := fst settled in
  let name := attributeNameString (requestAttribute r) in
  let w' := attributeResponseArrives n outcome w in
  elementsOf (document w')
  = (if truthy text && differsFrom text (requestOriginal r)
     then match valueToString text with
          | inr value =>
              map (fun e => if (elementId e =? requestElement r)%N
                            then setAttribute e name value
                            else e)
                (elementsOf (document w))
          | inl _ => elementsOf (document w)
          end
     else elementsOf (document w))
  /\ (forall value,
        truthy text && differsFrom text (requestOriginal r) = true ->
        valueToString text = inr value ->
        forall e, In e (elementsOf (document w')) ->
                  elementId e = requestElement r ->
                  getAttribute (attributes e) name = Some value)
  /\ console w' = console w ++ snd settled.
Proof.
  intros Hn. cbn zeta.
  assert (Hd : elementsOf (document (attributeResponseArrives n outcome w))
               = (if truthy (fst (translateByOptionalApi_settled
                                    (requestOriginal r) (requestProvider r)
                                    outcome))
                     && differsFrom
                          (fst (translateByOptionalApi_settled
                                  (requestOriginal r) (requestProvider r)
                                  outcome))
                          (requestOriginal r)
                  then match valueToString
                               (fst (translateByOptionalApi_settled
                                       (requestOriginal r)
                                       (requestProvider r) outcome)) with
                       | inr value =>
                           map (fun e =>
                                  if (elementId e =? requestElement r)%N
                                  then setAttribute e
                                         (attributeNameString
                                            (requestAttribute r)) value
                                  else e)
                             (elementsOf (document w))
                       | inl _ => elementsOf (document w)
                       end
                  else elementsOf (document w))).
  { unfold attributeResponseArrives. rewrite Hn.
    destruct (translateByOptionalApi_settled (requestOriginal r)
                (requestProvider r) outcome) as [text logs].
    cbn [fst].
    destruct (truthy text && differsFrom text (requestOriginal r));
      [|reflexivity].
    destruct (valueToString text) as [e | value]; [reflexivity|].
    cbn [document withDocument]. apply setAttributeOf_elements. }
  split; [exact Hd|]. split.
  - intros value Ht Hv e He Hid. rewrite Hd, Ht, Hv in He.
    apply in_map_iff in He. destruct He as (e0 & <- & _).
    destruct (N.eqb_spec (elementId e0) (requestElement r)) as [_|Hne].
    + cbn [attributes setAttribute]. apply getAttribute_set_same.
    + contradiction.
  - unfold attributeResponseArrives. rewrite Hn.
    destruct (translateByOptionalApi_settled (requestOriginal r)
                (requestProvider r) outcome) as [text logs].
    cbn [snd].
    destruct (truthy text && differsFrom text (requestOriginal r));
      [|reflexivity].
    destruct (valueToString text); reflexivity.
Qed.

Lemma attribute_response_compares_translation_with_original_witness :
  attributeOf 10 (js "title")
    (document
       (attributeResponseArrives 0
          (HttpResponse true 200 (Some (deepLPayload [js "開く"])))
          (withDocument buttonWorld (buttonPage (js "Close")))))
  = Some (js "開く").
Proof.
  pose proof
    (proj1 (attribute_response_compares_translation_with_original
              (withDocument buttonWorld (buttonPage (js "Close"))) 0
              (HttpResponse true 200 (Some (deepLPayload [js "開く"])))
              {| requestElement := 10;
                 requestAttribute := Title;
                 requestOriginal := js "Open";
                 requestProvider := DeepL |}
              ltac:(vm_compute; reflexivity))) as H.
  cbn zeta in H. unfold attributeOf. rewrite H.
  vm_compute. reflexivity.
Defined.

(** C5 as stated fails in its last clause.  A page holds fifty paragraphs
    [item 00] to [item 49] and then [<p>Hi</p>].  The first run queues all
    fifty-one strings; the timer sends the first fifty and clears the set,
    so [Hi] is dropped.  On the later mutation passes the text node of [Hi]
    is still there, untranslated, but it is in the processed set, so the
    incremental walk skips it, and the collecting walk of
    [requestAsyncTranslationForVisibleTextNodes] rejects it because it is
    shorter than four code units: [Hi] is never queued or sent again. *)
Lemma short_string_dropped_from_batch_is_not_retried :
  let w1 := @step basicUnicode [] longWorld PendingTimerFires in
  let w2 :=
    @run basicUnicode []
      [ObserverFires; PendingTimerFires; ObserverFires] w1 in
  memberOf (pendingAsyncTextsSet longWorld) (js "Hi") = true
  /\ List.length (pendingAsyncTextsSet longWorld) = 51
  /\ map batchTexts (batchRequests w1) = [map numberedItem (seq 0 50)]
  /\ pendingAsyncTextsSet w1 = []
  /\ existsb (fun t : TextItem => jsstring_eqb (snd t) (js "Hi"))
       (bodyTexts (document w2)) = true
  /\ pendingAsyncTextsSet w2 = map numberedItem (seq 0 50)
  /\ map batchTexts (batchRequests w2)
     = [map numberedItem (seq 0 50); map numberedItem (seq 0 50)].
Proof. vm_compute. repeat split. Qed.

(** C5, amended.  In every state the script can reach, whatever the page and
    the providers do, each batch in flight holds at most 50 strings and
    holds no string twice; when the timer fires the pending set is emptied,
    so what exceeded the batch is dropped; and a later run of
    [translateTextNodesIn] with remote translation switched on arms the
    timer and queues again the value of every text node that passes the
    filter of the collecting walk (eligible parent, not blank, at least four
    code units once trimmed, no kana or kanji).  Five fragments [Open] give
    one batch with the single entry [Open]. *)
Theorem pending_batch_is_distinct_and_capped
    (U : Unicode) (dict : list (jsstring * jsstring)) (d : Document)
    (stored : option Configuration) (events : list Event) :
  let w := run dict events (initializeJapaneseTranslator dict d stored) in
  (forall b, In b (batchRequests w) ->
     NoDup (batchTexts b) /\ List.length (batchTexts b) <= 50)
  /\ NoDup (pendingAsyncTextsSet w)
  /\ pendingAsyncTextsSet (pendingTimerFires w) = []
  /\ (forall onlyUntranslated,
        useTranslationApi (currentConfiguration w) = true ->
        let w' := translateTextNodesIn dict onlyUntranslated w in
        pendingAsyncTimer w' = true
        /\ forall t, In t (bodyTexts (document w')) ->
                     collectable t = true ->
                     In (snd t) (pendingAsyncTextsSet w'))
  /\ map batchTexts (batchRequests (pendingTimerFires openWorld))
     = [[js "Open"]].
Proof.
  cbn zeta.
  split; [apply run_batches;
          [apply initialize_pending | apply initialize_batches]|].
  split; [apply run_pending, initialize_pending|].
  split; [reflexivity|].
  split; [intros b Ha; apply translateTextNodesIn_collects, Ha|].
  vm_compute. reflexivity.
Qed.

(** C8 as stated fails for text that is inside a [pre] element without
    being a child of it: the tag rule of [shouldSkipElement] looks at the
    parent of the text node and is not inherited.  In
    [<pre><span>Issues</span></pre>] the parent is the [span], the filter
    counts no text node as ineligible, and the initial run rewrites the
    content of the [pre]. *)
Lemma text_nested_in_pre_is_translated :
  bodyNodes
    (document
       (@initializeJapaneseTranslator basicUnicode issuesTable nestedPrePage
          (Some defaultConfiguration)))
  = [ElementNode (htmlElement 10 (js "pre") [])
       [textElement 11 (js "span") (js "課題")]]
  /\ @ineligibleTexts basicUnicode nestedPrePage = [].
Proof. split; vm_compute; reflexivity. Qed.

(** C8, amended.  No callback of the script, and not its initialisation
    either, writes a text node whose parent [shouldSkipElement] rejects: the
    list of these nodes with their values is the same after any sequence of
    callbacks.  With [{enabled: true, useRemoteApi: false}] and a table that
    renders [Issues] as [課題], the body [<p>Issues</p><pre>Issues</pre>]
    becomes [<p>課題</p><pre>Issues</pre>] in the initial run; and in
    [<pre><code>const x = 1;</code></pre><p>Issue</p>] only [Issue] is
    written, even when the table has an entry for [const]. *)
Theorem ineligible_text_is_never_modified :
  (forall (U : Unicode) (dict : list (jsstring * jsstring))
          (events : list Event) (w : World),
      forallb isEngineEvent events = true ->
      ineligibleTexts (document (run dict events w))
      = ineligibleTexts (document w))
  /\ (forall (U : Unicode) (dict : list (jsstring * jsstring))
             (d : Document) (stored : option Configuration),
         ineligibleTexts (document (initializeJapaneseTranslator dict d stored))
         = ineligibleTexts d)
  /\ (forall (dict : list (jsstring * jsstring)) (cfg : Configuration),
         @translateByDictionary basicUnicode dict (js "Issues") = js "課題" ->
         isEnabledOnGithub cfg = true ->
         useTranslationApi cfg = false ->
         bodyNodes
           (document
              (@initializeJapaneseTranslator basicUnicode dict issuesPage
                 (Some cfg)))
         = [textElement 10 (js "p") (js "課題");
            textElement 12 (js "pre") (js "Issues")])
  /\ @translateByDictionary basicUnicode [(js "Issues", js "課題")]
       (js "Issues") = js "課題"
  /\ (forall events : list Event,
         forallb isEngineEvent events = true ->
         @ineligibleTexts basicUnicode
           (document
              (@run basicUnicode [(js "Issue", js "課題"); (js "const", js "定数")]
                 events
                 (@initializeJapaneseTranslator basicUnicode
                    [(js "Issue", js "課題"); (js "const", js "定数")]
                    codePage (Some defaultConfiguration))))
         = [(12%N, js "const x = 1;")])
  /\ bodyNodes
       (document
          (@initializeJapaneseTranslator basicUnicode
             [(js "Issue", js "課題"); (js "const", js "定数")]
             codePage (Some defaultConfiguration)))
     = [ElementNode (htmlElement 10 (js "pre") [])
          [textElement 11 (js "code") (js "const x = 1;")];
        textElement 13 (js "p") (js "課題")].
Proof.
  split; [intros; apply run_ineligible; assumption|].
  split; [intros; apply initialize_ineligible|].
  split.
  - intros dict cfg Ht He Ha.
    rewrite (proj1 (initialize_enabled dict issuesPage cfg He)).
    unfold translateEntireDocumentNow.
    rewrite translateTextNodesIn_walked.
    cbn [currentConfiguration withConfiguration]. rewrite Ha.
    unfold walked, translateAttributesForInteractiveElements.
    unfold mapDocument, walkBody, issuesPage, page, textElement, withLang,
      translateTextNode, translateElementAttributes, htmlElement.
    cbn -[translateByDictionary] in Ht |- *. rewrite Ht, Ha.
    vm_compute. reflexivity.
  - split; [vm_compute; reflexivity|]. split.
    + intros events He. rewrite run_ineligible by assumption.
      vm_compute. reflexivity.
    + vm_compute. reflexivity.
Qed.

(** C10.  The initialisation sets [lang] of the root element to [ja] before
    it reads the stored configuration: the attribute is set also when the
    read fails.  When the stored [isEnabledOnGithub] is false this is all it
    does to the document, and it registers no observer, listener or timer
    and starts no request, so no callback of the script ever runs and the
    state stays as it is. *)
Theorem disabled_engine_only_sets_lang
    (U : Unicode) (dict : list (jsstring * jsstring)) (d : Document)
    (cfg : Configuration) :
  isEnabledOnGithub cfg = false ->
  let w := initializeJapaneseTranslator dict d (Some cfg) in
  document w = withLang d
  /\ getAttribute (attributes (documentElement (document w))) (js "lang")
     = Some (js "ja")
  /\ (forall e, isEngineEvent e = true -> enabledEvent w e = false)
  /\ (forall events, forallb isEngineEvent events = true ->
                     run dict events w = w)
  /\ document (initializeJapaneseTranslator dict d None) = withLang d.
Proof.
  intros Hc. cbn zeta.
  assert (Hw : document (initializeJapaneseTranslator dict d (Some cfg))
               = withLang d).
  { unfold initializeJapaneseTranslator. rewrite Hc. reflexivity. }
  split; [exact Hw|].
  split; [rewrite Hw; apply getAttribute_set_same|].
  split; [intros e He; apply disabled_registers_nothing; assumption|].
  split; [|reflexivity].
  intros events He. apply run_without_callbacks; [|exact He].
  intros e Hee. apply disabled_registers_nothing; assumption.
Qed.

Lemma disabled_engine_only_sets_lang_witness :
  let cfg :=
    {| isEnabledOnGithub := false;
       useTranslationApi := true;
       translationProvider := js "DeepL";
       translationApiKey := js "key";
       translationRegion := [];
       translationAggressiveness := js "balanced" |} in
  let w :=
    @initializeJapaneseTranslator basicUnicode [(js "Issues", js "課題")]
      issuesPage (Some cfg) in
  document w = withLang issuesPage
  /\ getAttribute (attributes (documentElement (document w))) (js "lang")
     = Some (js "ja")
  /\ (forall e, isEngineEvent e = true -> enabledEvent w e = false)
  /\ (forall events, forallb isEngineEvent events = true ->
                     @run basicUnicode [(js "Issues", js "課題")] events w = w)
  /\ document
       (@initializeJapaneseTranslator basicUnicode [(js "Issues", js "課題")]
          issuesPage None)
     = withLang issuesPage.
Proof.
  cbn zeta.
  apply (@disabled_engine_only_sets_lang basicUnicode
           [(js "Issues", js "課題")] issuesPage).
  reflexivity.
Defined.

(** * Further properties of the code *)

(** ** The dictionary pass on single tokens *)

(** X1.  A text made of letters, digits and underscores only is left as it
    is by the dictionary pass unless it is, as a whole and up to case
    folding, a source phrase of the table: a phrase inside such a token has
    a word character next to it and is therefore never replaced. *)
Theorem word_token_without_entry_is_left_alone
    (U : Unicode) (dict : list (jsstring * jsstring)) (text : jsstring) :
  forallb wordClass text = true ->
  (forall english japanese,
      In (english, japanese) dict -> ~ foldEqual english text) ->
  translateByDictionary dict text = text.
Proof.
  intros Hw. induction dict as [|[english japanese] dict IH]; intros Hn;
    [reflexivity|].
  rewrite translate_cons.
  rewrite (word_token_kept english japanese text Hw
             (Hn english japanese (or_introl eq_refl))).
  apply IH. intros e j Hin. apply (Hn e j). right. exact Hin.
Qed.

Lemma word_token_without_entry_is_left_alone_witness :
  @translateByDictionary basicUnicode
    [(js "API", js "エーピーアイ"); (js "Wrapper", js "ラッパー")]
    (js "MyAPIWrapper")
  = js "MyAPIWrapper".
Proof.
  apply (@word_token_without_entry_is_left_alone basicUnicode).
  - vm_compute. reflexivity.
  - intros english japanese [H | [H | []]]; inversion H; subst; intros Hf;
      apply (@foldEqual_length basicUnicode) in Hf; vm_compute in Hf;
      discriminate.
Defined.

(** X2.  A text that is a source phrase in any letter case is replaced:
    the matcher of the entry turns it into the Japanese text of the entry,
    taken literally when it holds no [$]; a table with this entry alone
    returns the Japanese text, and in a longer table the Japanese text is
    handed to the entries that follow. *)
Theorem phrase_in_any_letter_case_is_replaced
    (U : Unicode) (english japanese text : jsstring)
    (dict : list (jsstring * jsstring)) :
  english <> [] ->
  noReference japanese = true ->
  foldEqual english text ->
  replace text (compileEntry (english, japanese)) = japanese
  /\ translateByDictionary [(english, japanese)] text = japanese
  /\ translateByDictionary ((english, japanese) :: dict) text
     = translateByDictionary dict japanese.
Proof.
  intros Hne Hr Hf.
  pose proof (whole_phrase_replaced english japanese text Hne Hr Hf) as H.
  split; [exact H|].
  split; rewrite translate_cons, H; reflexivity.
Qed.

Lemma phrase_in_any_letter_case_is_replaced_witness :
  @replace basicUnicode (js "OPEN") (compileEntry (js "Open", js "開く"))
  = js "開く"
  /\ @translateByDictionary basicUnicode [(js "Open", js "開く")] (js "OPEN")
     = js "開く"
  /\ @translateByDictionary basicUnicode
       [(js "Open", js "開く"); (js "Close", js "閉じる")] (js "OPEN")
     = @translateByDictionary basicUnicode [(js "Close", js "閉じる")]
         (js "開く").
Proof.
  apply (@phrase_in_any_letter_case_is_replaced basicUnicode).
  - discriminate.
  - vm_compute. reflexivity.
  - vm_compute. repeat constructor.
Defined.

(** ** The eligibility filter along the ancestors *)

(** X3.  [shouldSkipElement] is inherited by the children of an element,
    except when the element is skipped for its own tag only: the rules on
    [data-no-translate], on the code region classes and on [svg] and [math]
    look at the ancestors, the tag rule does not. *)
Theorem skip_is_inherited_unless_by_tag
    (U : Unicode) (self child : Element) (ancestors : list Element) :
  shouldSkipElement (self :: ancestors) = true ->
  memberOf skippedTagNames (toLowerCase (tagName self)) = false ->
  shouldSkipElement (child :: self :: ancestors) = true.
Proof.
  unfold shouldSkipElement, closest. intros H Ht. rewrite Ht in H.
  cbn [existsb] in *.
  destruct (matchesNoTranslate self || existsb matchesNoTranslate ancestors);
    [rewrite orb_true_r; reflexivity|].
  destruct (matchesCodeRegion self || existsb matchesCodeRegion ancestors).
  - rewrite !orb_true_r.
    destruct (matchesNoTranslate child || false); [reflexivity|].
    destruct (memberOf skippedTagNames (toLowerCase (tagName child)));
      reflexivity.
  - destruct (matchesSvgOrMath self || existsb matchesSvgOrMath ancestors);
      [|discriminate].
    rewrite !orb_true_r.
    destruct (matchesNoTranslate child || false); [reflexivity|].
    destruct (memberOf skippedTagNames (toLowerCase (tagName child)));
      [reflexivity|].
    destruct (matchesCodeRegion child || false); reflexivity.
Qed.

Lemma skip_is_inherited_unless_by_tag_witness :
  @shouldSkipElement basicUnicode
    [htmlElement 11 (js "span") [];
     htmlElement 10 (js "div") [(js "class", js "highlight")];
     htmlElement 3 (js "body") []]
  = true.
Proof.
  apply (@skip_is_inherited_unless_by_tag basicUnicode);
    vm_compute; reflexivity.
Defined.

(** The tag rule looks at the element alone: a [span] in a [pre] is not
    skipped. *)
Example tag_rule_is_not_inherited :
  @shouldSkipElement basicUnicode [htmlElement 10 (js "pre") []] = true
  /\ @shouldSkipElement basicUnicode
       [htmlElement 11 (js "span") []; htmlElement 10 (js "pre") []]
     = false.
Proof. split; vm_compute; reflexivity. Qed.

(** The tag rule reads [tagName], the qualified name: an element [x:pre]
    is not skipped, and neither is the text in it. *)
Example prefixed_pre_is_not_skipped :
  tagName prefixedPre = js "X:PRE"
  /\ @shouldSkipElement basicUnicode [prefixedPre] = false
  /\ bodyNodes
       (document
          (@initializeJapaneseTranslator basicUnicode issuesTable
             (page [ElementNode prefixedPre [TextNode 11 (js "Issues")]])
             (Some defaultConfiguration)))
     = [ElementNode prefixedPre [TextNode 11 (js "課題")]].
Proof. repeat split; vm_compute; reflexivity. Qed.

(** ** The text pass *)
Section WalkElements.
Variable State : Type.
Variable visit : list Element -> N -> jsstring -> State -> jsstring * State.

Lemma walkNodes_elements_from (l : list Node) :
  Forall
    (fun n => forall anc s,
       elementsOfNode (fst (walkNode visit anc n s)) = elementsOfNode n) l ->
  forall anc s,
    elementsOfNodes (fst (walkNodes visit anc l s)) = elementsOfNodes l.
Proof.
  induction 1 as [|n l Hn _ IH]; intros anc s; [reflexivity|].
  simpl. specialize (Hn anc s).
  destruct (walkNode visit anc n s) as [n' s1]. cbn [fst] in Hn.
  specialize (IH anc s1).
  destruct (walkNodes visit anc l s1) as [l' s2]. cbn [fst] in IH.
  cbn [fst elementsOfNodes]. rewrite Hn, IH. reflexivity.
Qed.

Lemma walkNode_elements (n : Node) :
  forall anc s,
    elementsOfNode (fst (walkNode visit anc n s)) = elementsOfNode n.
Proof.
  induction n as [id v | e children IH] using Node_induction; intros anc s.
  - simpl. destruct (visit anc id v s). reflexivity.
  - rewrite walkNode_element.
    pose proof (walkNodes_elements_from children IH (e :: anc) s) as H.
    destruct (walkNodes visit (e :: anc) children s) as [c' s'].
    cbn [fst] in *. rewrite !elementsOfNode_element, H. reflexivity.
Qed.

Lemma walkNodes_elements (l : list Node) (anc : list Element) (s : State) :
  elementsOfNodes (fst (walkNodes visit anc l s)) = elementsOfNodes l.
Proof.
  apply walkNodes_elements_from. apply Forall_forall. intros n _.
  apply walkNode_elements.
Qed.

Lemma walkBody_elements (d : Document) (s : State) :
  elementsOf (fst (walkBody visit d s)) = elementsOf d.
Proof.
  unfold walkBody, elementsOf.
  pose proof (walkNodes_elements (bodyNodes d) [body d; documentElement d] s)
    as H.
  destruct (walkNodes visit [body d; documentElement d] (bodyNodes d) s)
    as [l' s'].
  cbn [fst] in *. cbn [documentElement headNodes body bodyNodes tailNodes].
  rewrite H. reflexivity.
Qed.
End WalkElements.

Section FullPassFacts.
Context {U : Unicode}.
Variable dict : list (jsstring * jsstring).

Lemma translateTextNode_value (cfg : Configuration) (b : bool)
    (anc : list Element) (id : N) (v : jsstring) (s : Walk) :
  acceptNode b anc id v s = true ->
  fst (translateTextNode dict cfg b anc id v s)
  = translatedValue dict (anc, id, v).
Proof.
  intros Ha. pose proof Ha as Ht.
  rewrite acceptNode_spec in Ht. apply andb_true_iff in Ht.
  destruct Ht as [Ht _].
  unfold translateTextNode, translatedValue. rewrite Ha, Ht. cbn [snd].
  unfold translateByOptionalApiSyncPlaceholder.
  destruct (useTranslationApi cfg
            && jsstring_eqb (translateByDictionary dict v) v) eqn:E.
  - cbn [fst]. rewrite jsstring_eqb_refl, andb_false_r.
    apply andb_true_iff in E. destruct E as [_ E].
    apply jsstring_eqb_eq in E. rewrite E.
    destruct (isEmpty v); reflexivity.
  - destruct (isEmpty (translateByDictionary dict v)) eqn:Ee;
      [reflexivity|].
    cbn [negb andb].
    destruct (jsstring_eqb (translateByDictionary dict v) v) eqn:Eq;
      [|reflexivity].
    apply jsstring_eqb_eq in Eq. cbn [negb fst]. symmetry. exact Eq.
Qed.

Lemma translatedValue_rejected (t : TextItem) :
  translatable t = false -> translatedValue dict t = snd t.
Proof. unfold translatedValue. intros ->. reflexivity. Qed.

Lemma full_loop (cfg : Configuration) (l : list TextItem) :
  forall s,
    fst (visitAll (translateTextNode dict cfg false) l s)
    = map (fun t : TextItem => (fst t, translatedValue dict t)) l.
Proof.
  induction l as [|[[anc id] v] l IH]; intros s; [reflexivity|].
  simpl.
  destruct (translateTextNode dict cfg false anc id v s) as [v' s1] eqn:E.
  specialize (IH s1).
  destruct (visitAll (translateTextNode dict cfg false) l s1) as [l' s2].
  cbn [fst] in *. rewrite IH. f_equal. f_equal.
  destruct (acceptNode false anc id v s) eqn:Ha.
  - rewrite <- (translateTextNode_value cfg false anc id v s Ha), E.
    reflexivity.
  - rewrite (translateTextNode_rejected dict cfg false anc id v s Ha) in E.
    injection E as <- _.
    rewrite acceptNode_spec in Ha. cbn [andb negb] in Ha.
    rewrite andb_true_r in Ha.
    symmetry. apply (translatedValue_rejected _ Ha).
Qed.

Lemma incremental_loop (cfg : Configuration) (l : list TextItem) :
  NoDup (map itemId l) ->
  forall s,
    fst (visitAll (translateTextNode dict cfg true) l s)
    = map (fun t : TextItem =>
             (fst t,
              if weakSetHas (processed s) (itemId t) then snd t
              else translatedValue dict t))
        l.
Proof.
  induction l as [|[[anc id] v] l IH]; intros Hnd s; [reflexivity|].
  simpl in Hnd. inversion Hnd as [|? ? Hnin Hnd']; subst.
  simpl.
  destruct (translateTextNode dict cfg true anc id v s) as [v' s1] eqn:E.
  specialize (IH Hnd' s1).
  destruct (visitAll (translateTextNode dict cfg true) l s1) as [l' s2].
  cbn [fst] in *. rewrite IH. clear IH.
  change (itemId (anc, id, v)) with id. cbn [fst snd].
  destruct (acceptNode true anc id v s) eqn:Ha.
  - pose proof (translateTextNode_value cfg true anc id v s Ha) as Hv.
    pose proof (translateTextNode_state dict cfg true anc id v s Ha) as Hs.
    rewrite E in Hv, Hs. cbn [fst snd] in Hv, Hs.
    rewrite acceptNode_spec in Ha. apply andb_true_iff in Ha.
    destruct Ha as [_ Ha]. cbn [andb] in Ha.
    apply negb_true_iff in Ha. rewrite Ha, Hv. f_equal.
    apply map_ext_in. intros t Hin. rewrite Hs, weakSetHas_add.
    destruct (N.eqb_spec (itemId t) id) as [Heq|_];
      [|rewrite orb_false_r; reflexivity].
    exfalso. apply Hnin. change (itemId (anc, id, v)) with id.
    rewrite <- Heq. apply (in_map itemId l t Hin).
  - rewrite (translateTextNode_rejected dict cfg true anc id v s Ha) in E.
    injection E as <- <-.
    rewrite acceptNode_spec in Ha. cbn [andb] in Ha.
    f_equal. f_equal.
    destruct (weakSetHas (processed s) id); [reflexivity|].
    cbn [negb] in Ha. rewrite andb_true_r in Ha.
    symmetry. apply (translatedValue_rejected _ Ha).
Qed.

Lemma translateTextNodesIn_texts (b : bool) (w : World) :
  bodyTexts (document (translateTextNodesIn dict b w))
  = fst (visitAll (translateTextNode dict (currentConfiguration w) b)
           (bodyTexts (document w)) (walkOf w)).
Proof.
  rewrite translateTextNodesIn_walked.
  assert (H : bodyTexts (document (walked dict b w))
              = fst (visitAll
                       (translateTextNode dict (currentConfiguration w) b)
                       (bodyTexts (document w)) (walkOf w))).
  { rewrite <- (walked_texts dict b w). reflexivity. }
  destruct (useTranslationApi (currentConfiguration w));
    [rewrite request_document|]; exact H.
Qed.

Lemma translateTextNodesIn_frame (b : bool) (w : World) :
  let w' := translateTextNodesIn dict b w in
  documentElement (document w') = documentElement (document w)
  /\ headNodes (document w') = headNodes (document w)
  /\ body (document w') = body (document w)
  /\ tailNodes (document w') = tailNodes (document w)
  /\ elementsOf (document w') = elementsOf (document w).
Proof.
  cbn zeta. rewrite translateTextNodesIn_walked.
  assert (H : document
                (if useTranslationApi (currentConfiguration w)
                 then requestAsyncTranslationForVisibleTextNodes
                        (walked dict b w)
                 else walked dict b w)
              = document (walked dict b w)).
  { destruct (useTranslationApi (currentConfiguration w));
      [apply request_document | reflexivity]. }
  rewrite H. unfold walked, afterWalk. cbn [document].
  destruct (walkBody_frame _
              (translateTextNode dict (currentConfiguration w) b)
              (document w) (walkOf w)) as (H1 & H2 & H3 & H4).
  repeat split; try assumption.
  apply walkBody_elements.
Qed.
End FullPassFacts.

(** X4.  [translateTextNodesIn] changes nothing but values of text nodes
    of the body: the root element, the head, the body element and what
    follows the body are the same, so is every element with its attributes,
    and the text nodes of the body keep their identity, their ancestors and
    their order. *)
Theorem text_pass_changes_text_values_only
    (U : Unicode) (dict : list (jsstring * jsstring)) (b : bool) (w : World) :
  let w' := translateTextNodesIn dict b w in
  documentElement (document w') = documentElement (document w)
  /\ headNodes (document w') = headNodes (document w)
  /\ body (document w') = body (document w)
  /\ tailNodes (document w') = tailNodes (document w)
  /\ elementsOf (document w') = elementsOf (document w)
  /\ map fst (bodyTexts (document w')) = map fst (bodyTexts (document w)).
Proof.
  cbn zeta.
  destruct (translateTextNodesIn_frame dict b w) as (H1 & H2 & H3 & H4 & H5).
  repeat split; try assumption.
  rewrite translateTextNodesIn_texts. apply visitAll_nodes.
Qed.

(** X5.  After a full run of [translateTextNodesIn] every text node of the
    body that passes the filter (a value that is not blank, a parent that is
    not skipped) holds the dictionary translation of its value, unless that
    translation is empty; every other text node holds its value.  This is so
    with remote translation switched on or off. *)
Theorem full_pass_writes_the_dictionary_translation
    (U : Unicode) (dict : list (jsstring * jsstring)) (w : World) :
  bodyTexts (document (translateTextNodesIn dict false w))
  = map (fun t : TextItem => (fst t, translatedValue dict t))
      (bodyTexts (document w)).
Proof. rewrite translateTextNodesIn_texts. apply full_loop. Qed.

(** X6.  An incremental run ([onlyUntranslated = true]) leaves every text
    node that is in the processed set as it is, also when the page has
    changed its text since, and treats the other nodes as a full run does.
    Text nodes are told apart by their identity. *)
Theorem incremental_pass_translates_unprocessed_nodes_only
    (U : Unicode) (dict : list (jsstring * jsstring)) (w : World) :
  NoDup (map itemId (bodyTexts (document w))) ->
  bodyTexts (document (translateTextNodesIn dict true w))
  = map (fun t : TextItem =>
           (fst t,
            if weakSetHas (translatedTextNodeWeakSet w) (itemId t)
            then snd t else translatedValue dict t))
      (bodyTexts (document w)).
Proof.
  intros Hnd. rewrite translateTextNodesIn_texts.
  apply (incremental_loop dict (currentConfiguration w) _ Hnd (walkOf w)).
Qed.

Lemma incremental_pass_translates_unprocessed_nodes_only_witness :
  bodyTexts
    (document
       (@translateTextNodesIn basicUnicode issuesTable true changedWorld))
  = map (fun t : TextItem =>
           (fst t,
            if weakSetHas (translatedTextNodeWeakSet changedWorld) (itemId t)
            then snd t else @translatedValue basicUnicode issuesTable t))
      (bodyTexts (document changedWorld)).
Proof.
  apply (@incremental_pass_translates_unprocessed_nodes_only basicUnicode
           issuesTable changedWorld).
  vm_compute.
  constructor; [intros [H | []]; discriminate|].
  constructor; [intros []|]. constructor.
Defined.

(** The page has replaced the text of a processed node by [Issues] and
    added a node with the same text: the observer callback translates the
    new node only. *)
Example changed_text_of_a_processed_node_is_kept :
  map (fun t : TextItem => (itemId t, snd t))
    (bodyTexts
       (document (@step basicUnicode issuesTable changedWorld ObserverFires)))
  = [(11%N, js "Issues"); (13%N, js "課題")].
Proof. vm_compute. reflexivity. Qed.

(** ** The attribute pass *)

Lemma setAttributeIn_names (attrs : list (jsstring * jsstring))
    (name value original : jsstring) :
  getAttribute attrs name = Some original ->
  map fst (setAttributeIn attrs name value) = map fst attrs.
Proof.
  induction attrs as [|[n v] r IH]; simpl; [discriminate|].
  destruct (jsstring_eqb n name); simpl; [reflexivity|].
  intros H. rewrite (IH H). reflexivity.
Qed.

Lemma sameButTranslated_refl (e : Element) : sameButTranslated e e.
Proof. repeat split. Qed.

Lemma sameButTranslated_trans (a b c : Element) :
  sameButTranslated a b -> sameButTranslated b c -> sameButTranslated a c.
Proof.
  intros (H1 & H0 & H2 & H3 & H4 & H5) (K1 & K0 & K2 & K3 & K4 & K5).
  repeat split; try congruence.
  intros name Hn. rewrite K5, H5 by assumption. reflexivity.
Qed.

Lemma sameButTranslated_set (e : Element) (a : AttributeName)
    (value original : jsstring) :
  getAttribute (attributes e) (attributeNameString a) = Some original ->
  sameButTranslated e (setAttribute e (attributeNameString a) value).
Proof.
  intros H. repeat split.
  - apply (setAttributeIn_names _ _ _ _ H).
  - intros name Hn. cbn [attributes setAttribute].
    apply getAttribute_set_other. intros E. apply Hn. rewrite <- E.
    apply in_map. destruct a; simpl; auto.
Qed.

Lemma sameButTranslated_key (e e' : Element) :
  sameButTranslated e e' -> skipKey e' = skipKey e.
Proof.
  intros (H1 & H0 & H2 & H3 & H4 & H5).
  unfold skipKey, matchesNoTranslate, hasAttribute.
  rewrite H0, H2, H3, !H5; [reflexivity | |];
    simpl; intros [H | [H | [H | []]]]; discriminate.
Qed.

Section AttributePass.
Context {U : Unicode}.
Variable dict : list (jsstring * jsstring).
Variable cfg : Configuration.

Lemma translateAttribute_same (es : Element * Requests) (a : AttributeName) :
  sameButTranslated (fst es) (fst (translateAttribute dict cfg es a)).
Proof.
  destruct es as [e s]. unfold translateAttribute. cbn [fst].
  destruct (getAttribute (attributes e) (attributeNameString a))
    as [original|] eqn:E; [|apply sameButTranslated_refl].
  destruct (isEmpty original); [apply sameButTranslated_refl|].
  destruct (negb (jsstring_eqb (translateByDictionary dict original) original)).
  - cbn [fst]. apply (sameButTranslated_set _ _ _ _ E).
  - destruct (useTranslationApi cfg); apply sameButTranslated_refl.
Qed.

Lemma translateElementAttributes_same (anc : list Element) (e : Element)
    (s : Requests) :
  sameButTranslated e (fst (translateElementAttributes dict cfg anc e s)).
Proof.
  unfold translateElementAttributes.
  destruct (attributeSelector e); [|apply sameButTranslated_refl].
  destruct (shouldSkipElement (e :: anc)); [apply sameButTranslated_refl|].
  unfold attributesToTranslate. cbn [fold_left].
  eapply sameButTranslated_trans; [|apply translateAttribute_same].
  eapply sameButTranslated_trans; [|apply translateAttribute_same].
  apply (translateAttribute_same (e, s)).
Qed.

Lemma translateElementAttributes_skipped (anc : list Element) (e : Element)
    (s : Requests) :
  attributeSelector e = false \/ shouldSkipElement (e :: anc) = true ->
  translateElementAttributes dict cfg anc e s = (e, s).
Proof.
  unfold translateElementAttributes. intros [H | H].
  - rewrite H. reflexivity.
  - rewrite H. destruct (attributeSelector e); reflexivity.
Qed.

Lemma translateAttribute_value (es : Element * Requests)
    (a a' : AttributeName) :
  getAttribute (attributes (fst (translateAttribute dict cfg es a)))
    (attributeNameString a')
  = if jsstring_eqb (attributeNameString a) (attributeNameString a')
    then option_map (translatedAttribute dict)
           (getAttribute (attributes (fst es)) (attributeNameString a'))
    else getAttribute (attributes (fst es)) (attributeNameString a').
Proof.
  destruct es as [e s]. unfold translateAttribute. cbn [fst].
  destruct (jsstring_eqb (attributeNameString a) (attributeNameString a'))
    eqn:En.
  - apply jsstring_eqb_eq in En. rewrite <- En.
    destruct (getAttribute (attributes e) (attributeNameString a))
      as [original|] eqn:E; [|cbn [fst]; rewrite E; reflexivity].
    unfold translatedAttribute. cbn [option_map].
    destruct (isEmpty original); [cbn [fst]; exact E|].
    destruct (jsstring_eqb (translateByDictionary dict original) original)
      eqn:Eq; cbn [negb].
    + apply jsstring_eqb_eq in Eq. rewrite Eq.
      destruct (useTranslationApi cfg); cbn [fst]; exact E.
    + cbn [fst attributes setAttribute]. apply getAttribute_set_same.
  - apply jsstring_eqb_neq in En.
    destruct (getAttribute (attributes e) (attributeNameString a))
      as [original|]; [|reflexivity].
    destruct (isEmpty original); [reflexivity|].
    destruct (negb (jsstring_eqb (translateByDictionary dict original)
                      original)).
    + cbn [fst attributes setAttribute].
      apply getAttribute_set_other. exact En.
    + destruct (useTranslationApi cfg); reflexivity.
Qed.

Lemma translateElementAttributes_value (anc : list Element) (e : Element)
    (s : Requests) (a : AttributeName) :
  attributeSelector e = true ->
  shouldSkipElement (e :: anc) = false ->
  getAttribute
    (attributes (fst (translateElementAttributes dict cfg anc e s)))
    (attributeNameString a)
  = option_map (translatedAttribute dict)
      (getAttribute (attributes e) (attributeNameString a)).
Proof.
  intros Hsel Hskip. unfold translateElementAttributes.
  rewrite Hsel, Hskip. unfold attributesToTranslate. cbn [fold_left].
  rewrite !translateAttribute_value. cbn [fst].
  destruct a; vm_compute jsstring_eqb; reflexivity.
Qed.

Lemma visit_left (anc anc' : list Element) (e : Element) (s : Requests) :
  map skipKey anc = map skipKey anc' ->
  (leftByAttributePass (anc, e)
     (fst (translateElementAttributes dict cfg anc' e s))
   /\ (attributeSelector e = true ->
       shouldSkipElement (e :: anc) = false ->
       forall a,
         getAttribute
           (attributes (fst (translateElementAttributes dict cfg anc' e s)))
           (attributeNameString a)
         = option_map (translatedAttribute dict)
             (getAttribute (attributes e) (attributeNameString a))))
  /\ map skipKey (e :: anc)
     = map skipKey (fst (translateElementAttributes dict cfg anc' e s)
                    :: anc').
Proof.
  intros Hk.
  assert (Hskip : shouldSkipElement (e :: anc')
                  = shouldSkipElement (e :: anc)).
  { apply shouldSkipElement_keys. simpl. rewrite Hk. reflexivity. }
  split; [split; [split|]|].
  - apply translateElementAttributes_same.
  - cbn [fst snd]. intros H.
    rewrite translateElementAttributes_skipped; [reflexivity|].
    destruct H as [H | H]; [left; exact H | right].
    rewrite Hskip. exact H.
  - intros Hsel Hs a. apply translateElementAttributes_value; [exact Hsel|].
    rewrite Hskip. exact Hs.
  - simpl. rewrite Hk. f_equal. symmetry.
    apply translateElementAttributes_key.
Qed.

(** A property of what the pass leaves of every element. *)
Variable Q : ElementItem -> Element -> Prop.
Hypothesis visit_Q :
  forall anc anc' e s,
    map skipKey anc = map skipKey anc' ->
    Q (anc, e) (fst (translateElementAttributes dict cfg anc' e s)).

Lemma visit_left_keys (anc anc' : list Element) (e : Element) (s : Requests) :
  map skipKey anc = map skipKey anc' ->
  map skipKey (e :: anc)
  = map skipKey (fst (translateElementAttributes dict cfg anc' e s) :: anc').
Proof. intros Hk. apply (visit_left anc anc' e s Hk). Qed.

Lemma mapElements_left_from (l : list Node) :
  Forall
    (fun n => forall anc anc' s,
       map skipKey anc = map skipKey anc' ->
       Forall2 Q (elementItemsOfNode anc n)
         (elementsOfNode
            (fst (mapElement (translateElementAttributes dict cfg) anc' n s))))
    l ->
  forall anc anc' s,
    map skipKey anc = map skipKey anc' ->
    Forall2 Q (elementItemsOfNodes anc l)
      (elementsOfNodes
         (fst (mapElements (translateElementAttributes dict cfg) anc' l s))).
Proof.
  induction 1 as [|n l Hn _ IH]; intros anc anc' s Hk; [constructor|].
  simpl. specialize (Hn anc anc' s Hk).
  destruct (mapElement (translateElementAttributes dict cfg) anc' n s)
    as [n' s1].
  specialize (IH anc anc' s1 Hk).
  destruct (mapElements (translateElementAttributes dict cfg) anc' l s1)
    as [l' s2].
  cbn [fst elementsOfNodes] in *. apply Forall2_app; assumption.
Qed.

Lemma elementItemsOfNode_element (anc : list Element) (e : Element)
    (children : list Node) :
  elementItemsOfNode anc (ElementNode e children)
  = (anc, e) :: elementItemsOfNodes (e :: anc) children.
Proof.
  simpl. f_equal.
  induction children as [|c r IH]; simpl; try rewrite IH; reflexivity.
Qed.

Lemma mapElement_left (n : Node) :
  forall anc anc' s,
    map skipKey anc = map skipKey anc' ->
    Forall2 Q (elementItemsOfNode anc n)
      (elementsOfNode
         (fst (mapElement (translateElementAttributes dict cfg) anc' n s))).
Proof.
  induction n as [id v | e children IH] using Node_induction;
    intros anc anc' s Hk; [constructor|].
  rewrite mapElement_element, elementItemsOfNode_element.
  pose proof (visit_Q anc anc' e s Hk) as Hp.
  pose proof (visit_left_keys anc anc' e s Hk) as Hk'.
  destruct (translateElementAttributes dict cfg anc' e s) as [e' s0].
  cbn [fst] in Hp, Hk'.
  pose proof (mapElements_left_from children IH (e :: anc) (e' :: anc') s0
                Hk') as H.
  destruct (mapElements (translateElementAttributes dict cfg) (e' :: anc')
              children s0) as [c' s'].
  cbn [fst] in *. rewrite elementsOfNode_element.
  constructor; assumption.
Qed.

Lemma mapElements_left (l : list Node) (anc anc' : list Element)
    (s : Requests) :
  map skipKey anc = map skipKey anc' ->
  Forall2 Q (elementItemsOfNodes anc l)
    (elementsOfNodes
       (fst (mapElements (translateElementAttributes dict cfg) anc' l s))).
Proof.
  apply mapElements_left_from. apply Forall_forall. intros n _.
  apply mapElement_left.
Qed.

Lemma mapDocument_left (d : Document) (s : Requests) :
  Forall2 Q (elementItems d)
    (elementsOf
       (fst (mapDocument (translateElementAttributes dict cfg) d s))).
Proof.
  unfold mapDocument, elementItems, elementsOf.
  pose proof (visit_Q [] [] (documentElement d) s eq_refl) as Hp0.
  pose proof (visit_left_keys [] [] (documentElement d) s eq_refl) as Hk0.
  destruct (translateElementAttributes dict cfg [] (documentElement d) s)
    as [html' s0].
  cbn [fst] in Hp0, Hk0.
  pose proof (mapElements_left (headNodes d) _ _ s0 Hk0) as Hh.
  destruct (mapElements (translateElementAttributes dict cfg) [html']
              (headNodes d) s0) as [head' s1].
  pose proof (visit_Q _ _ (body d) s1 Hk0) as Hp1.
  pose proof (visit_left_keys _ _ (body d) s1 Hk0) as Hk1.
  destruct (translateElementAttributes dict cfg [html'] (body d) s1)
    as [body' s2].
  cbn [fst] in Hp1, Hk1, Hh.
  pose proof (mapElements_left (bodyNodes d) _ _ s2 Hk1) as Hb.
  destruct (mapElements (translateElementAttributes dict cfg) [body'; html']
              (bodyNodes d) s2) as [nodes' s3].
  pose proof (mapElements_left (tailNodes d) _ _ s3 Hk0) as Ht.
  destruct (mapElements (translateElementAttributes dict cfg) [html']
              (tailNodes d) s3) as [tail' s4].
  cbn [fst] in *.
  cbn [documentElement headNodes body bodyNodes tailNodes].
  constructor; [exact Hp0|].
  apply Forall2_app; [exact Hh|].
  constructor; [exact Hp1|].
  apply Forall2_app; assumption.
Qed.
End AttributePass.

(** X7.  [translateAttributesForInteractiveElements] changes at most the
    values of [placeholder], [title] and [aria-label]: every element keeps
    its identity, its name, its attributes in their order and the value of
    every other attribute; an element that the selector does not match or
    that [shouldSkipElement] rejects is not changed at all; and no text node
    of the body is changed. *)
Theorem attribute_pass_changes_three_attribute_values_only
    (U : Unicode) (dict : list (jsstring * jsstring)) (w : World) :
  let w' := translateAttributesForInteractiveElements dict w in
  Forall2 leftByAttributePass
    (elementItems (document w)) (elementsOf (document w'))
  /\ Forall2 sameItem (bodyTexts (document w)) (bodyTexts (document w')).
Proof.
  cbn zeta. split.
  - apply (mapDocument_left dict (currentConfiguration w)).
    intros anc anc' e s Hk. apply (visit_left dict _ anc anc' e s Hk).
  - apply mapDocument_texts. intros. apply translateElementAttributes_key.
Qed.

(** X8.  On an element that the selector matches and that is not skipped,
    the attribute pass leaves each of [placeholder], [title] and
    [aria-label] that is present and not empty with the dictionary
    translation of its value (which may be empty); an absent or empty
    attribute stays as it is. *)
Theorem attribute_pass_writes_the_dictionary_translation
    (U : Unicode) (dict : list (jsstring * jsstring)) (w : World) :
  Forall2
    (fun (item : ElementItem) (e' : Element) =>
       attributeSelector (snd item) = true ->
       shouldSkipElement (snd item :: fst item) = false ->
       forall a : AttributeName,
         getAttribute (attributes e') (attributeNameString a)
         = option_map (translatedAttribute dict)
             (getAttribute (attributes (snd item)) (attributeNameString a)))
    (elementItems (document w))
    (elementsOf
       (document (translateAttributesForInteractiveElements dict w))).
Proof.
  apply (mapDocument_left dict (currentConfiguration w)
           (fun (item : ElementItem) (e' : Element) =>
              attributeSelector (snd item) = true ->
              shouldSkipElement (snd item :: fst item) = false ->
              forall a : AttributeName,
                getAttribute (attributes e') (attributeNameString a)
                = option_map (translatedAttribute dict)
                    (getAttribute (attributes (snd item))
                       (attributeNameString a)))).
  intros anc anc' e s Hk. apply (visit_left dict _ anc anc' e s Hk).
Qed.

(** ** State threaded through the elements *)
Section ElementWalkState.
Variable State : Type.
Variable visit : list Element -> Element -> State -> Element * State.
Variable P : State -> Prop.
Hypothesis visit_keeps : forall anc e s, P s -> P (snd (visit anc e s)).

Lemma mapElements_state_from (l : list Node) :
  Forall
    (fun n => forall anc s, P s -> P (snd (mapElement visit anc n s))) l ->
  forall anc s, P s -> P (snd (mapElements visit anc l s)).
Proof.
  induction 1 as [|n l Hn _ IH]; intros anc s Hs; [exact Hs|].
  simpl. specialize (Hn anc s Hs).
  destruct (mapElement visit anc n s) as [n' s1]. cbn [snd] in Hn.
  specialize (IH anc s1 Hn).
  destruct (mapElements visit anc l s1) as [l' s2]. exact IH.
Qed.

Lemma mapElement_state (n : Node) :
  forall anc s, P s -> P (snd (mapElement visit anc n s)).
Proof.
  induction n as [id v | e children IH] using Node_induction;
    intros anc s Hs; [exact Hs|].
  rewrite mapElement_element.
  pose proof (visit_keeps anc e s Hs) as H0.
  destruct (visit anc e s) as [e' s0]. cbn [snd] in H0.
  pose proof (mapElements_state_from children IH (e' :: anc) s0 H0) as H1.
  destruct (mapElements visit (e' :: anc) children s0) as [c' s'].
  exact H1.
Qed.

Lemma mapElements_state (l : list Node) (anc : list Element) (s : State) :
  P s -> P (snd (mapElements visit anc l s)).
Proof.
  apply mapElements_state_from. apply Forall_forall. intros n _.
  apply mapElement_state.
Qed.

Lemma mapDocument_state (d : Document) (s : State) :
  P s -> P (snd (mapDocument visit d s)).
Proof.
  intros Hs. unfold mapDocument.
  pose proof (visit_keeps [] (documentElement d) s Hs) as H0.
  destruct (visit [] (documentElement d) s) as [html' s0]. cbn [snd] in H0.
  pose proof (mapElements_state (headNodes d) [html'] s0 H0) as H1.
  destruct (mapElements visit [html'] (headNodes d) s0) as [head' s1].
  cbn [snd] in H1.
  pose proof (visit_keeps [html'] (body d) s1 H1) as H2.
  destruct (visit [html'] (body d) s1) as [body' s2]. cbn [snd] in H2.
  pose proof (mapElements_state (bodyNodes d) [body'; html'] s2 H2) as H3.
  destruct (mapElements visit [body'; html'] (bodyNodes d) s2)
    as [nodes' s3].
  cbn [snd] in H3.
  pose proof (mapElements_state (tailNodes d) [html'] s3 H3) as H4.
  destruct (mapElements visit [html'] (tailNodes d) s3) as [tail' s4].
  exact H4.
Qed.
End ElementWalkState.

(** ** Where the requests go *)
Section RoutingFacts.
Context {U : Unicode}.
Variable dict : list (jsstring * jsstring).
Variable cfg0 : Configuration.

Lemma provider_of_settings (c : Configuration) :
  useTranslationApi c = useTranslationApi cfg0 ->
  translationProvider c = translationProvider cfg0 ->
  translationApiKey c = translationApiKey cfg0 ->
  translateListByOptionalApi c = translateListByOptionalApi cfg0.
Proof. unfold translateListByOptionalApi. intros -> -> ->. reflexivity. Qed.

Lemma provider_configured (c : Configuration) (k : ProviderKind) :
  translateListByOptionalApi c = Some k ->
  useTranslationApi c = true
  /\ translationApiKey c <> []
  /\ providerOf (translationProvider c) = Some k.
Proof.
  unfold translateListByOptionalApi.
  destruct (useTranslationApi c); [|discriminate]. cbn [negb orb].
  destruct (jsstring_eqb (translationProvider c) (js "None"));
    [discriminate|].
  destruct (translationApiKey c); [discriminate|].
  cbn [isEmpty]. intros H. repeat split; [discriminate | exact H].
Qed.

Lemma translateByOptionalApi_routed (c : Configuration) (id : N)
    (a : AttributeName) (text : jsstring) (s : Requests) :
  translateListByOptionalApi c = translateListByOptionalApi cfg0 ->
  text <> [] ->
  translateByDictionary dict text = text ->
  (forall r, In r (requested s) -> routedRequest dict cfg0 r) ->
  forall r, In r (requested (translateByOptionalApi c id a text s)) ->
            routedRequest dict cfg0 r.
Proof.
  intros Hc Ht Hd Hs r. unfold translateByOptionalApi.
  unfold translateListByOptionalApi in Hc.
  destruct (negb (useTranslationApi c)
            || jsstring_eqb (translationProvider c) (js "None"));
    [apply Hs|].
  destruct (isEmpty (translationApiKey c)); [apply Hs|].
  destruct (providerOf (translationProvider c)) as [k|]; [|apply Hs].
  cbn [requested]. rewrite in_app_iff. intros [H | [<- | []]]; [auto|].
  repeat split; cbn; auto.
Qed.

Lemma translateAttribute_routed (c : Configuration)
    (es : Element * Requests) (a : AttributeName) :
  translateListByOptionalApi c = translateListByOptionalApi cfg0 ->
  (forall r, In r (requested (snd es)) -> routedRequest dict cfg0 r) ->
  forall r, In r (requested (snd (translateAttribute dict c es a))) ->
            routedRequest dict cfg0 r.
Proof.
  intros Hc Hs. destruct es as [e s]. unfold translateAttribute.
  cbn [snd] in Hs.
  destruct (getAttribute (attributes e) (attributeNameString a))
    as [original|]; [|exact Hs].
  destruct (isEmpty original) eqn:He; [exact Hs|].
  destruct (jsstring_eqb (translateByDictionary dict original) original)
    eqn:Eq; cbn [negb]; [|exact Hs].
  destruct (useTranslationApi c); [|exact Hs].
  cbn [snd]. apply translateByOptionalApi_routed; try assumption.
  - intros ->. discriminate.
  - apply jsstring_eqb_eq. exact Eq.
Qed.

Lemma translateElementAttributes_routed (c : Configuration)
    (anc : list Element) (e : Element) (s : Requests) :
  translateListByOptionalApi c = translateListByOptionalApi cfg0 ->
  (forall r, In r (requested s) -> routedRequest dict cfg0 r) ->
  forall r,
    In r (requested (snd (translateElementAttributes dict c anc e s))) ->
    routedRequest dict cfg0 r.
Proof.
  intros Hc Hs. unfold translateElementAttributes.
  destruct (attributeSelector e); [|exact Hs].
  destruct (shouldSkipElement (e :: anc)); [exact Hs|].
  unfold attributesToTranslate. cbn [fold_left].
  apply translateAttribute_routed; [exact Hc|].
  apply translateAttribute_routed; [exact Hc|].
  apply translateAttribute_routed; [exact Hc|].
  exact Hs.
Qed.

Lemma translate_loop_offline (c : Configuration) (b : bool)
    (l : list TextItem) :
  useTranslationApi c = false ->
  forall s,
    pending (snd (visitAll (translateTextNode dict c b) l s)) = pending s.
Proof.
  intros Hc. induction l as [|[[anc id] v] l IH]; intros s; [reflexivity|].
  simpl.
  destruct (translateTextNode dict c b anc id v s) as [v' s1] eqn:E.
  specialize (IH s1).
  destruct (visitAll (translateTextNode dict c b) l s1) as [l' s2].
  cbn [snd] in *. rewrite IH.
  unfold translateTextNode in E. rewrite Hc in E. cbn [andb] in E.
  destruct (acceptNode b anc id v s); injection E as _ <-; reflexivity.
Qed.

Lemma translateTextNodesIn_routed (b : bool) (w : World) :
  routedBy dict cfg0 w -> routedBy dict cfg0 (translateTextNodesIn dict b w).
Proof.
  intros ((Ha & Hp & Hk) & Hb & Hr & Hoff).
  assert (Hcfg : currentConfiguration (translateTextNodesIn dict b w)
                 = currentConfiguration w).
  { rewrite translateTextNodesIn_walked.
    destruct (useTranslationApi (currentConfiguration w)); [|reflexivity].
    apply (request_state (walked dict b w)). }
  assert (Hreq : attributeRequests (translateTextNodesIn dict b w)
                 = attributeRequests w).
  { rewrite translateTextNodesIn_walked.
    destruct (useTranslationApi (currentConfiguration w)); [|reflexivity].
    apply (request_state (walked dict b w)). }
  split; [rewrite Hcfg; auto|].
  split; [rewrite translateTextNodesIn_batches; exact Hb|].
  split; [rewrite Hreq; exact Hr|].
  intros Hf. destruct (Hoff Hf) as (H1 & H2 & H3).
  rewrite translateTextNodesIn_batches.
  rewrite translateTextNodesIn_walked.
  rewrite Ha, Hf.
  split; [|split; [exact H2 | exact H3]].
  pose proof (f_equal (fun p => pending (snd p)) (walked_texts dict b w))
    as Hw.
  cbn [snd pending] in Hw. rewrite Hw.
  rewrite translate_loop_offline by (rewrite Ha; exact Hf).
  exact H1.
Qed.

Lemma attributes_routed (w : World) :
  routedBy dict cfg0 w ->
  routedBy dict cfg0 (translateAttributesForInteractiveElements dict w).
Proof.
  intros ((Ha & Hp & Hk) & Hb & Hr & Hoff).
  split; [repeat split; assumption|].
  split; [exact Hb|].
  split; [|exact Hoff].
  unfold translateAttributesForInteractiveElements.
  cbn [attributeRequests withAttributeRequests].
  apply (mapDocument_state Requests
           (translateElementAttributes dict (currentConfiguration w))
           (fun s =>
              forall r, In r (requested s) -> routedRequest dict cfg0 r)).
  - intros anc e s Hs. apply translateElementAttributes_routed; [|exact Hs].
    apply provider_of_settings; assumption.
  - exact Hr.
Qed.

Lemma translateEntire_routed (w : World) :
  routedBy dict cfg0 w ->
  routedBy dict cfg0 (translateEntireDocumentNow dict w).
Proof.
  intros H. apply attributes_routed, translateTextNodesIn_routed, H.
Qed.

Lemma setEnabled_routed (value : bool) (w : World) :
  routedBy dict cfg0 w -> routedBy dict cfg0 (setEnabled dict value w).
Proof.
  intros H. unfold setEnabled.
  destruct value; [apply translateEntire_routed|]; exact H.
Qed.

Lemma pendingTimerFires_routed (w : World) :
  pendingAsyncTimer w = true ->
  routedBy dict cfg0 w -> routedBy dict cfg0 (pendingTimerFires w).
Proof.
  intros Ht ((Ha & Hp & Hk) & Hb & Hr & Hoff).
  split; [repeat split; assumption|].
  split; [|split; [exact Hr|]].
  - intros b. unfold pendingTimerFires. cbn [batchRequests].
    destruct (isEmpty (firstn 50 (pendingAsyncTextsSet w))); [apply Hb|].
    rewrite in_app_iff. intros [H | [<- | []]]; [auto|].
    cbn [batchProvider]. apply provider_of_settings; assumption.
  - intros Hf. destruct (Hoff Hf) as (_ & H2 & _). congruence.
Qed.

Lemma applyBatchResult_routed (w : World) (texts : list jsstring)
    (result : JsError + list JsValue) :
  routedBy dict cfg0 w -> routedBy dict cfg0 (applyBatchResult w texts result).
Proof.
  intros ((Ha & Hp & Hk) & Hb & Hr & Hoff).
  assert (Hc : currentConfiguration (applyBatchResult w texts result)
               = currentConfiguration w)
    by (destruct result as [e | l];
        [reflexivity | apply (applyBatchResult_applied w texts l)]).
  assert (Hq : attributeRequests (applyBatchResult w texts result)
               = attributeRequests w)
    by (destruct result as [e | l];
        [reflexivity | apply (applyBatchResult_applied w texts l)]).
  assert (Ht : pendingAsyncTimer (applyBatchResult w texts result)
               = pendingAsyncTimer w)
    by (destruct result as [e | l];
        [reflexivity | apply (applyBatchResult_applied w texts l)]).
  rewrite <- Hc in Ha, Hp, Hk. rewrite <- Hq in Hr.
  rewrite <- (applyBatchResult_batches w texts result) in Hb.
  split; [repeat split; assumption|].
  split; [exact Hb|]. split; [exact Hr|].
  intros Hf. destruct (Hoff Hf) as (H1 & H2 & H3).
  rewrite applyBatchResult_pending, Ht, applyBatchResult_batches. auto.
Qed.

Lemma batchResponse_routed (n : nat) (outcome : FetchOutcome) (w : World) :
  routedBy dict cfg0 w -> routedBy dict cfg0 (batchResponseArrives n outcome w).
Proof.
  intros H. unfold batchResponseArrives.
  destruct (nth_error (batchRequests w) n) as [b|]; [|exact H].
  apply applyBatchResult_routed.
  destruct H as (Hs & Hb & Hr & Hoff).
  split; [exact Hs|].
  split; [intros b' Hin; apply Hb; apply (removeNth_In _ _ _ _ Hin)|].
  split; [exact Hr|].
  intros Hf. destruct (Hoff Hf) as (H1 & H2 & H3).
  cbn. rewrite H3. destruct n; auto.
Qed.

Lemma attributeResponse_routed (n : nat) (outcome : FetchOutcome)
    (w : World) :
  routedBy dict cfg0 w ->
  routedBy dict cfg0 (attributeResponseArrives n outcome w).
Proof.
  intros (Hs & Hb & Hr & Hoff). unfold attributeResponseArrives.
  destruct (nth_error (attributeRequests w) n) as [r|];
    [|exact (conj Hs (conj Hb (conj Hr Hoff)))].
  destruct (translateByOptionalApi_settled (requestOriginal r)
              (requestProvider r) outcome) as [text logs].
  assert (H : forall r', In r' (removeNth n (attributeRequests w)) ->
                         routedRequest dict cfg0 r').
  { intros r' Hin. apply Hr. apply (removeNth_In _ _ _ _ Hin). }
  destruct (truthy text && differsFrom text (requestOriginal r));
    [destruct (valueToString text) |];
    (split; [exact Hs|]; split; [exact Hb|]; split; [exact H | exact Hoff]).
Qed.

Lemma step_routed (e : Event) (w : World) :
  routedBy dict cfg0 w -> routedBy dict cfg0 (step dict w e).
Proof.
  intros H. unfold step.
  destruct (enabledEvent w e) eqn:He; [|exact H].
  destruct e; cbn [handle].
  - unfold observerCallback.
    destruct (negb (isEnabledOnGithub (currentConfiguration w))); [exact H|].
    apply attributes_routed, translateTextNodesIn_routed, H.
  - apply translateEntire_routed, H.
  - apply setEnabled_routed, H.
  - apply translateEntire_routed, H.
  - apply setEnabled_routed, H.
  - apply pendingTimerFires_routed; assumption.
  - apply batchResponse_routed, H.
  - apply attributeResponse_routed, H.
  - exact H.
Qed.

Lemma run_routed (events : list Event) :
  forall w, routedBy dict cfg0 w -> routedBy dict cfg0 (run dict events w).
Proof.
  induction events as [|e events IH]; intros w H; [exact H|].
  apply IH, step_routed, H.
Qed.
End RoutingFacts.

Section RoutingStart.
Context {U : Unicode}.
Variable dict : list (jsstring * jsstring).

Lemma initialize_routed (d : Document) (cfg : Configuration) :
  routedBy dict cfg (initializeJapaneseTranslator dict d (Some cfg)).
Proof.
  assert (H0 : routedBy dict cfg
                 (withConfiguration (loaded (withLang d)) cfg false false)).
  { repeat split; try (intros ? []);
      match goal with H : In _ _ |- _ => destruct H end. }
  unfold initializeJapaneseTranslator.
  destruct (negb (isEnabledOnGithub cfg)); [exact H0|].
  apply (translateEntire_routed dict cfg) in H0. exact H0.
Qed.
End RoutingStart.

(** X9.  In every state the script reaches from its initialisation, a
    batch that goes to a provider and every attribute request go to the
    provider named in the stored configuration, and exist only if remote
    translation is switched on and the key is not empty; an attribute
    request carries a value that is not empty and that the table leaves as
    it is. *)
Theorem requests_go_to_the_configured_provider_only
    (U : Unicode) (dict : list (jsstring * jsstring)) (d : Document)
    (cfg : Configuration) (events : list Event) :
  let w := run dict events (initializeJapaneseTranslator dict d (Some cfg)) in
  (forall b k, In b (batchRequests w) -> batchProvider b = Some k ->
     useTranslationApi cfg = true
     /\ translationApiKey cfg <> []
     /\ providerOf (translationProvider cfg) = Some k)
  /\ (forall r, In r (attributeRequests w) ->
        useTranslationApi cfg = true
        /\ translationApiKey cfg <> []
        /\ providerOf (translationProvider cfg) = Some (requestProvider r)
        /\ requestOriginal r <> []
        /\ translateByDictionary dict (requestOriginal r)
           = requestOriginal r).
Proof.
  cbn zeta.
  destruct (run_routed dict cfg events _ (initialize_routed dict d cfg))
    as (_ & Hb & Hr & _).
  split.
  - intros b k Hin Hk. apply provider_configured.
    rewrite <- (Hb b Hin). exact Hk.
  - intros r Hin. destruct (Hr r Hin) as (H1 & H2 & H3).
    destruct (provider_configured cfg _ H1) as (K1 & K2 & K3).
    repeat split; assumption.
Qed.

(** X10.  With [useTranslationApi] false in the stored configuration, no
    sequence of callbacks and page changes queues a string, arms the timer
    or starts a request. *)
Theorem nothing_is_queued_while_remote_translation_is_off
    (U : Unicode) (dict : list (jsstring * jsstring)) (d : Document)
    (cfg : Configuration) (events : list Event) :
  useTranslationApi cfg = false ->
  let w := run dict events (initializeJapaneseTranslator dict d (Some cfg)) in
  pendingAsyncTextsSet w = []
  /\ pendingAsyncTimer w = false
  /\ batchRequests w = []
  /\ attributeRequests w = [].
Proof.
  intros Hf. cbn zeta.
  destruct (run_routed dict cfg events _ (initialize_routed dict d cfg))
    as (_ & _ & Hr & Hoff).
  destruct (Hoff Hf) as (H1 & H2 & H3).
  repeat split; try assumption.
  destruct (attributeRequests _) as [|r l]; [reflexivity|].
  destruct (Hr r (or_introl eq_refl)) as (H & _).
  apply provider_configured in H. destruct H as (H & _). congruence.
Qed.

Lemma nothing_is_queued_while_remote_translation_is_off_witness :
  let w :=
    @run basicUnicode issuesTable [ObserverFires; PendingTimerFires; PjaxEnd]
      (@initializeJapaneseTranslator basicUnicode issuesTable issuesPage
         (Some defaultConfiguration)) in
  pendingAsyncTextsSet w = []
  /\ pendingAsyncTimer w = false
  /\ batchRequests w = []
  /\ attributeRequests w = [].
Proof.
  cbn zeta.
  apply (@nothing_is_queued_while_remote_translation_is_off basicUnicode
           issuesTable issuesPage defaultConfiguration
           [ObserverFires; PendingTimerFires; PjaxEnd]).
  reflexivity.
Defined.

(** ** What is queued *)
Section QueueFacts.
Context {U : Unicode}.
Variable dict : list (jsstring * jsstring).

Lemma collectable_translatable (t : TextItem) :
  collectable t = true -> translatable t = true.
Proof.
  destruct t as [[anc id] v]. unfold collectable, translatable.
  intros H. rewrite !andb_true_iff in H.
  destruct H as ((((H1 & H2) & H3) & _) & _).
  rewrite H1, H2, H3. rewrite !andb_true_r.
  destruct v; [discriminate | reflexivity].
Qed.

Lemma translateTextNode_queue (cfg : Configuration) (b : bool)
    (anc : list Element) (id : N) (v : jsstring) (s : Walk) :
  pending (snd (translateTextNode dict cfg b anc id v s)) = pending s
  \/ (pending (snd (translateTextNode dict cfg b anc id v s))
      = setAdd (pending s) v
      /\ fst (translateTextNode dict cfg b anc id v s) = v
      /\ translatable (anc, id, v) = true).
Proof.
  unfold translateTextNode.
  destruct (acceptNode b anc id v s) eqn:Ha; [|left; reflexivity].
  rewrite acceptNode_spec in Ha. apply andb_true_iff in Ha.
  destruct Ha as [Ht _].
  unfold translateByOptionalApiSyncPlaceholder.
  destruct (useTranslationApi cfg
            && jsstring_eqb (translateByDictionary dict v) v);
    [right | left; reflexivity].
  cbn [fst snd pending]. rewrite jsstring_eqb_refl, andb_false_r.
  repeat split. exact Ht.
Qed.

Lemma translate_loop_queue (cfg : Configuration) (b : bool)
    (l : list TextItem) :
  forall s x,
    In x (pending (snd (visitAll (translateTextNode dict cfg b) l s))) ->
    In x (pending s)
    \/ exists t,
         In t (fst (visitAll (translateTextNode dict cfg b) l s))
         /\ snd t = x /\ translatable t = true.
Proof.
  induction l as [|[[anc id] v] l IH]; intros s x; [simpl; auto|].
  simpl.
  pose proof (translateTextNode_queue cfg b anc id v s) as Hq.
  destruct (translateTextNode dict cfg b anc id v s) as [v' s1].
  specialize (IH s1 x).
  destruct (visitAll (translateTextNode dict cfg b) l s1) as [l' s2].
  cbn [fst snd] in *. intros Hx.
  destruct (IH Hx) as [H1 | (t & Hin & Ht)].
  - destruct Hq as [Hq | (Hq & -> & Htr)].
    + left. rewrite <- Hq. exact H1.
    + rewrite Hq in H1. apply setAdd_In in H1.
      destruct H1 as [H1 | ->]; [left; exact H1|].
      right. exists (anc, id, v). repeat split; [left; reflexivity | exact Htr].
  - right. exists t. split; [right; exact Hin | exact Ht].
Qed.
End QueueFacts.

(** X11.  Every string that a run of [translateTextNodesIn] adds to the
    pending set is the value, not blank, of a text node of the body whose
    parent [shouldSkipElement] accepts: text of a skipped region is queued
    only if the same string also stands in an eligible node. *)
Theorem queued_strings_are_values_of_eligible_text_nodes
    (U : Unicode) (dict : list (jsstring * jsstring)) (b : bool) (w : World)
    (x : jsstring) :
  In x (pendingAsyncTextsSet (translateTextNodesIn dict b w)) ->
  In x (pendingAsyncTextsSet w)
  \/ exists t,
       In t (bodyTexts (document (translateTextNodesIn dict b w)))
       /\ snd t = x
       /\ shouldSkipElement (fst (fst t)) = false
       /\ trim x <> [].
Proof.
  assert (Hgen : forall t : TextItem,
             translatable t = true ->
             shouldSkipElement (fst (fst t)) = false /\ trim (snd t) <> []).
  { intros [[anc id] v]. unfold translatable. cbn [fst snd]. intros H.
    rewrite !andb_true_iff in H. destruct H as (((_ & _) & H2) & H3).
    apply negb_true_iff in H2, H3. split; [exact H2|].
    intros E. rewrite E in H3. discriminate. }
  assert (Hw : forall x0,
             In x0 (pendingAsyncTextsSet (walked dict b w)) ->
             In x0 (pendingAsyncTextsSet w)
             \/ exists t,
                  In t (bodyTexts (document (walked dict b w)))
                  /\ snd t = x0 /\ translatable t = true).
  { intros x0.
    pose proof (walked_texts dict b w) as Ht.
    pose proof (translate_loop_queue dict (currentConfiguration w) b
                  (bodyTexts (document w)) (walkOf w) x0) as Hq.
    rewrite <- Ht in Hq. exact Hq. }
  rewrite translateTextNodesIn_walked.
  destruct (useTranslationApi (currentConfiguration w)) eqn:Ha.
  - rewrite request_document.
    destruct (request_pending (walked dict b w) Ha) as [Hp _].
    rewrite Hp. intros Hx.
    destruct (collect_loop (bodyTexts (document (walked dict b w)))
                (walkOf (walked dict b w)))
      as (_ & _ & _ & _ & Hc & _).
    destruct (Hc x Hx) as [H1 | (t & Hin & Hct & <-)].
    + destruct (Hw x H1) as [H2 | (t & Hin & <- & Htr)]; [left; exact H2|].
      right. exists t. destruct (Hgen t Htr). auto.
    + right. exists t.
      destruct (Hgen t (collectable_translatable t Hct)). auto.
  - intros Hx. destruct (Hw x Hx) as [H2 | (t & Hin & <- & Htr)];
      [left; exact H2|].
    right. exists t. destruct (Hgen t Htr). auto.
Qed.

Lemma queued_strings_are_values_of_eligible_text_nodes_witness :
  let w := withConfiguration (loaded openPage) deepLConfiguration false false in
  In (js "Open") (pendingAsyncTextsSet w)
  \/ exists t,
       In t (bodyTexts
               (document (@translateTextNodesIn basicUnicode [] false w)))
       /\ snd t = js "Open"
       /\ @shouldSkipElement basicUnicode (fst (fst t)) = false
       /\ trim (js "Open") <> [].
Proof.
  cbn zeta.
  apply (@queued_strings_are_values_of_eligible_text_nodes basicUnicode []
           false
           (withConfiguration (loaded openPage) deepLConfiguration false
              false)).
  vm_compute. left. reflexivity.
Defined.

(** ** Responses *)
Section ResponseMore.
Context {U : Unicode}.

Lemma indexOf_nth (A : Type) (f : jsstring -> A) (d : A)
    (l : list jsstring) (x : jsstring) :
  forall i, indexOf l x = Some i -> nth i (map f l) d = f x.
Proof.
  induction l as [|y l IH]; intros i; simpl; [discriminate|].
  destruct (jsstring_eqb y x) eqn:He.
  - intros [= <-]. apply jsstring_eqb_eq in He. subst. reflexivity.
  - destruct (indexOf l x) as [j|]; [|discriminate].
    intros [= <-]. apply IH. reflexivity.
Qed.

Lemma indexOf_position (l : list jsstring) (x : jsstring) :
  NoDup l -> forall i, nth_error l i = Some x -> indexOf l x = Some i.
Proof.
  induction 1 as [|y l Hnin _ IH]; intros [|i]; simpl; try discriminate.
  - intros [= ->]. rewrite jsstring_eqb_refl. reflexivity.
  - intros Hi. destruct (jsstring_eqb y x) eqn:He.
    + apply jsstring_eqb_eq in He. subst y. exfalso. apply Hnin.
      apply (nth_error_In _ _ Hi).
    + rewrite (IH i Hi). reflexivity.
Qed.

Lemma applyTranslation_identity (texts : list jsstring)
    (anc : list Element) (id : N) (v : jsstring)
    (s : Walk * option JsError) :
  applyTranslation texts (map (fun t => Some (JString t)) texts) anc id v s
  = (v, s).
Proof.
  unfold applyTranslation.
  destruct (snd s); [reflexivity|].
  destruct (match anc with [] => true | _ => shouldSkipElement anc end);
    [reflexivity|].
  destruct (isEmpty (trim v)); [reflexivity|].
  destruct (indexOf texts v) as [i|] eqn:Hi; [|reflexivity].
  unfold JsValue.
  match goal with
  | |- context [nth i ?l ?d] =>
      assert (E : nth i l d = Some (JString v))
        by exact (indexOf_nth _ (fun t => Some (JString t)) None texts v i
                    Hi);
      rewrite E
  end.
  cbn [differsFrom]. rewrite jsstring_eqb_refl, andb_false_r. reflexivity.
Qed.
End ResponseMore.

(** X12.  A batch that was started while no provider could be called (no
    key, provider [None] or unknown) resolves with the texts themselves:
    the callback removes the request and changes nothing else, whatever the
    network does. *)
Theorem batch_without_provider_changes_nothing
    (U : Unicode) (w : World) (n : nat) (outcome : FetchOutcome)
    (b : BatchRequest) :
  nth_error (batchRequests w) n = Some b ->
  batchProvider b = None ->
  batchResponseArrives n outcome w
  = withBatchRequests w (removeNth n (batchRequests w)).
Proof.
  intros Hn Hp. unfold batchResponseArrives. rewrite Hn, Hp.
  unfold applyBatchResult.
  rewrite walkBody_unchanged; [apply afterWalk_same|].
  intros; apply applyTranslation_identity.
Qed.

Lemma batch_without_provider_changes_nothing_witness :
  @batchResponseArrives basicUnicode 0 NetworkError keylessWorld
  = withBatchRequests keylessWorld
      (removeNth 0 (batchRequests keylessWorld)).
Proof.
  apply (@batch_without_provider_changes_nothing basicUnicode keylessWorld 0
           NetworkError
           {| batchTexts := [js "Open"]; batchProvider := None |});
    vm_compute; reflexivity.
Defined.

(** A translation without a string conversion ends the loop where it is
    met: the nodes before it have been written, the node itself and the
    nodes after it are left as they are, and the error is logged. *)
Example unconvertible_translation_ends_the_loop :
  let first :=
    @batchResponseArrives basicUnicode 0
      (HttpResponse true 200
         (Some (deepLValues [unconvertible; JString (js "今すぐ閉じる")])))
      twoSentWorld in
  let second :=
    @batchResponseArrives basicUnicode 0
      (HttpResponse true 200
         (Some (deepLValues [JString (js "今すぐ開く"); unconvertible])))
      twoSentWorld in
  map batchTexts (batchRequests twoSentWorld)
  = [[js "Open now"; js "Close now"]]
  /\ bodyNodes (document first) = bodyNodes twoParagraphs
  /\ console first = console twoSentWorld ++ [WarnBatchFailed TypeError]
  /\ bodyNodes (document second)
     = [textElement 10 (js "p") (js "今すぐ開く");
        textElement 12 (js "p") (js "Close now")]
  /\ console second = console twoSentWorld ++ [WarnBatchFailed TypeError].
Proof. vm_compute. repeat split. Qed.

Lemma mapM_map (A B C : Type) (g : A -> B) (f : B -> JsError + C)
    (h : A -> C) (l : list A) :
  (forall x, f (g x) = inr (h x)) -> mapM f (map g l) = inr (map h l).
Proof.
  intros H. induction l as [|x l IH]; simpl; [reflexivity|].
  rewrite H, IH. reflexivity.
Qed.

(** X13.  Each provider function reads a successful response of the shape
    its comment documents as the list of the translations, in the order of
    the payload. *)
Theorem documented_payloads_decode_in_order
    (status : N) (translations : list jsstring) :
  let translated := map (fun t => Some (JString t)) translations in
  translateWithDeepL
    (HttpResponse true status (Some (deepLPayload translations)))
  = inr translated
  /\ translateWithGoogle
       (HttpResponse true status (Some (googlePayload translations)))
     = inr translated
  /\ translateWithAzure
       (HttpResponse true status (Some (azurePayload translations)))
     = inr translated.
Proof.
  cbn zeta. split; [|split].
  - unfold translateWithDeepL, deepLPayload. cbn.
    apply (mapM_map _ _ _
             (fun t => JObject [(js "text", JString t)])
             (fun x => getProperty (Some x) (js "text"))).
    intros t. reflexivity.
  - unfold translateWithGoogle, googlePayload. cbn.
    apply (mapM_map _ _ _
             (fun t => JObject [(js "translatedText", JString t)])
             (fun x => bindE (getProperty (Some x) (js "translatedText"))
                         (fun t => inr (orElse t emptyString)))).
    intros [|c t]; reflexivity.
  - unfold translateWithAzure, azurePayload. cbn.
    apply (mapM_map _ _ _
             (fun t => JObject
                         [(js "translations",
                           JArray [JObject [(js "text", JString t);
                                            (js "to", JString (js "ja"))]])])
             (fun item =>
                bindE (getProperty (Some item) (js "translations"))
                  (fun translations =>
                     inr (orElse
                            (getPropertyOptional
                               (firstItemOptional translations) (js "text"))
                            emptyString)))).
    intros [|c t]; reflexivity.
Qed.

(** X14.  When a batch is answered with a list of translations that can
    all be converted to strings, the loop runs to its end and logs nothing,
    and a text node of the body whose parent is not skipped and whose value
    is the [i]-th string sent receives the [i]-th translation, provided the
    translation is a string that is not empty and differs from the value.
    (A translation without a string conversion makes the assignment throw
    and ends the loop, see [unconvertible_translation_ends_the_loop].) *)
Theorem batch_translation_is_written_by_position
    (U : Unicode) (w : World) (n : nat) (outcome : FetchOutcome)
    (b : BatchRequest) (k : ProviderKind) (translated : list JsValue)
    (i : nat) (anc : list Element) (id : N) (v t : jsstring) :
  nth_error (batchRequests w) n = Some b ->
  batchProvider b = Some k ->
  callProvider k outcome = inr translated ->
  (forall c, In c translated -> exists text, valueToString c = inr text) ->
  NoDup (batchTexts b) ->
  nth_error (batchTexts b) i = Some v ->
  nth_error translated i = Some (Some (JString t)) ->
  t <> [] -> t <> v ->
  In (anc, id, v) (bodyTexts (document w)) ->
  shouldSkipElement anc = false ->
  trim v <> [] ->
  In (anc, id, t) (bodyTexts (document (batchResponseArrives n outcome w)))
  /\ console (batchResponseArrives n outcome w) = console w.
Proof.
  intros Hn Hp Hc Hconv Hnd Hi Ht Hne Hdiff Hin Hs Hv.
  unfold batchResponseArrives. rewrite Hn, Hp, Hc.
  destruct (applyBatchResult_converted
              (withBatchRequests w (removeNth n (batchRequests w)))
              (batchTexts b) translated Hconv) as (-> & ->).
  split; [|reflexivity].
  cbn [document withBatchRequests].
  apply in_map_iff. exists (anc, id, v). split; [|exact Hin].
  cbn [fst snd]. f_equal. unfold reconciled.
  destruct anc as [|p anc]; [discriminate|]. rewrite Hs.
  destruct (trim v) eqn:Et; [congruence|]. cbn [isEmpty].
  rewrite (indexOf_position _ _ Hnd i Hi).
  unfold JsValue in *. rewrite (nth_error_nth _ _ None Ht).
  cbn [truthy differsFrom valueToString toString].
  destruct t as [|c t]; [congruence|]. cbn [andb].
  destruct (jsstring_eqb (c :: t) v) eqn:E; [|reflexivity].
  apply jsstring_eqb_eq in E. congruence.
Qed.

Lemma batch_translation_is_written_by_position_witness :
  In (openFragment, 11%N, js "開く")
    (bodyTexts
       (document
          (@batchResponseArrives basicUnicode 0
             (HttpResponse true 200 (Some (deepLPayload [js "開く"])))
             sentWorld)))
  /\ console
       (@batchResponseArrives basicUnicode 0
          (HttpResponse true 200 (Some (deepLPayload [js "開く"])))
          sentWorld)
     = console sentWorld.
Proof.
  apply (@batch_translation_is_written_by_position basicUnicode sentWorld 0
           (HttpResponse true 200 (Some (deepLPayload [js "開く"])))
           {| batchTexts := [js "Open"]; batchProvider := Some DeepL |}
           DeepL [Some (JString (js "開く"))] 0 openFragment 11
           (js "Open") (js "開く")).
  - vm_compute. reflexivity.
  - reflexivity.
  - vm_compute. reflexivity.
  - intros c [<- | []]. exists (js "開く"). reflexivity.
  - constructor; [intros [] | constructor].
  - reflexivity.
  - reflexivity.
  - vm_compute. discriminate.
  - vm_compute. discriminate.
  - vm_compute. left. reflexivity.
  - vm_compute. reflexivity.
  - vm_compute. discriminate.
Defined.

(** X15.  If the provider call of an attribute request throws, the error
    is logged and the request is dropped; the document, and the attribute in
    particular, stay as they are. *)
Theorem failed_attribute_request_changes_nothing
    (w : World) (n : nat) (outcome : FetchOutcome) (r : AttributeRequest)
    (e : JsError) :
  nth_error (attributeRequests w) n = Some r ->
  callProvider (requestProvider r) outcome = inl e ->
  attributeResponseArrives n outcome w
  = withConsole (withAttributeRequests w (removeNth n (attributeRequests w)))
      (console w ++ [WarnApiError e]).
Proof.
  intros Hn He. unfold attributeResponseArrives, translateByOptionalApi_settled.
  rewrite Hn, He. cbn [differsFrom]. rewrite jsstring_eqb_refl, andb_false_r.
  reflexivity.
Qed.

Lemma failed_attribute_request_changes_nothing_witness :
  attributeResponseArrives 0 (HttpResponse false 500 None) buttonWorld
  = withConsole
      (withAttributeRequests buttonWorld
         (removeNth 0 (attributeRequests buttonWorld)))
      (console buttonWorld
       ++ [WarnApiError (HttpStatusError (js "DeepL") 500)]).
Proof.
  apply (failed_attribute_request_changes_nothing buttonWorld 0
           (HttpResponse false 500 None)
           {| requestElement := 10;
              requestAttribute := Title;
              requestOriginal := js "Open";
              requestProvider := DeepL |});
    vm_compute; reflexivity.
Defined.

(** ** [debounce] *)
Section DebounceFacts.
Variable Args : Type.

Lemma invoke_active (a : Args) (d : Debounced Args) :
  oneTimer d ->
  timer (invoke a d) = Some (nextTimerId (timers d))
  /\ activeTimers (timers (invoke a d)) = [(nextTimerId (timers d), a)]
  /\ applied (invoke a d) = applied d.
Proof.
  unfold invoke, setTimeout. intros [H | (id & a0 & Ht & H)].
  - destruct (timer d); cbn; rewrite H; auto.
  - rewrite Ht. cbn. rewrite H. cbn. rewrite Nat.eqb_refl. cbn. auto.
Qed.

Lemma timerFires_active (id : nat) (d : Debounced Args) :
  oneTimer d ->
  (activeTimers (timers (timerFires id d)) = []
   /\ exists a, activeTimers (timers d) = [(id, a)]
                /\ applied (timerFires id d) = applied d ++ [a])
  \/ timerFires id d = d.
Proof.
  unfold timerFires. intros [H | (id0 & a0 & Ht & H)]; rewrite H; cbn;
    [right; reflexivity|].
  destruct (Nat.eqb_spec id0 id) as [->|Hne]; [left | right; reflexivity].
  cbn. rewrite H. cbn. rewrite Nat.eqb_refl. cbn. eauto.
Qed.

Lemma step_settled (e : DebounceEvent Args) (d : Debounced Args) :
  oneTimer d ->
  oneTimer (debounceStep d e)
  /\ List.length (applied (debounceStep d e))
     + List.length (activeTimers (timers (debounceStep d e)))
     <= List.length (applied d) + List.length (activeTimers (timers d))
        + (if isInvoke e then 1 else 0).
Proof.
  intros Hs. destruct e as [a | id]; cbn [debounceStep isInvoke].
  - destruct (invoke_active a d Hs) as (Ht & Ha & Hp).
    split; [right; eauto|]. rewrite Ha, Hp. cbn. lia.
  - destruct (timerFires_active id d Hs) as [(Ha & a & Hd & Hp) | ->];
      [|split; [exact Hs | lia]].
    split; [left; exact Ha|]. rewrite Ha, Hp, Hd, length_app. cbn. lia.
Qed.

Lemma run_settled (events : list (DebounceEvent Args)) :
  forall d,
    oneTimer d ->
    oneTimer (debounceRun events d)
    /\ List.length (applied (debounceRun events d))
       + List.length (activeTimers (timers (debounceRun events d)))
       <= List.length (applied d) + List.length (activeTimers (timers d))
          + List.length (filter (@isInvoke Args) events).
Proof.
  induction events as [|e events IH]; intros d Hs; [cbn; split; [auto | lia]|].
  destruct (step_settled e d Hs) as [Hs1 Hl1].
  destruct (IH _ Hs1) as [Hs2 Hl2].
  change (debounceRun (e :: events) d)
    with (debounceRun events (debounceStep d e)).
  split; [exact Hs2|]. cbn [filter].
  destruct (isInvoke e); cbn [List.length]; lia.
Qed.

(** X16.  Whatever calls and timer events came before, after a call of
    the debounced function exactly one timer is pending, and when it fires
    the function is applied once, to the arguments of that last call; the
    function is applied at most once per call. *)
Theorem debounce_applies_once_with_the_last_arguments
    (firstId : nat) (events : list (DebounceEvent Args)) (a : Args) :
  let d := debounceRun (events ++ [Invoke a]) (debounce firstId) in
  (exists id,
      timer d = Some id
      /\ activeTimers (timers d) = [(id, a)]
      /\ applied (timerFires id d) = applied d ++ [a]
      /\ activeTimers (timers (timerFires id d)) = [])
  /\ List.length (applied d) + 1
     <= List.length (filter (@isInvoke Args) (events ++ [Invoke a])).
Proof.
  cbn zeta. unfold debounceRun. rewrite fold_left_app. cbn [fold_left].
  fold (debounceRun events (@debounce Args firstId)).
  destruct (run_settled events (debounce firstId)) as [Hs Hl];
    [left; reflexivity|].
  cbn [debounceStep].
  destruct (invoke_active a _ Hs) as (Ht & Ha & Hp).
  set (d0 := debounceRun events (debounce firstId)) in *.
  set (d1 := invoke a d0) in *.
  split.
  - exists (nextTimerId (timers d0)).
    split; [exact Ht|]. split; [exact Ha|].
    unfold timerFires. rewrite Ha. cbn [find fst]. rewrite Nat.eqb_refl.
    cbn [applied timers clearTimeout activeTimers]. rewrite Ha.
    cbn [filter fst]. rewrite Nat.eqb_refl. cbn [negb]. auto.
  - rewrite Hp, filter_app, length_app. cbn in Hl |- *. lia.
Qed.
End DebounceFacts.


(** ** The popup *)

Lemma startsWith_append (p q s : jsstring) :
  startsWith (p ++ q) s
  = startsWith p s && startsWith q (skipn (List.length p) s).
Proof.
  revert s. induction p as [|a p IH]; intros s; [reflexivity|].
  destruct s as [|b s]; [reflexivity|].
  cbn [app startsWith List.length skipn]. rewrite IH, andb_assoc.
  reflexivity.
Qed.

Lemma githubAddress_at (s : jsstring) :
  negb (isEmpty (matchesAt githubAddress s))
  = startsWith (js "https://github.com") s
    || startsWith (js "https://gist.github.com") s.
Proof.
  change (js "https://github.com") with (js "https://" ++ js "github.com").
  change (js "https://gist.github.com")
    with (js "https://" ++ js "gist." ++ js "github.com").
  rewrite !startsWith_append.
  unfold githubAddress. cbn [matchesAt].
  destruct (startsWith (js "https://") s); [|reflexivity].
  cbn [flat_map andb]. rewrite app_nil_r.
  set (s' := skipn (List.length (js "https://")) s).
  destruct (startsWith (js "gist.") s'); cbn [app flat_map andb];
    destruct (startsWith (js "github.com") s');
    try destruct (startsWith (js "github.com")
                    (skipn (List.length (js "gist.")) s'));
    reflexivity.
Qed.

(** X17.  The pattern the popup tests the address of the active tab with
    is not anchored: it accepts exactly the addresses that contain
    [https://github.com] or [https://gist.github.com] somewhere. *)
Theorem popup_address_test_is_a_substring_test (url : jsstring) :
  test githubAddress url
  = includes url (js "https://github.com")
    || includes url (js "https://gist.github.com").
Proof.
  induction url as [|c url IH].
  - vm_compute. reflexivity.
  - change (test githubAddress (c :: url))
      with (negb (isEmpty (matchesAt githubAddress (c :: url)))
            || test githubAddress url).
    rewrite githubAddress_at, IH.
    change (includes (c :: url) (js "https://github.com"))
      with (startsWith (js "https://github.com") (c :: url)
            || includes url (js "https://github.com")).
    change (includes (c :: url) (js "https://gist.github.com"))
      with (startsWith (js "https://gist.github.com") (c :: url)
            || includes url (js "https://gist.github.com")).
    destruct (startsWith (js "https://github.com") (c :: url)),
      (startsWith (js "https://gist.github.com") (c :: url)),
      (includes url (js "https://github.com")),
      (includes url (js "https://gist.github.com")); reflexivity.
Qed.



(** X19.  The message the button of the popup sends makes the content
    script translate the whole document, but the listener then reads [then]
    from the result of [translateEntireDocumentNow], which is [undefined]:
    it throws a [TypeError] and never calls [sendResponse]. *)
Theorem translate_now_request_is_never_answered
    (U : Unicode) (dict : list (jsstring * jsstring)) (tabs : list Tab)
    (tab : Tab) (w : World) :
  hd_error tabs = Some tab ->
  isGithubTab (Some tab) = true ->
  exists message,
    sentMessage (onTranslateNowClick tabs) = Some (tabId tab, message)
    /\ onMessage dict (Some message) w
       = {| deliveredWorld := translateEntireDocumentNow dict w;
            storedEnabled := None;
            reply := None;
            completion := inl TypeError |}.
Proof.
  intros Ht Hg. unfold onTranslateNowClick. rewrite Ht, Hg.
  exists translateNowMessage. split; [reflexivity|].
  unfold onMessage.
  replace (hasType (Some translateNowMessage) (js "github-ja-translate-now"))
    with true by (vm_compute; reflexivity).
  reflexivity.
Qed.

Lemma translate_now_request_is_never_answered_witness :
  exists message,
    sentMessage (onTranslateNowClick [githubTab])
    = Some (tabId githubTab, message)
    /\ @onMessage basicUnicode [] (Some message) openWorld
       = {| deliveredWorld :=
              @translateEntireDocumentNow basicUnicode [] openWorld;
            storedEnabled := None;
            reply := None;
            completion := inl TypeError |}.
Proof.
  apply (@translate_now_request_is_never_answered basicUnicode []
           [githubTab] githubTab openWorld);
    vm_compute; reflexivity.
Defined.

(** ** The options page *)
Section TestFacts.
Variable encodeURIComponent : jsstring -> option jsstring.

(** X20.  [testTranslation] of the options page reports an error without
    a request exactly when the content script would call no provider, and
    otherwise sends, for its sample text, the request the content script
    would send: the same provider, address, method and body and the same
    headers. *)
Theorem options_test_sends_the_request_of_the_content_script
    (stored : Configuration) :
  match translateListByOptionalApi stored with
  | None =>
      exists message,
        testTranslation encodeURIComponent stored
        = Done (showStatus (Text message) true)
  | Some k =>
      match requestOf encodeURIComponent k stored [sample] with
      | Some r =>
          exists r',
            testTranslation encodeURIComponent stored = Fetching k r'
            /\ endpoint r' = endpoint r
            /\ httpMethod r' = httpMethod r
            /\ payload r' = payload r
            /\ forall h, In h (headers r') <-> In h (headers r)
      | None =>
          testTranslation encodeURIComponent stored
          = Done (showStatus (FailureText TestURIError) true)
      end
  end.
Proof.
  unfold translateListByOptionalApi, testTranslation, providerOf.
  destruct (negb (useTranslationApi stored)
            || jsstring_eqb (translationProvider stored) (js "None"));
    [eexists; reflexivity|].
  destruct (isEmpty (translationApiKey stored)); [eexists; reflexivity|].
  destruct (jsstring_eqb (translationProvider stored) (js "DeepL")).
  { cbn [requestOf]. unfold deepLRequest. eexists.
    split; [reflexivity|]. cbn [endpoint httpMethod payload headers map app].
    split; [reflexivity|]. split; [reflexivity|]. split; [reflexivity|].
    intros h. apply iff_refl. }
  destruct (jsstring_eqb (translationProvider stored) (js "Google")).
  { cbn [requestOf]. unfold googleRequest.
    destruct (encodeURIComponent (trim (translationApiKey stored)));
      [|reflexivity].
    eexists. split; [reflexivity|].
    cbn [endpoint httpMethod payload headers map].
    split; [reflexivity|]. split; [reflexivity|]. split; [reflexivity|].
    intros h. apply iff_refl. }
  destruct (jsstring_eqb (translationProvider stored) (js "Azure")).
  { cbn [requestOf]. unfold azureRequest. eexists.
    split; [reflexivity|]. cbn [endpoint httpMethod payload headers].
    split; [reflexivity|]. split; [reflexivity|]. split; [reflexivity|].
    intros h.
    destruct (isEmpty (trim (translationRegion stored)));
      cbn [app In]; tauto. }
  eexists; reflexivity.
Qed.
End TestFacts.


Lemma mapM_head (A B : Type) (f : A -> JsError + B) (x : A) (l : list A)
    (ys : list B) :
  mapM f (x :: l) = inr ys ->
  exists y ys', f x = inr y /\ ys = y :: ys'.
Proof.
  simpl. destruct (f x) as [e|y]; [discriminate|].
  destruct (mapM f l) as [e|ys']; [discriminate|].
  intros [= <-]. eauto.
Qed.

Lemma mapM_nil (A B : Type) (f : A -> JsError + B) (ys : list B) :
  mapM f [] = inr ys -> ys = [].
Proof. simpl. intros [= <-]. reflexivity. Qed.

(** X21.  Whenever a provider function of the content script returns a
    list for a response, [testTranslation] reads the first translation out
    of the same response: the list is empty and the value is [undefined],
    or the first entry of the list is that value (for DeepL) or that value
    with an empty string in place of a falsy one (for Google and Azure).
    The test reports success with the string conversion of the value, and
    a failure only if the value cannot be converted.  So a failed test
    predicts a failed translation or a first translation that is no
    string. *)
Theorem options_test_shows_the_first_translation_of_the_content_script
    (k : ProviderKind) (outcome : FetchOutcome) (translated : list JsValue) :
  callProvider k outcome = inr translated ->
  exists v,
    (translated = [] /\ v = None
     \/ exists rest,
          translated
          = match k with
            | DeepL => v
            | _ => orElse v emptyString
            end :: rest)
    /\ testSettled k outcome
       = match valueToString v with
         | inr text => showStatus (Text (js "成功: " ++ text)) false
         | inl _ => showStatus (FailureText TestTypeError) true
         end.
Proof.
  destruct outcome as [|ok status [data|]];
    [destruct k; discriminate | | destruct k, ok; discriminate].
  destruct ok; [|destruct k; discriminate].
  unfold testSettled. cbn [negb].
  assert (Hnil : forall l : list JsValue,
             @inr JsError (list JsValue) [] = inr l -> l = []).
  { intros l [= <-]. reflexivity. }
  destruct k; cbn [callProvider firstTranslation].
  - unfold translateWithDeepL. cbn [readResponse negb bindE].
    destruct (getProperty (Some data) (js "translations"))
      as [e|translations]; [discriminate|].
    cbn [bindE]. intros H. eexists. split; [|reflexivity].
    unfold orElse in H.
    destruct translations as [[ | b | t text | s | items | fields ]|];
      cbn [truthy] in H.
    + left. split; [apply Hnil, H | reflexivity].
    + destruct b; [discriminate|].
      left. split; [apply Hnil, H | reflexivity].
    + destruct t; [discriminate|].
      left. split; [apply Hnil, H | reflexivity].
    + destruct s; [|discriminate].
      left. split; [apply Hnil, H | reflexivity].
    + destruct items as [|x items];
        [left; split; [apply Hnil, H | reflexivity]|].
      cbn [arrayMap] in H.
      apply mapM_head in H. destruct H as (y & ys & Hy & ->).
      right. exists ys. cbn [firstItemOptional]. unfold getPropertyOptional.
      rewrite Hy. reflexivity.
    + discriminate.
    + left. split; [apply Hnil, H | reflexivity].
  - unfold translateWithGoogle. cbn [readResponse negb bindE].
    destruct (getProperty (Some data) (js "data")) as [e|inner];
      [discriminate|].
    cbn [bindE]. intros H. eexists. split; [|reflexivity].
    unfold orElse at 1 in H.
    destruct (getPropertyOptional inner (js "translations"))
      as [[ | b | t text | s | items | fields ]|];
      cbn [truthy] in H.
    + left. split; [apply Hnil, H | reflexivity].
    + destruct b; [discriminate|].
      left. split; [apply Hnil, H | reflexivity].
    + destruct t; [discriminate|].
      left. split; [apply Hnil, H | reflexivity].
    + destruct s; [|discriminate].
      left. split; [apply Hnil, H | reflexivity].
    + destruct items as [|x items];
        [left; split; [apply Hnil, H | reflexivity]|].
      cbn [arrayMap] in H.
      apply mapM_head in H. destruct H as (y & ys & Hy & ->).
      right. exists ys. cbn [firstItemOptional]. unfold getPropertyOptional.
      destruct (getProperty (Some x) (js "translatedText")) as [e|t];
        [discriminate|].
      cbn [bindE] in Hy. injection Hy as <-. reflexivity.
    + discriminate.
    + left. split; [apply Hnil, H | reflexivity].
  - unfold translateWithAzure. cbn [readResponse negb bindE].
    intros H. destruct data as [ | b | t text | s | items | fields ];
      try discriminate.
    cbn [firstItem bindE]. eexists. split; [|reflexivity].
    destruct items as [|x items];
      [left; split; [apply Hnil, H | reflexivity]|].
    cbn [arrayMap] in H.
    apply mapM_head in H. destruct H as (y & ys & Hy & ->).
    right. exists ys. cbn [firstItemOptional].
    destruct (getProperty (Some x) (js "translations")) as [e|translations]
      eqn:E; [discriminate|].
    cbn [bindE] in Hy. injection Hy as <-.
    replace (getPropertyOptional (Some x) (js "translations"))
      with translations
      by (unfold getPropertyOptional; rewrite E; reflexivity).
    reflexivity.
Qed.

Lemma options_test_shows_the_first_translation_of_the_content_script_witness :
  exists v,
    ([Some (JString (js "こんにちは"))] = [] /\ v = None
     \/ exists rest, [Some (JString (js "こんにちは"))] = v :: rest)
    /\ testSettled DeepL
         (HttpResponse true 200 (Some (deepLPayload [js "こんにちは"])))
       = match valueToString v with
         | inr text => showStatus (Text (js "成功: " ++ text)) false
         | inl _ => showStatus (FailureText TestTypeError) true
         end.
Proof.
  apply (options_test_shows_the_first_translation_of_the_content_script DeepL
           (HttpResponse true 200 (Some (deepLPayload [js "こんにちは"])))
           [Some (JString (js "こんにちは"))]).
  vm_compute. reflexivity.
Defined.

(** A first translation that is an object with a property [toString] of
    its own cannot be converted: the content script returns the list, the
    test reports a failure. *)
Example unconvertible_translation_fails_the_test :
  let payload := deepLValues [unconvertible] in
  translateWithDeepL (HttpResponse true 200 (Some payload))
  = inr [Some unconvertible]
  /\ testSettled DeepL (HttpResponse true 200 (Some payload))
     = showStatus (FailureText TestTypeError) true.
Proof. split; vm_compute; reflexivity. Qed.

(** The converse fails: a payload whose [translations] is a string passes
    the test, which shows [undefined], and makes the content script throw. *)
Example passed_test_does_not_predict_translation :
  let payload := JObject [(js "translations", JString (js "none"))] in
  testSettled DeepL (HttpResponse true 200 (Some payload))
  = showStatus (Text (js "成功: undefined")) false
  /\ translateWithDeepL (HttpResponse true 200 (Some payload)) = inl TypeError.
Proof. split; vm_compute; reflexivity. Qed.

(** ** The two paths to a provider *)

(** X22.  [translateByOptionalApi] starts a request under the very
    conditions under which [translateListByOptionalApi] calls a provider,
    and for the same provider; the one difference is that it logs a warning
    when remote translation is switched on with a provider but the key is
    empty. *)
Theorem single_and_batch_paths_call_a_provider_alike
    (cfg : Configuration) (id : N) (a : AttributeName) (text : jsstring)
    (s : Requests) :
  requested (translateByOptionalApi cfg id a text s)
  = requested s
    ++ match translateListByOptionalApi cfg with
       | Some k =>
           [{| requestElement := id;
               requestAttribute := a;
               requestOriginal := text;
               requestProvider := k |}]
       | None => []
       end
  /\ logged (translateByOptionalApi cfg id a text s)
     = logged s
       ++ (if useTranslationApi cfg
              && negb (jsstring_eqb (translationProvider cfg) (js "None"))
              && isEmpty (translationApiKey cfg)
           then [WarnMissingApiKey] else []).
Proof.
  unfold translateByOptionalApi, translateListByOptionalApi.
  destruct (useTranslationApi cfg); cbn [negb orb andb];
    [|rewrite !app_nil_r; split; reflexivity].
  destruct (jsstring_eqb (translationProvider cfg) (js "None"));
    cbn [negb andb]; [rewrite !app_nil_r; split; reflexivity|].
  destruct (isEmpty (translationApiKey cfg));
    [cbn [requested logged]; rewrite app_nil_r; split; reflexivity|].
  destruct (providerOf (translationProvider cfg));
    cbn [requested logged]; rewrite !app_nil_r; split; reflexivity.
Qed.

Lemma startsWith_split (p s : jsstring) :
  startsWith p s = true -> s = p ++ skipn (List.length p) s.
Proof.
  revert s. induction p as [|a p IH]; intros s; [reflexivity|].
  destruct s as [|b s]; [discriminate|]. cbn [startsWith].
  intros H. apply andb_true_iff in H. destruct H as [H1 H2].
  apply N.eqb_eq in H1. subst b. cbn [app List.length skipn].
  f_equal. apply IH, H2.
Qed.

(** X23.  [translateWithDeepL] sends the trimmed key without its marker: a
    key that starts with [free:] goes to the free endpoint and is sent
    without that prefix, stripped once; any other key goes to the paid
    endpoint unchanged. *)
Theorem deepl_key_prefix_selects_the_endpoint
    (cfg : Configuration) (textList : list jsstring) :
  let key := trim (translationApiKey cfg) in
  let r := deepLRequest cfg textList in
  exists realKey,
    headers r
    = [(js "Authorization", js "DeepL-Auth-Key " ++ realKey);
       (js "Content-Type", js "application/x-www-form-urlencoded")]
    /\ (endpoint r = js "https://api-free.deepl.com/v2/translate"
        /\ key = js "free:" ++ realKey
        \/ endpoint r = js "https://api.deepl.com/v2/translate"
           /\ key = realKey
           /\ startsWith (js "free:") key = false).
Proof.
  cbn zeta. unfold deepLRequest, deepLEndpoint, deepLRealKey,
    replaceLeadingFree.
  cbn [headers endpoint].
  destruct (startsWith (js "free:") (trim (translationApiKey cfg))) eqn:E.
  - eexists. split; [reflexivity|]. left. split; [reflexivity|].
    apply startsWith_split, E.
  - eexists. split; [reflexivity|]. right. auto.
Qed.
